(** * parca-debuginfo: upload protocol, extraction pipeline and source
      archive builder

    A shallow embedding of [cmd/parca-debuginfo/main.go] (the revision with
    the [source] command and [extractAll]) and the properties its design
    notes state about it.

    The program is sequential Go code that talks to collaborators: the
    filesystem, the ELF reader, the debug-information reducer, the content
    hash and the debug-info store.  The collaborators are the fields of a
    record [World]; the program itself is written in a small state-and-error
    monad whose state holds the open streams (file handles and scratch
    buffers, shared by reference as in the Go code) and the trace of the
    calls the program has made so far. *)

From Stdlib Require Import ZArith String List Lia Strings.Byte.
From stdpp Require Import gmap strings list.
Import ListNotations.

Local Open Scope string_scope.
Local Open Scope list_scope.
Local Open Scope Z_scope.

(** ** Protocol enums (package [debuginfopb]) *)

Inductive DebuginfoType : Type :=
  | DEBUGINFO_TYPE_DEBUGINFO_UNSPECIFIED
  | DEBUGINFO_TYPE_EXECUTABLE
  | DEBUGINFO_TYPE_SOURCES.

(** The strategy is an int32 enum on the wire: the three named values, and
    any other number a newer server may send. *)
Inductive UploadStrategy : Type :=
  | UPLOAD_STRATEGY_UNSPECIFIED
  | UPLOAD_STRATEGY_GRPC
  | UPLOAD_STRATEGY_SIGNED_URL
  | UPLOAD_STRATEGY_unrecognized (number : Z).

(** ** Errors *)

(** Operands of a [fmt.Errorf] / [fmt.Fprintf] call, other than the error
    wrapped by [%w]. *)
Inductive fmt_arg : Type :=
  | arg_s (s : string)                (* %s and %q of a string *)
  | arg_d (n : Z)                     (* %d of an integer *)
  | arg_strategy (s : UploadStrategy) (* %s / %v of a strategy *)
  | arg_type (t : DebuginfoType).     (* %s of a debuginfo type *)

Set Warnings "-register-all".

(** Go [error] values that the program builds or receives.  [nil] is [None]
    of [option error]. *)
Inductive error : Type :=
  | errors_New (text : string)
  | fmt_Errorf (format : string) (args : list fmt_arg) (wrapped : option error)
  | joinError (errs : list error)
  | PathError (op path : string) (not_exist : bool)
  | foreign_error (text : string).

(** [errors.Join]: drops the nil operands; nil when none is left. *)
Definition errors_Join (errs : list (option error)) : option error :=
  match omap id errs with
  | [] => None
  | es => Some (joinError es)
  end.

(** [errors.Is(err, os.ErrNotExist)]: follows [Unwrap] chains. *)
Fixpoint errors_Is_ErrNotExist (e : error) : bool :=
  match e with
  | PathError _ _ b => b
  | fmt_Errorf _ _ (Some w) => errors_Is_ErrNotExist w
  | joinError es =>
      (fix any (l : list error) : bool :=
         match l with
         | [] => false
         | x :: l' => errors_Is_ErrNotExist x || any l'
         end) es
  | _ => false
  end.

(** ** Protocol messages (package [debuginfopb]) *)

Record ShouldInitiateUploadRequest : Type := {
  sreq_BuildId : string;
  sreq_Force : bool;
  sreq_Type : DebuginfoType }.

Record ShouldInitiateUploadResponse : Type := {
  ShouldInitiateUpload : bool;
  Reason : string }.

Record InitiateUploadRequest : Type := {
  ireq_BuildId : string;
  ireq_Hash : string;
  ireq_Size : Z;
  ireq_Force : bool;
  ireq_Type : DebuginfoType }.

Record UploadInstructions : Type := {
  ui_BuildId : string;
  ui_UploadId : string;
  ui_UploadStrategy : UploadStrategy;
  ui_SignedUrl : string;
  ui_Type : DebuginfoType }.

Record MarkUploadFinishedRequest : Type := {
  mreq_BuildId : string;
  mreq_UploadId : string;
  mreq_Type : DebuginfoType }.

(** [debuginfoTypeStringToPb] *)
Definition debuginfoTypeStringToPb (s : string) : DebuginfoType :=
  if String.eqb s "executable" then DEBUGINFO_TYPE_EXECUTABLE
  else if String.eqb s "sources" then DEBUGINFO_TYPE_SOURCES
  else DEBUGINFO_TYPE_DEBUGINFO_UNSPECIFIED.

(** ** Calls the program makes, in order *)

Abbreviation handle := nat (only parsing).

Inductive event : Type :=
  | EvStdout (format : string) (args : list fmt_arg)
  | EvStderr (format : string) (args : list fmt_arg) (verr : option error)
  | EvOsOpen (path : string)
  | EvExtractFn (mode_fn : string) (src : string) (dst : handle)
  | EvShouldInitiateUpload (req : ShouldInitiateUploadRequest)
  | EvHashReader (r : handle) (read : list byte)
  | EvSeekStart (r : handle)
  | EvInitiateUpload (req : InitiateUploadRequest)
  | EvGrpcUpload (instr : UploadInstructions) (r : handle) (sent : list byte)
  | EvHttpPut (url : string) (r : handle) (sent : list byte)
  | EvMarkUploadFinished (req : MarkUploadFinishedRequest)
  | EvTarWriteHeader (name : string) (size : Z)
  | EvTarCopy (name : string) (body : list byte).

(** ** Collaborators *)

Inductive result (A : Type) : Type :=
  | Ok (a : A)
  | Err (e : error).
Arguments Ok {A} a.
Arguments Err {A} e.

(** What [os.Open] hands back: the bytes of the file and how its later
    [Stat], reads, [Seek] and [Close] answer. *)
Record File : Type := {
  f_data : list byte;
  f_Stat : result Z;
  f_read_err : option error;
  f_seek_err : option error;
  f_close_err : option error }.

(** One DWARF entry, as far as the [source] command looks at it: its tag
    and what [d.LineReader(e)] answers (an error, a nil reader, or a reader
    whose [Files()] holds nil slots and named files). *)
Record Entry : Type := {
  e_Tag : Z;
  e_LineReader : result (option (list (option string))) }.

Definition TagCompileUnit : Z := 17.

(** [d.Reader()]: the entries [r.Next()] yields, then the end of the
    stream ([None]) or an error. *)
Record DwarfData : Type := {
  dw_entries : list Entry;
  dw_end : option error }.

Record ElfFile : Type := {
  elf_buildid : result string;      (* buildid.FromELF(ef) *)
  elf_DWARF : result DwarfData }.   (* ef.DWARF() *)

(** A reducer ([StripDebug] / [OnlyKeepDebug]) reads the source and writes
    and seeks in the destination: from the destination's bytes and offset it
    leaves new bytes and a new offset, and answers an error or nil. *)
Definition reducer : Type :=
  File -> list byte -> nat -> list byte * nat * option error.

Record World : Type := {
  w_grpcConn : option error;
  w_elf_Open : string -> result ElfFile;
  w_os_Open : string -> result File;
  w_os_RemoveAll : string -> option error;
  w_os_MkdirAll : string -> option error;
  w_os_Create : string -> option error;
  w_filepath_Join : string -> string -> string;
  w_hash : list byte -> string;
  w_StripDebug : reducer;
  w_OnlyKeepDebug : reducer;
  (* the order in which [range] visits a map: any order *)
  w_map_range : gmap string handle -> list (string * handle);
  (* the store and the transports answer by what they have seen so far *)
  w_ShouldInitiateUpload :
    list event -> ShouldInitiateUploadRequest -> result ShouldInitiateUploadResponse;
  w_InitiateUpload : list event -> InitiateUploadRequest -> result UploadInstructions;
  w_grpc_Upload : list event -> UploadInstructions -> list byte -> option error;
  w_http_NewRequest : string -> option error;
  w_http_Do : list event -> string -> list byte -> result Z;
  w_MarkUploadFinished : list event -> MarkUploadFinishedRequest -> option error;
  w_zstd_NewWriter : option error;
  w_tar_WriteHeader : list event -> string -> Z -> option error;
  w_io_Copy : list event -> string -> File -> option error }.

(** [range] over a Go map visits every entry once, in no fixed order. *)
Definition range_ok (w : World) : Prop :=
  forall m : gmap string handle, w_map_range w m ≡ₚ map_to_list m.

(** ** Streams and the program state *)

Inductive stream_kind : Type := os_File | flexbuf_Buffer.

(** An [io.ReadSeeker] / [io.WriteSeeker] the program holds by reference. *)
Record Stream : Type := {
  s_kind : stream_kind;
  s_data : list byte;
  s_off : nat;
  s_read_err : option error;
  s_seek_err : option error }.

Definition with_off (s : Stream) (off : nat) : Stream :=
  {| s_kind := s_kind s; s_data := s_data s; s_off := off;
     s_read_err := s_read_err s; s_seek_err := s_seek_err s |}.

Definition with_data (s : Stream) (data : list byte) (off : nat) : Stream :=
  {| s_kind := s_kind s; s_data := data; s_off := off;
     s_read_err := s_read_err s; s_seek_err := s_seek_err s |}.

Definition stream_of_file (f : File) : Stream :=
  {| s_kind := os_File; s_data := f_data f; s_off := 0%nat;
     s_read_err := f_read_err f; s_seek_err := f_seek_err f |}.

(** Modelled from the spec: the scratch buffer ([flexbuf.Buffer], not under
    src/) is an in-memory, rewindable byte sink: a growable byte slice and
    one offset; a fresh one is empty, [SeekStart] puts the offset at 0 and
    [Len] is the number of bytes it holds. *)
Definition new_flexbuf : Stream :=
  {| s_kind := flexbuf_Buffer; s_data := []; s_off := 0%nat;
     s_read_err := None; s_seek_err := None |}.

Definition flexbuf_SeekStart (s : Stream) : Stream := with_off s 0.

Definition flexbuf_Len (s : Stream) : Z := Z.of_nat (length (s_data s)).

(** What is left to read of a stream, from its offset to its end. *)
Definition remaining (s : Stream) : list byte := drop (s_off s) (s_data s).

Record State : Type := {
  heap : list Stream;
  trace : list event }.

Definition init_state : State := {| heap := []; trace := [] |}.

(** ** The monad *)

Definition M (A : Type) : Type := State -> result A * State.

Definition ret {A} (a : A) : M A := fun st => (Ok a, st).

Definition bind {A B} (m : M A) (k : A -> M B) : M B :=
  fun st =>
    match m st with
    | (Ok a, st') => k a st'
    | (Err e, st') => (Err e, st')
    end.

Definition fail {A} (e : error) : M A := fun st => (Err e, st).

Notation "'let*' x ':=' m 'in' k" := (bind m (fun x => k))
  (at level 10, x name, m at level 100, k at level 200).
Notation "'let*' ' p ':=' m 'in' k" := (bind m (fun x => match x with p => k end))
  (at level 10, p pattern, m at level 100, k at level 200).
Notation "m ';;' k" := (bind m (fun _ => k))
  (at level 100, k at level 200, right associativity).

(** [if err != nil { return fmt.Errorf(format, args..., err) }] *)
Definition wrap {A} (format : string) (args : list fmt_arg) (m : M A) : M A :=
  fun st =>
    match m st with
    | (Err e, st') => (Err (fmt_Errorf format args (Some e)), st')
    | r => r
    end.

Definition lift {A} (r : result A) : M A := fun st => (r, st).

Definition lift_err (o : option error) : M unit :=
  fun st => match o with Some e => (Err e, st) | None => (Ok tt, st) end.

Definition emit (ev : event) : M unit :=
  fun st => (Ok tt, {| heap := heap st; trace := trace st ++ [ev] |}).

Definition history : M (list event) := fun st => (Ok (trace st), st).

Definition alloc (s : Stream) : M handle :=
  fun st => (Ok (length (heap st)),
             {| heap := heap st ++ [s]; trace := trace st |}).

(** A handle the program holds always points to a stream; the error arm is
    there to keep the function total. *)
Definition get_stream (h : handle) : M Stream :=
  fun st =>
    match heap st !! h with
    | Some s => (Ok s, st)
    | None => (Err (errors_New "invalid memory address or nil pointer dereference"), st)
    end.

Definition put_stream (h : handle) (s : Stream) : M unit :=
  fun st => (Ok tt, {| heap := <[h := s]> (heap st); trace := trace st |}).

(** ** Stream operations *)

(** [os.Open(path)] *)
Definition os_Open (w : World) (path : string) : M (handle * File) :=
  emit (EvOsOpen path) ;;
  let* f := lift (w_os_Open w path) in
  let* h := alloc (stream_of_file f) in
  ret (h, f).

(** Modelled from the spec: [hash.Reader] (package [parca/pkg/hash], not
    under src/) computes a content hash over the byte stream it is given: it
    reads the reader from its current offset to the end and answers the hash
    of those bytes, or the error of a failed read. *)
Definition hash_Reader (w : World) (r : handle) : M string :=
  let* s := get_stream r in
  emit (EvHashReader r (remaining s)) ;;
  put_stream r (with_off s (Nat.max (s_off s) (length (s_data s)))) ;;
  lift_err (s_read_err s) ;;
  ret (w_hash w (remaining s)).

(** [r.Seek(0, io.SeekStart)] *)
Definition Seek_start (r : handle) : M unit :=
  let* s := get_stream r in
  emit (EvSeekStart r) ;;
  lift_err (s_seek_err s) ;;
  put_stream r (with_off s 0).

(** Modelled from the spec: the streaming client and the HTTP client (not
    under src/) transmit the full content of the reader they are handed:
    they drain it, so what they send is what the reader has left. *)
Definition drain (r : handle) : M (list byte) :=
  let* s := get_stream r in
  put_stream r (with_off s (Nat.max (s_off s) (length (s_data s)))) ;;
  ret (remaining s).

(** ** The command line *)

Definition LogLevelDebug : string := "debug".

Record flags : Type := {
  LogLevel : string;
  Upload_NoExtract : bool;
  Upload_NoInitiate : bool;
  Upload_Force : bool;
  Upload_Type : string;
  Upload_BuildID : string;
  Upload_Paths : list string;
  Extract_OutputDir : string;
  Extract_Paths : list string;
  Extract_Mode : string;
  Buildid_Path : string;
  Source_DebuginfoPath : string;
  Source_OutPath : string }.

Record uploadInfo : Type := {
  buildID : string;
  path : string;
  reader : handle;
  size : Z }.

(** ** [extractAll] *)

Definition run_reducer (name : string) (fn : reducer) (src : string)
    (dst : handle) (f : File) : M (option error) :=
  let* s := get_stream dst in
  emit (EvExtractFn name src dst) ;;
  let '(data, off, err) := fn f (s_data s) (s_off s) in
  put_stream dst (with_data s data off) ;;
  ret err.

(** The body of [extractAll]'s loop over the entries [range] yields;
    [result] is the error joined so far. *)
Fixpoint extractAll_loop (w : World) (mode : string)
    (srcDsts : list (string * handle)) (result : option error)
    : M (option error) :=
  match srcDsts with
  | [] => ret result
  | (src, dst) :: rest =>
      emit (EvOsOpen src) ;;
      match w_os_Open w src with
      | Err err =>
          emit (EvStderr "failed to open file: %s, %v" [arg_s src] (Some err)) ;;
          extractAll_loop w mode rest (errors_Join [result; Some err])
      | Ok f =>
          let* err :=
            (if String.eqb mode "strip-debug"
             then run_reducer "StripDebug" (w_StripDebug w) src dst f
             else run_reducer "OnlyKeepDebug" (w_OnlyKeepDebug w) src dst f) in
          match err with
          | Some err =>
              emit (EvStderr "failed to extract debug information: %s, %v"
                      [arg_s src] (Some err)) ;;
              extractAll_loop w mode rest (errors_Join [result; Some err])
          | None => extractAll_loop w mode rest result
          end
      end
  end.

Definition extractAll (w : World) (mode : string)
    (srcDsts : list (string * handle)) : M (option error) :=
  extractAll_loop w mode srcDsts None.

(** ** [uploadViaSignedURL] *)

Definition http_StatusOK : Z := 200.

Definition uploadViaSignedURL (w : World) (url : string) (r : handle) : M unit :=
  wrap "create request: %w" [] (lift_err (w_http_NewRequest w url)) ;;
  let* tr := history in
  let* body := drain r in
  emit (EvHttpPut url r body) ;;
  let* StatusCode := wrap "do upload request: %w" [] (lift (w_http_Do w tr url body)) in
  if negb (StatusCode =? http_StatusOK)
  then fail (fmt_Errorf "unexpected status code: %d" [arg_d StatusCode] None)
  else ret tt.

(** [grpcUploadClient.Upload(ctx, instructions, r)] *)
Definition grpc_Upload (w : World) (instr : UploadInstructions) (r : handle)
    : M unit :=
  let* tr := history in
  let* body := drain r in
  emit (EvGrpcUpload instr r body) ;;
  lift_err (w_grpc_Upload w tr instr body).

(** ** The [upload] command *)

(** [buildid.FromELF] of a freshly opened ELF file. *)
Definition elf_buildID (w : World) (p : string) : M string :=
  let* ef := wrap "open ELF file: %w" [] (lift (w_elf_Open w p)) in
  wrap "get Build ID for %q: %w" [arg_s p] (lift (elf_buildid ef)).

(** First loop of the extracting branch: one scratch buffer per path,
    entered in [srcDst] under the path and in [uploads] as the reader. *)
Fixpoint upload_collect_bufs (w : World) (paths : list string)
    (srcDst : gmap string handle) (uploads : list uploadInfo)
    : M (gmap string handle * list uploadInfo) :=
  match paths with
  | [] => ret (srcDst, uploads)
  | p :: rest =>
      let* id := elf_buildID w p in
      let* buf := alloc new_flexbuf in
      upload_collect_bufs w rest (<[p := buf]> srcDst)
        (uploads ++ [{| buildID := id; path := p; reader := buf; size := 0 |}])
  end.

(** Second loop of the extracting branch: rewind every buffer and take its
    length as the size. *)
Fixpoint upload_measure_bufs (uploads : list uploadInfo) : M (list uploadInfo) :=
  match uploads with
  | [] => ret []
  | upload :: rest =>
      let* buf := get_stream (reader upload) in
      match s_kind buf with
      | os_File =>
          fail (fmt_Errorf "failed to cast reader to flexbuf.Buffer, something went terribly wrong as this should be the only type used" [] None)
      | flexbuf_Buffer =>
          put_stream (reader upload) (flexbuf_SeekStart buf) ;;
          let upload' := {| buildID := buildID upload; path := path upload;
                            reader := reader upload;
                            size := flexbuf_Len buf |} in
          if size upload' =? 0
          then fail (fmt_Errorf "extracted debug information from %q is empty, but must not be empty"
                       [arg_s (path upload')] None)
          else
            let* rest' := upload_measure_bufs rest in
            ret (upload' :: rest')
      end
  end.

(** The loop of the non-extracting branch. *)
Fixpoint upload_collect_files (w : World) (fl : flags) (paths : list string)
    (uploads : list uploadInfo) : M (list uploadInfo) :=
  match paths with
  | [] => ret uploads
  | p :: rest =>
      let* id :=
        (if String.eqb (Upload_Type fl) "debuginfo" && String.eqb (Upload_BuildID fl) ""
         then elf_buildID w p
         else ret (Upload_BuildID fl)) in
      let* '(f, file) := wrap "open file: %w" [] (os_Open w p) in
      let* fi_Size := wrap "stat file: %w" [] (lift (f_Stat file)) in
      if fi_Size =? 0
      then fail (fmt_Errorf "file %q is empty, but must not be empty" [arg_s p] None)
      else upload_collect_files w fl rest
             (uploads ++ [{| buildID := id; path := p; reader := f; size := fi_Size |}])
  end.

(** Everything before the protocol loop. *)
Definition upload_collect (w : World) (fl : flags) : M (list uploadInfo) :=
  if negb (Upload_NoExtract fl) && String.eqb (Upload_Type fl) "debuginfo"
  then
    let* '(srcDst, uploads) := upload_collect_bufs w (Upload_Paths fl) ∅ [] in
    if (base.size srcDst =? 0)%nat
    then fail (errors_New "failed to find actionable files")
    else
      let* err := extractAll w (Extract_Mode fl) (w_map_range w srcDst) in
      match err with
      | Some err => fail (fmt_Errorf "failed to extract debug information: %w" [] (Some err))
      | None => upload_measure_bufs uploads
      end
  else upload_collect_files w fl (Upload_Paths fl) [].

Definition call_ShouldInitiateUpload (w : World) (req : ShouldInitiateUploadRequest)
    : M ShouldInitiateUploadResponse :=
  let* tr := history in
  emit (EvShouldInitiateUpload req) ;;
  lift (w_ShouldInitiateUpload w tr req).

Definition call_InitiateUpload (w : World) (req : InitiateUploadRequest)
    : M UploadInstructions :=
  let* tr := history in
  emit (EvInitiateUpload req) ;;
  lift (w_InitiateUpload w tr req).

Definition call_MarkUploadFinished (w : World) (req : MarkUploadFinishedRequest)
    : M unit :=
  let* tr := history in
  emit (EvMarkUploadFinished req) ;;
  lift_err (w_MarkUploadFinished w tr req).

(** [if flags.LogLevel == LogLevelDebug { fmt.Fprintf(os.Stdout, ...) }] *)
Definition debugf (fl : flags) (format : string) (args : list fmt_arg) : M unit :=
  if String.eqb (LogLevel fl) LogLevelDebug then emit (EvStdout format args) else ret tt.

(** The [switch] on the strategy the store chose; its value is [err]. *)
Definition dispatch (w : World) (fl : flags) (upload : uploadInfo)
    (instr : UploadInstructions) : M unit :=
  match ui_UploadStrategy instr with
  | UPLOAD_STRATEGY_GRPC =>
      debugf fl "Performing a gRPC upload for %q with Build ID %q."
        [arg_s (path upload); arg_s (buildID upload)] ;;
      grpc_Upload w instr (reader upload)
  | UPLOAD_STRATEGY_SIGNED_URL =>
      debugf fl "Performing a signed URL upload for %q with Build ID %q."
        [arg_s (path upload); arg_s (buildID upload)] ;;
      uploadViaSignedURL w (ui_SignedUrl instr) (reader upload)
  | UPLOAD_STRATEGY_UNSPECIFIED =>
      fail (errors_New "no upload strategy specified")
  | UPLOAD_STRATEGY_unrecognized _ =>
      fail (fmt_Errorf "unknown upload strategy: %v"
              [arg_strategy (ui_UploadStrategy instr)] None)
  end.

(** One turn of [for _, upload := range uploads]. *)
Definition upload_one (w : World) (fl : flags) (upload : uploadInfo) : M unit :=
  let ids := [arg_s (path upload); arg_s (buildID upload)] in
  let* shouldInitiate :=
    wrap "check if upload should be initiated for %q with Build ID %q: %w" ids
      (call_ShouldInitiateUpload w
         {| sreq_BuildId := buildID upload;
            sreq_Force := Upload_Force fl;
            sreq_Type := debuginfoTypeStringToPb (Upload_Type fl) |}) in
  if negb (ShouldInitiateUpload shouldInitiate)
  then emit (EvStdout "Skipping upload of %q with Build ID %q as the store instructed not to: %s\n"
               (ids ++ [arg_s (Reason shouldInitiate)]))
  else if Upload_NoInitiate fl
  then emit (EvStdout "Not initiating upload of %q with Build ID %q as requested, but would have requested that next, because: %s\n"
               (ids ++ [arg_s (Reason shouldInitiate)]))
  else
    let* hash := wrap "calculate hash of %q with Build ID %q: %w" ids
                   (hash_Reader w (reader upload)) in
    wrap "seek to start of %q with Build ID %q: %w" ids (Seek_start (reader upload)) ;;
    let* instr :=
      wrap "initiate upload for %q with Build ID %q: %w" ids
        (call_InitiateUpload w
           {| ireq_BuildId := buildID upload;
              ireq_Hash := hash;
              ireq_Size := size upload;
              ireq_Force := Upload_Force fl;
              ireq_Type := debuginfoTypeStringToPb (Upload_Type fl) |}) in
    debugf fl "Upload instructions\nBuildID: %s\nUploadID: %s\nUploadStrategy: %s\nSignedURL: %s\nType: %s\n"
      [arg_s (ui_BuildId instr); arg_s (ui_UploadId instr);
       arg_strategy (ui_UploadStrategy instr); arg_s (ui_SignedUrl instr);
       arg_type (ui_Type instr)] ;;
    wrap "upload %q with Build ID %q: %w" ids (dispatch w fl upload instr) ;;
    wrap "mark upload finished for %q with Build ID %q: %w" ids
      (call_MarkUploadFinished w
         {| mreq_BuildId := buildID upload;
            mreq_UploadId := ui_UploadId instr;
            mreq_Type := debuginfoTypeStringToPb (Upload_Type fl) |}).

Fixpoint upload_loop (w : World) (fl : flags) (uploads : list uploadInfo) : M unit :=
  match uploads with
  | [] => ret tt
  | upload :: rest => upload_one w fl upload ;; upload_loop w fl rest
  end.

Definition run_upload (w : World) (fl : flags) : M unit :=
  wrap "create gRPC connection: %w" [] (lift_err (w_grpcConn w)) ;;
  let* uploads := upload_collect w fl in
  upload_loop w fl uploads.

(** ** The [extract] command *)

Definition new_os_File : Stream :=
  {| s_kind := os_File; s_data := []; s_off := 0%nat;
     s_read_err := None; s_seek_err := None |}.

(** [os.Create(name)] *)
Definition os_Create (w : World) (name : string) : M handle :=
  lift_err (w_os_Create w name) ;;
  alloc new_os_File.

Fixpoint extract_collect (w : World) (fl : flags) (paths : list string)
    (srcDst : gmap string handle) : M (gmap string handle) :=
  match paths with
  | [] => ret srcDst
  | p :: rest =>
      let* id := elf_buildID w p in
      let* _ := wrap "open file: %w" [] (os_Open w p) in
      let output := w_filepath_Join w (Extract_OutputDir fl) (id ++ ".debuginfo")%string in
      let* outFile := wrap "create output file: %w" [] (os_Create w output) in
      extract_collect w fl rest (<[p := outFile]> srcDst)
  end.

Definition run_extract (w : World) (fl : flags) : M unit :=
  wrap "failed to clean output dir, %s: %w" [arg_s (Extract_OutputDir fl)]
    (lift_err (w_os_RemoveAll w (Extract_OutputDir fl))) ;;
  wrap "failed to create output dir, %s: %w" [arg_s (Extract_OutputDir fl)]
    (lift_err (w_os_MkdirAll w (Extract_OutputDir fl))) ;;
  let* srcDst := extract_collect w fl (Extract_Paths fl) ∅ in
  if (base.size srcDst =? 0)%nat
  then fail (errors_New "failed to find actionable files")
  else
    let* err := extractAll w (Extract_Mode fl) (w_map_range w srcDst) in
    lift_err err.

(** ** The [buildid] command *)

Definition run_buildid (w : World) (fl : flags) : M unit :=
  let* id := elf_buildID w (Buildid_Path fl) in
  if String.eqb id ""
  then fail (errors_New "failed to extract ELF build ID")
  else emit (EvStdout "%s" [arg_s id]).

(** ** The [source] command *)

(** [for _, lineFile := range lr.Files()], with the [seen] set threaded
    through. *)
Fixpoint source_files (w : World) (files : list (option string))
    (seen : gset string) : M (gset string) :=
  match files with
  | [] => ret seen
  | None :: rest => source_files w rest seen
  | Some Name :: rest =>
      if decide (Name ∈ seen) then source_files w rest seen
      else
        emit (EvOsOpen Name) ;;
        match w_os_Open w Name with
        | Err err =>
            if errors_Is_ErrNotExist err
            then
              emit (EvStderr "skipping file %q: does not exist\n" [arg_s Name] None) ;;
              source_files w rest ({[Name]} ∪ seen)
            else fail (fmt_Errorf "open file: %w" [] (Some err))
        | Ok sourceFile =>
            let* stat_Size := wrap "stat file: %w" [] (lift (f_Stat sourceFile)) in
            let* tr := history in
            emit (EvTarWriteHeader Name stat_Size) ;;
            wrap "write tar header: %w" []
              (lift_err (w_tar_WriteHeader w tr Name stat_Size)) ;;
            let* tr := history in
            emit (EvTarCopy Name (f_data sourceFile)) ;;
            wrap "copy file to tar: %w" [] (lift_err (w_io_Copy w tr Name sourceFile)) ;;
            wrap "close file: %w" [] (lift_err (f_close_err sourceFile)) ;;
            source_files w rest ({[Name]} ∪ seen)
        end
  end.

(** The outer [for] over [r.Next()]. *)
Fixpoint source_entries (w : World) (entries : list Entry) (dw_end : option error)
    (seen : gset string) : M unit :=
  match entries with
  | [] =>
      match dw_end with
      | Some err => fail (fmt_Errorf "read DWARF entry: %w" [] (Some err))
      | None => ret tt
      end
  | e :: rest =>
      if e_Tag e =? TagCompileUnit
      then
        let* lr := wrap "get line reader: %w" [] (lift (e_LineReader e)) in
        match lr with
        | None => source_entries w rest dw_end seen
        | Some files =>
            let* seen' := source_files w files seen in
            source_entries w rest dw_end seen'
        end
      else source_entries w rest dw_end seen
  end.

Definition run_source (w : World) (fl : flags) : M unit :=
  let* f := wrap "open elf: %w" [] (lift (w_elf_Open w (Source_DebuginfoPath fl))) in
  let* _ := wrap "create source archive: %w" [] (os_Create w (Source_OutPath fl)) in
  wrap "create zstd writer: %w" [] (lift_err (w_zstd_NewWriter w)) ;;
  let* d := wrap "get dwarf data: %w" [] (lift (elf_DWARF f)) in
  source_entries w (dw_entries d) (dw_end d) ∅.

(** ** [run]: the command switch

    [run] hands the chosen command to a [run.Group] together with a signal
    handler and returns what the group returns.  The embedding runs the
    command to its end; an interrupt that ends the group first is not part
    of it. *)

Definition run (w : World) (command : string) (fl : flags) : M unit :=
  if String.eqb command "upload <path>" then run_upload w fl
  else if String.eqb command "extract <path>" then run_extract w fl
  else if String.eqb command "buildid <path>" then run_buildid w fl
  else if String.eqb command "source <debuginfo-path>" then run_source w fl
  else fail (errors_New ("unknown command: " ++ command)%string).

(** ** A small concrete world

    Five files: ["a"] and ["b"] are well-formed binaries; ["odd"] is a
    well-formed binary the reducer cannot handle; ["bad"] is malformed and
    ["empty"] has no bytes: [os.Open] opens both, [elf.Open] rejects both,
    and the reducer rejects ["bad"]; every other path does not exist.  The
    store refuses build ID ["id-b"] and accepts the rest. *)

Definition ex_file (data : list byte) : File :=
  {| f_data := data; f_Stat := Ok (Z.of_nat (length data));
     f_read_err := None; f_seek_err := None; f_close_err := None |}.

Definition ex_os_Open (p : string) : result File :=
  if String.eqb p "a" then Ok (ex_file [x61; x62; x63])
  else if String.eqb p "b" then Ok (ex_file [x64; x65])
  else if String.eqb p "odd" then Ok (ex_file [xfe; x01])
  else if String.eqb p "bad" then Ok (ex_file [xff])
  else if String.eqb p "empty" then Ok (ex_file [])
  else Err (PathError "open" p true).

Definition ex_reducer : reducer :=
  fun f data off =>
    match f_data f with
    | xff :: _ => (data, off, Some (foreign_error "bad ELF magic"))
    | xfe :: _ => (data, off, Some (foreign_error "unsupported section"))
    | src => (src, length src, None)
    end.

(** One compilation unit naming ["a"], a missing file and ["b"], a second
    one naming ["a"] and the missing file again, and an entry of another
    tag. *)
Definition ex_dwarf : DwarfData :=
  {| dw_entries :=
       [ {| e_Tag := TagCompileUnit;
            e_LineReader := Ok (Some [Some "a"; None; Some "gone.c"; Some "b"]) |};
         {| e_Tag := 46; e_LineReader := Ok None |};
         {| e_Tag := TagCompileUnit;
            e_LineReader := Ok (Some [Some "gone.c"; Some "a"]) |} ];
     dw_end := None |}.

(** [elf.Open] reads the ELF header of the file it opened. *)
Definition ex_elf_Open (p : string) : result ElfFile :=
  match ex_os_Open p with
  | Err e => Err e
  | Ok f =>
      match f_data f with
      | [] => Err (foreign_error "EOF")
      | xff :: _ => Err (foreign_error "bad magic number")
      | _ => Ok {| elf_buildid := Ok ("id-" ++ p)%string; elf_DWARF := Ok ex_dwarf |}
      end
  end.

Definition ex_world (strategy : UploadStrategy) (status : Z) : World :=
  {| w_grpcConn := None;
     w_elf_Open := ex_elf_Open;
     w_os_Open := ex_os_Open;
     w_os_RemoveAll := fun _ => None;
     w_os_MkdirAll := fun _ => None;
     w_os_Create := fun _ => None;
     w_filepath_Join := fun dir name => (dir ++ "/" ++ name)%string;
     w_hash := string_of_list_byte;
     w_StripDebug := ex_reducer;
     w_OnlyKeepDebug := ex_reducer;
     w_map_range := map_to_list;
     w_ShouldInitiateUpload := fun _ req =>
       Ok {| ShouldInitiateUpload := negb (String.eqb (sreq_BuildId req) "id-b");
             Reason := "checked" |};
     w_InitiateUpload := fun _ req =>
       Ok {| ui_BuildId := ireq_BuildId req; ui_UploadId := "upload-1";
             ui_UploadStrategy := strategy; ui_SignedUrl := "https://store/put";
             ui_Type := ireq_Type req |};
     w_grpc_Upload := fun _ _ _ => None;
     w_http_NewRequest := fun _ => None;
     w_http_Do := fun _ _ _ => Ok status;
     w_MarkUploadFinished := fun _ _ => None;
     w_zstd_NewWriter := None;
     w_tar_WriteHeader := fun _ _ _ => None;
     w_io_Copy := fun _ _ _ => None |}.

Definition ex_flags (no_extract : bool) (paths : list string) : flags :=
  {| LogLevel := "info";
     Upload_NoExtract := no_extract;
     Upload_NoInitiate := false;
     Upload_Force := false;
     Upload_Type := "debuginfo";
     Upload_BuildID := "";
     Upload_Paths := paths;
     Extract_OutputDir := "out";
     Extract_Paths := paths;
     Extract_Mode := "keep-only-debug";
     Buildid_Path := "a";
     Source_DebuginfoPath := "a";
     Source_OutPath := "source.tar.zstd" |}.

(** As [ex_flags] without extraction, with the Build ID given on the
    command line. *)
Definition ex_flags_build_id (paths : list string) : flags :=
  {| LogLevel := "info";
     Upload_NoExtract := true;
     Upload_NoInitiate := false;
     Upload_Force := false;
     Upload_Type := "debuginfo";
     Upload_BuildID := "given";
     Upload_Paths := paths;
     Extract_OutputDir := "out";
     Extract_Paths := paths;
     Extract_Mode := "keep-only-debug";
     Buildid_Path := "a";
     Source_DebuginfoPath := "a";
     Source_OutPath := "source.tar.zstd" |}.

(** ** What an error names *)

(** The operands the message of an error is formatted from, through the
    chain of the errors it wraps: what the message names. *)
Fixpoint error_args (e : error) : list fmt_arg :=
  match e with
  | fmt_Errorf _ args wrapped =>
      args ++ match wrapped with Some w => error_args w | None => [] end
  | joinError es =>
      (fix go (l : list error) : list fmt_arg :=
         match l with
         | [] => []
         | x :: l' => error_args x ++ go l'
         end) es
  | PathError _ path _ => [arg_s path]
  | _ => []
  end.

(** ** Classifying the calls *)


(** Sending the bytes of an artifact, by either transport. *)
Definition is_transmit (ev : event) : bool :=
  match ev with EvGrpcUpload _ _ _ | EvHttpPut _ _ _ => true | _ => false end.

Definition is_initiate (ev : event) : bool :=
  match ev with EvInitiateUpload _ => true | _ => false end.

Definition is_finish (ev : event) : bool :=
  match ev with EvMarkUploadFinished _ => true | _ => false end.

(** A step of the upload protocol: a call to the store, hashing, rewinding
    or sending. *)
Definition is_protocol (ev : event) : bool :=
  match ev with
  | EvShouldInitiateUpload _ | EvHashReader _ _ | EvSeekStart _
  | EvInitiateUpload _ | EvGrpcUpload _ _ _ | EvHttpPut _ _ _
  | EvMarkUploadFinished _ => true
  | _ => false
  end.

(** The [Type] field of a request to the store. *)
Definition request_type (ev : event) : option DebuginfoType :=
  match ev with
  | EvShouldInitiateUpload req => Some (sreq_Type req)
  | EvInitiateUpload req => Some (ireq_Type req)
  | EvMarkUploadFinished req => Some (mreq_Type req)
  | _ => None
  end.

(** A computation only ever appends to the trace; [emits P m] says that
    every call [m] adds satisfies [P]. *)
Definition emits {A} (P : event -> Prop) (m : M A) : Prop :=
  forall st, exists new, trace (snd (m st)) = trace st ++ new /\ Forall P new.

(** Calls that are no step of the upload protocol. *)
Definition local (ev : event) : Prop := is_protocol ev = false.




Definition ex_upload_a : uploadInfo :=
  {| buildID := "id-a"; path := "a"; reader := 0%nat; size := 3 |}.

Definition ex_upload_b : uploadInfo :=
  {| buildID := "id-b"; path := "b"; reader := 1%nat; size := 2 |}.

(** The state after both example files were opened. *)
Definition ex_state : State :=
  {| heap := [stream_of_file (ex_file [x61; x62; x63]);
              stream_of_file (ex_file [x64; x65])];
     trace := [EvOsOpen "a"; EvOsOpen "b"] |}.

Definition ex_flags_dry_run (paths : list string) : flags :=
  {| LogLevel := "debug";
     Upload_NoExtract := true;
     Upload_NoInitiate := true;
     Upload_Force := false;
     Upload_Type := "debuginfo";
     Upload_BuildID := "";
     Upload_Paths := paths;
     Extract_OutputDir := "out";
     Extract_Paths := paths;
     Extract_Mode := "keep-only-debug";
     Buildid_Path := "a";
     Source_DebuginfoPath := "a";
     Source_OutPath := "source.tar.zstd" |}.

(** A request, if [ev] is one, carries the type the [--type] flag maps to. *)
Definition typed_by (fl : flags) (ev : event) : Prop :=
  forall t, request_type ev = Some t -> t = debuginfoTypeStringToPb (Upload_Type fl).

(** What a transmission sent: the reader it drained and the bytes. *)
Definition sent (ev : event) : option (handle * list byte) :=
  match ev with
  | EvGrpcUpload _ r body | EvHttpPut _ r body => Some (r, body)
  | _ => None
  end.

(** Every transmission in [tr] comes right after a hash of a reader, its
    rewind and the [InitiateUpload] that carries that hash, with nothing but
    messages in between; the bytes sent are the bytes that were hashed, and
    they are all the bytes of that reader's stream in [hp]. *)
Definition hash_integrity (w : World) (hp : list Stream) (tr : list event) : Prop :=
  forall pre ev post,
    tr = pre ++ ev :: post -> is_transmit ev = true ->
    exists pre' h data req mid s,
      pre = pre' ++ EvHashReader h data :: EvSeekStart h :: EvInitiateUpload req :: mid /\
      Forall local mid /\
      sent ev = Some (h, data) /\
      ireq_Hash req = w_hash w data /\
      hp !! h = Some s /\ s_data s = data.

(** The streams of [hp] are still there in [hp'], with the same bytes. *)
Definition same_data (hp hp' : list Stream) : Prop :=
  forall h s, hp !! h = Some s -> exists s', hp' !! h = Some s' /\ s_data s' = s_data s.

(** The collect-step precondition of the protocol loop: every artifact has
    a reader of its own, and every reader stands at offset 0. *)
Definition ready (st : State) (uploads : list uploadInfo) : Prop :=
  NoDup (map reader uploads) /\
  forall u, u ∈ uploads -> exists s, heap st !! reader u = Some s /\ s_off s = 0%nat.

(** The reducer [extractAll] picks for a mode. *)
Definition extractFn (w : World) (mode : string) : reducer :=
  if String.eqb mode "strip-debug" then w_StripDebug w else w_OnlyKeepDebug w.

(** What happens to one pair when its destination is as in [hp]: the error
    the pair fails with, if it fails (its source cannot be opened, or the
    reducer answers an error)... *)
Definition pair_error (w : World) (mode : string) (hp : list Stream)
    (p : string * handle) : option error :=
  match w_os_Open w (fst p) with
  | Err e => Some e
  | Ok f =>
      match hp !! snd p with
      | Some s => snd (extractFn w mode f (s_data s) (s_off s))
      | None => None
      end
  end.

Definition pair_fails (w : World) (mode : string) (hp : list Stream)
    (p : string * handle) : bool :=
  match pair_error w mode hp p with Some _ => true | None => false end.

(** ... and what its destination holds afterwards: what the reducer left
    there, or what was there before when the source could not be opened. *)
Definition pair_output (w : World) (mode : string) (hp : list Stream)
    (p : string * handle) : option Stream :=
  match hp !! snd p with
  | Some s =>
      match w_os_Open w (fst p) with
      | Err _ => Some s
      | Ok f =>
          let '(data, off, _) := extractFn w mode f (s_data s) (s_off s) in
          Some (with_data s data off)
      end
  | None => None
  end.

(** [result = errors.Join(result, err)] for each error in turn. *)
Definition join_errors (result : option error) (errs : list error) : option error :=
  fold_left (fun r e => errors_Join [r; Some e]) errs result.

(** The path of an [os.Open] call. *)
Definition opened (ev : event) : option string :=
  match ev with EvOsOpen p => Some p | _ => None end.

(** The first operand of a message on stderr: the path it is about. *)
Definition stderr_path (ev : event) : option string :=
  match ev with EvStderr _ (arg_s p :: _) _ => Some p | _ => None end.

(** The file a call of the source-archive builder is about: the path it
    opens, warns about, or writes to the archive. *)
Definition header_name (ev : event) : option string :=
  match ev with EvTarWriteHeader name _ => Some name | _ => None end.

Definition copy_name (ev : event) : option string :=
  match ev with EvTarCopy name _ => Some name | _ => None end.

Definition warned (ev : event) : option string :=
  match ev with
  | EvStderr format [arg_s name] None =>
      if String.eqb format "skipping file %q: does not exist\n" then Some name else None
  | _ => None
  end.

Definition event_path (ev : event) : option string :=
  match ev with
  | EvOsOpen p => Some p
  | EvTarWriteHeader name _ => Some name
  | EvTarCopy name _ => Some name
  | EvStderr _ (arg_s name :: _) _ => Some name
  | _ => None
  end.

(** The path is missing from the filesystem: [os.Open] fails with an error
    that is [os.ErrNotExist]. *)
Definition missing (w : World) (name : string) : bool :=
  match w_os_Open w name with
  | Err e => errors_Is_ErrNotExist e
  | Ok _ => false
  end.

(** The path can be opened, stat-ed, archived and closed without error. *)
Definition readable (w : World) (name : string) : Prop :=
  exists f n,
    w_os_Open w name = Ok f /\ f_Stat f = Ok n /\ f_close_err f = None /\
    forall tr, w_tar_WriteHeader w tr name n = None /\ w_io_Copy w tr name f = None.

(** The source files a compilation-unit entry names, and those the whole
    walk names. *)
Definition entry_files (e : Entry) : list string :=
  if e_Tag e =? TagCompileUnit
  then match e_LineReader e with
       | Ok (Some files) => omap id files
       | _ => []
       end
  else [].

Definition referenced (entries : list Entry) : list string :=
  concat (map entry_files entries).

(** Each path is opened, written as a header, copied and warned about at
    most once, and what is written to the archive is not missing. *)
Definition once (w : World) (new : list event) : Prop :=
  NoDup (omap opened new) /\
  NoDup (omap header_name new) /\
  NoDup (omap copy_name new) /\
  NoDup (omap warned new) /\
  forall name, name ∈ omap header_name new \/ name ∈ omap copy_name new ->
               missing w name = false.

(** The invariant of the walk: besides [once], every path a call was about
    is in [seen], every path in [seen] was opened, and every missing path in
    [seen] was warned about. *)
Definition seen_inv (w : World) (seen : gset string) (new : list event) : Prop :=
  once w new /\
  (forall name, name ∈ omap event_path new -> name ∈ seen) /\
  (forall name, name ∈ seen -> name ∈ omap opened new) /\
  (forall name, name ∈ seen -> missing w name = true -> name ∈ omap warned new).

(** The calls made for one file repeat nothing. *)
Definition once_local (evs : list event) : Prop :=
  NoDup (omap opened evs) /\ NoDup (omap header_name evs) /\
  NoDup (omap copy_name evs) /\ NoDup (omap warned evs).

(** ** [grpcConn] and the bearer-token credential *)

(** [insecure.NewCredentials()] or [credentials.NewTLS(config)] with the
    config's [InsecureSkipVerify]. *)
Inductive TransportCredentials : Type :=
  | insecure_NewCredentials
  | credentials_NewTLS (InsecureSkipVerify : bool).

Record perRequestBearerToken : Type := {
  token : string;
  insecure : bool }.

(** [GetRequestMetadata] *)
Definition GetRequestMetadata (t : perRequestBearerToken) : gmap string string :=
  {[ "authorization" := ("Bearer " ++ token t)%string ]}.

(** [RequireTransportSecurity] *)
Definition RequireTransportSecurity (t : perRequestBearerToken) : bool :=
  negb (insecure t).

Inductive DialOption : Type :=
  | WithUnaryInterceptor
  | WithTransportCredentials (c : TransportCredentials)
  | WithPerRPCCredentials (t : perRequestBearerToken).

(** The flags of the upload command that [grpcConn] reads. *)
Record conn_flags : Type := {
  Upload_StoreAddress : string;
  Upload_BearerToken : string;
  Upload_BearerTokenFile : string;
  Upload_Insecure : bool;
  Upload_InsecureSkipVerify : bool }.

(** The dial options [grpcConn] builds; [os_ReadFile] is the filesystem. *)
Definition grpcConn_opts (os_ReadFile : string -> result string) (cf : conn_flags)
    : result (list DialOption) :=
  let opts := [WithUnaryInterceptor] in
  let opts :=
    if Upload_Insecure cf
    then opts ++ [WithTransportCredentials insecure_NewCredentials]
    else opts ++ [WithTransportCredentials
                    (credentials_NewTLS (Upload_InsecureSkipVerify cf))] in
  let opts :=
    if negb (String.eqb (Upload_BearerToken cf) "")
    then opts ++ [WithPerRPCCredentials
                    {| token := Upload_BearerToken cf; insecure := Upload_Insecure cf |}]
    else opts in
  if negb (String.eqb (Upload_BearerTokenFile cf) "")
  then
    match os_ReadFile (Upload_BearerTokenFile cf) with
    | Err err =>
        Err (fmt_Errorf "failed to read bearer token from file: %w" [] (Some err))
    | Ok b =>
        Ok (opts ++ [WithPerRPCCredentials
                       {| token := b; insecure := Upload_Insecure cf |}])
    end
  else Ok opts.

(** [grpcConn]: the options, then [grpc.Dial]. *)
Definition grpcConn {Conn : Type} (os_ReadFile : string -> result string)
    (grpc_Dial : string -> list DialOption -> result Conn) (cf : conn_flags)
    : result Conn :=
  match grpcConn_opts os_ReadFile cf with
  | Err err => Err err
  | Ok opts => grpc_Dial (Upload_StoreAddress cf) opts
  end.

(** The transport credentials among dial options, and the per-RPC ones. *)
Definition transport_of (o : DialOption) : option TransportCredentials :=
  match o with WithTransportCredentials c => Some c | _ => None end.

Definition per_rpc_of (o : DialOption) : option perRequestBearerToken :=
  match o with WithPerRPCCredentials t => Some t | _ => None end.

Definition is_TLS (c : TransportCredentials) : bool :=
  match c with credentials_NewTLS _ => true | insecure_NewCredentials => false end.

(** ** More ways to look at a trace *)

(** A call of a reducer. *)
Definition is_extract (ev : event) : bool :=
  match ev with EvExtractFn _ _ _ => true | _ => false end.

(** The format of a message on stdout. *)
Definition stdout_format (ev : event) : option string :=
  match ev with EvStdout format _ => Some format | _ => None end.

(** Every transmission in [tr] comes right after the hash and the rewind of
    its reader and an [InitiateUpload] whose [Size] is the number of bytes
    sent. *)
Definition size_integrity (tr : list event) : Prop :=
  forall pre ev post,
    tr = pre ++ ev :: post -> is_transmit ev = true ->
    exists pre' h data req mid,
      pre = pre' ++ EvHashReader h data :: EvSeekStart h :: EvInitiateUpload req :: mid /\
      Forall local mid /\
      sent ev = Some (h, data) /\
      ireq_Size req = Z.of_nat (length data).

(** Every artifact's [size] is the number of bytes of its reader's stream. *)
Definition sized (st : State) (uploads : list uploadInfo) : Prop :=
  forall u, u ∈ uploads ->
    exists s, heap st !! reader u = Some s /\ size u = Z.of_nat (length (s_data s)).

(** The errors an error was joined from: [errors.Join] nests, a leaf is any
    error that is not a join. *)
Fixpoint leaves (e : error) : list error :=
  match e with
  | joinError es =>
      (fix go (l : list error) : list error :=
         match l with
         | [] => []
         | x :: l' => leaves x ++ go l'
         end) es
  | _ => [e]
  end.

Definition leaves_of (r : option error) : list error :=
  match r with Some e => leaves e | None => [] end.

(** The paths of a walk in the order they are first met, those in [seen]
    left out. *)
Fixpoint discover (seen : gset string) (names : list string) : list string :=
  match names with
  | [] => []
  | name :: rest =>
      if decide (name ∈ seen) then discover seen rest
      else name :: discover ({[name]} ∪ seen) rest
  end.

(** The transport that made the call [ev], asked after the history [tr],
    reported success. *)
Definition transport_ok (w : World) (tr : list event) (ev : event) : Prop :=
  match ev with
  | EvGrpcUpload instr _ body => w_grpc_Upload w tr instr body = None
  | EvHttpPut url _ body => w_http_Do w tr url body = Ok http_StatusOK
  | _ => False
  end.

(** The artifact's Build ID is the one [buildid.FromELF] reads from its
    file. *)
Definition from_elf (w : World) (u : uploadInfo) : Prop :=
  exists ef, w_elf_Open w (path u) = Ok ef /\ elf_buildid ef = Ok (buildID u).

(** A message on stdout, if [ev] is one, is the report of a skip or of a
    dry-run stop. *)
Definition report_only (ev : event) : Prop :=
  forall format, stdout_format ev = Some format ->
    format = "Skipping upload of %q with Build ID %q as the store instructed not to: %s\n" \/
    format = "Not initiating upload of %q with Build ID %q as requested, but would have requested that next, because: %s\n".

(** ** A path given twice *)

(** What the first loop of the extracting branch keeps true of [srcDst]:
    every buffer in it is the reader of an artifact and still empty, and no
    two paths share a buffer. *)
Definition tracked (srcDst : gmap string handle) (uploads : list uploadInfo)
    (st : State) : Prop :=
  (forall p h, srcDst !! p = Some h ->
     exists u s, u ∈ uploads /\ reader u = h /\ heap st !! h = Some s /\ s_data s = []) /\
  (forall p1 p2 h, srcDst !! p1 = Some h -> srcDst !! p2 = Some h -> p1 = p2).

(** An artifact whose buffer is empty and is no longer in [srcDst]: no
    reducer will write to it. *)
Definition orphan (srcDst : gmap string handle) (st : State) (u : uploadInfo) : Prop :=
  (forall p, srcDst !! p <> Some (reader u)) /\
  exists s, heap st !! reader u = Some s /\ s_data s = [].

(** ** Requests and artifacts *)

(** A request to the store is about one of the artifacts: it carries that
    artifact's Build ID, the [--force] flag where the request has the field,
    and in [InitiateUpload] the artifact's size. *)
Definition request_for (fl : flags) (uploads : list uploadInfo) (ev : event) : Prop :=
  match ev with
  | EvShouldInitiateUpload req =>
      sreq_Force req = Upload_Force fl /\
      exists u, u ∈ uploads /\ sreq_BuildId req = buildID u
  | EvInitiateUpload req =>
      ireq_Force req = Upload_Force fl /\
      exists u, u ∈ uploads /\ ireq_BuildId req = buildID u /\ ireq_Size req = size u
  | EvMarkUploadFinished req =>
      exists u, u ∈ uploads /\ mreq_BuildId req = buildID u
  | _ => True
  end.


(** ** Which reducer runs on what *)

(** A reducer call made for the pairs [srcDsts] in mode [mode]: it is for
    one of the pairs, its source could be opened, and it is [StripDebug]
    exactly in the mode ["strip-debug"]. *)
Definition reduced_by (w : World) (mode : string) (srcDsts : list (string * handle))
    (ev : event) : Prop :=
  match ev with
  | EvExtractFn mode_fn src dst =>
      (src, dst) ∈ srcDsts /\
      (exists f, w_os_Open w src = Ok f) /\
      mode_fn = if String.eqb mode "strip-debug" then "StripDebug" else "OnlyKeepDebug"
  | _ => True
  end.

(** ** What is uploaded *)

(** What the upload command is to send for the file at path [p]: the
    output of the reducer on that file, written to an empty buffer, when
    debug information is extracted, and the file's own content otherwise. *)
Definition payload (w : World) (fl : flags) (p : string) : option (list byte) :=
  match w_os_Open w p with
  | Err _ => None
  | Ok f =>
      if negb (Upload_NoExtract fl) && String.eqb (Upload_Type fl) "debuginfo"
      then Some (fst (fst (extractFn w (Extract_Mode fl) f [] 0%nat)))
      else Some (f_data f)
  end.

(** Every artifact's reader holds the payload of the artifact's path. *)
Definition carries (w : World) (fl : flags) (st : State) (uploads : list uploadInfo)
    : Prop :=
  forall u, u ∈ uploads ->
    exists s, heap st !! reader u = Some s /\ payload w fl (path u) = Some (s_data s).

(** Every artifact is an orphan or still has its buffer in [srcDst] under
    its path. *)
Definition linked (srcDst : gmap string handle) (st : State)
    (uploads : list uploadInfo) : Prop :=
  forall u, u ∈ uploads -> orphan srcDst st u \/ srcDst !! path u = Some (reader u).

(** ** Another [elf.Open] *)

(** The world [w] with [elf.Open] answering as [elf_Open]: everything else
    as in [w]. *)
Definition with_elf_Open (w : World) (elf_Open : string -> result ElfFile) : World :=
  {| w_grpcConn := w_grpcConn w;
     w_elf_Open := elf_Open;
     w_os_Open := w_os_Open w;
     w_os_RemoveAll := w_os_RemoveAll w;
     w_os_MkdirAll := w_os_MkdirAll w;
     w_os_Create := w_os_Create w;
     w_filepath_Join := w_filepath_Join w;
     w_hash := w_hash w;
     w_StripDebug := w_StripDebug w;
     w_OnlyKeepDebug := w_OnlyKeepDebug w;
     w_map_range := w_map_range w;
     w_ShouldInitiateUpload := w_ShouldInitiateUpload w;
     w_InitiateUpload := w_InitiateUpload w;
     w_grpc_Upload := w_grpc_Upload w;
     w_http_NewRequest := w_http_NewRequest w;
     w_http_Do := w_http_Do w;
     w_MarkUploadFinished := w_MarkUploadFinished w;
     w_zstd_NewWriter := w_zstd_NewWriter w;
     w_tar_WriteHeader := w_tar_WriteHeader w;
     w_io_Copy := w_io_Copy w |}.

(** ** The calls to the tar writer *)

(** The calls to the tar writer in [new], made after the history [tr0]: a
    header is written right after its file was opened, with the size
    [Stat] gave; a body is copied right after the header of its file, which
    the writer accepted.  With [strict] every call was accepted; without,
    a call the writer refused is the last call of all. *)
Definition writer_protocol (strict : bool) (w : World) (tr0 new : list event) : Prop :=
  forall pre ev post,
    new = pre ++ ev :: post ->
    match ev with
    | EvTarWriteHeader name n =>
        exists pre1 f,
          pre = pre1 ++ [EvOsOpen name] /\
          w_os_Open w name = Ok f /\ f_Stat f = Ok n /\
          (if strict then w_tar_WriteHeader w (tr0 ++ pre) name n = None
           else w_tar_WriteHeader w (tr0 ++ pre) name n <> None -> post = [])
    | EvTarCopy name body =>
        exists pre1 n f,
          pre = pre1 ++ [EvOsOpen name; EvTarWriteHeader name n] /\
          w_os_Open w name = Ok f /\ body = f_data f /\
          w_tar_WriteHeader w (tr0 ++ pre1 ++ [EvOsOpen name]) name n = None /\
          (if strict then w_io_Copy w (tr0 ++ pre) name f = None
           else w_io_Copy w (tr0 ++ pre) name f <> None -> post = [])
    | _ => True
    end.

(** * Properties *)

(** ** Tactics *)

(** Unfolds the monad down to matches on what the collaborators answer. *)
Ltac munfold :=
  unfold upload_one, dispatch, grpc_Upload, uploadViaSignedURL,
    call_ShouldInitiateUpload, call_InitiateUpload, call_MarkUploadFinished,
    hash_Reader, Seek_start, drain, debugf, wrap, bind, ret, fail, lift,
    lift_err, emit, history, get_stream, put_stream in *;
  simpl in *.

(** Case analysis on an innermost scrutinee of the goal. *)
Ltac mcase :=
  match goal with
  | |- context [match ?x with _ => _ end] =>
      lazymatch x with
      | context [match _ with _ => _ end] => fail
      | _ => destruct x eqn:?; simpl in *
      end
  end.

(** Case analysis on an innermost scrutinee, leaving the goal as it is. *)
Ltac bcase :=
  match goal with
  | |- context [match ?x with _ => _ end] =>
      lazymatch x with
      | context [match _ with _ => _ end] => fail
      | _ => destruct x eqn:?
      end
  end.

(** Splits [l = pre ++ x :: post] for a list [l] written out: every
    position of [x] in [l]. *)
Ltac split_at H pre :=
  repeat (destruct pre as [|? pre]; simpl in H;
          [ first [ discriminate H | injection H as H; subst ] | injection H as ? H; subst ]);
  try (destruct pre; discriminate H).

Ltac no_exists H :=
  repeat (apply Exists_cons in H; destruct H as [H|H]; [discriminate H|]);
  apply Exists_nil in H; destruct H.

(** Splits [l = pre ++ ev :: post] for a list [l] written out and an
    unknown [ev]: every position in [l]. *)
Ltac split_ev H pre :=
  repeat (destruct pre as [|? pre]; simpl in H;
          [ first [ discriminate H | injection H as ??; simplify_eq ]
          | injection H as ? H; simplify_eq ]);
  try (destruct pre; discriminate H).

(** Reading back a stream that was just stored. *)
Ltac heap_simpl :=
  repeat match goal with
    | |- context [<[?r := ?s]> ?l !! ?r] =>
        rewrite (list_lookup_insert_eq l r s)
          by (rewrite ?length_insert; eapply lookup_lt_Some; eassumption)
    end.

(** ** The concrete world, run

    Two binaries, no force: the store accepts the first and refuses the
    second.  The run ends without error after one [InitiateUpload], one
    transmission and one [MarkUploadFinished], and one message about the
    skipped file. *)
Example run_two_binaries :
  let r := run (ex_world UPLOAD_STRATEGY_GRPC 200) "upload <path>"
             (ex_flags false ["a"; "b"]) init_state in
  fst r = Ok tt /\
  length (List.filter is_initiate (trace (snd r))) = 1%nat /\
  length (List.filter is_transmit (trace (snd r))) = 1%nat /\
  length (List.filter is_finish (trace (snd r))) = 1%nat /\
  last (trace (snd r)) =
    Some (EvStdout "Skipping upload of %q with Build ID %q as the store instructed not to: %s\n"
            [arg_s "b"; arg_s "id-b"; arg_s "checked"]).
Proof. vm_compute. repeat split. Qed.

(** A store that names no strategy: the run stops at the first artifact. *)
Example run_unspecified_strategy :
  fst (run (ex_world UPLOAD_STRATEGY_UNSPECIFIED 200) "upload <path>"
         (ex_flags true ["a"; "b"]) init_state) =
    Err (fmt_Errorf "upload %q with Build ID %q: %w" [arg_s "a"; arg_s "id-a"]
           (Some (errors_New "no upload strategy specified"))).
Proof. reflexivity. Qed.

(** Extraction of three files of which the second is one the reducer
    cannot handle: the other two are extracted, the error is the join of
    the one failure. *)
Example run_extract_one_odd :
  let r := run (ex_world UPLOAD_STRATEGY_GRPC 200) "extract <path>"
             (ex_flags false ["a"; "odd"; "b"]) init_state in
  fst r = Err (joinError [foreign_error "unsupported section"]) /\
  omap stderr_path (trace (snd r)) = ["odd"].
Proof. vm_compute. repeat split. Qed.

(** Extraction of three files of which the second is malformed: [elf.Open]
    rejects it while the paths are collected, and no reducer runs. *)
Example run_extract_one_bad :
  let r := run (ex_world UPLOAD_STRATEGY_GRPC 200) "extract <path>"
             (ex_flags false ["a"; "bad"; "b"]) init_state in
  fst r = Err (fmt_Errorf "open ELF file: %w" [] (Some (foreign_error "bad magic number"))) /\
  List.filter is_extract (trace (snd r)) = [].
Proof. vm_compute. repeat split. Qed.

(** The source command on the example binary: ["a"] and ["b"] are handed
    to the tar writer once each, ["gone.c"] is warned about once. *)
Example run_source_archive :
  let r := run (ex_world UPLOAD_STRATEGY_GRPC 200) "source <debuginfo-path>"
             (ex_flags false []) init_state in
  fst r = Ok tt /\
  omap header_name (trace (snd r)) = ["a"; "b"] /\
  omap warned (trace (snd r)) = ["gone.c"].
Proof. vm_compute. repeat split. Qed.

Example run_unknown_command :
  fst (run (ex_world UPLOAD_STRATEGY_GRPC 200) "frobnicate" (ex_flags false []) init_state) =
    Err (errors_New "unknown command: frobnicate").
Proof. reflexivity. Qed.

(** ** Reasoning about traces *)

Section Emits.
Context (P : event -> Prop).

Lemma emits_silent {A} (m : M A) :
  (forall st, trace (snd (m st)) = trace st) -> emits P m.
Proof. intros H st. exists []. rewrite H, app_nil_r. auto. Qed.

Lemma emits_ret {A} (a : A) : emits P (ret a).
Proof. now apply emits_silent. Qed.

Lemma emits_fail {A} (e : error) : emits P (@fail A e).
Proof. now apply emits_silent. Qed.

Lemma emits_lift {A} (r : result A) : emits P (lift r).
Proof. now apply emits_silent. Qed.

Lemma emits_lift_err (o : option error) : emits P (lift_err o).
Proof. apply emits_silent. intros st. now destruct o. Qed.

Lemma emits_history : emits P history.
Proof. now apply emits_silent. Qed.

Lemma emits_alloc (s : Stream) : emits P (alloc s).
Proof. now apply emits_silent. Qed.

Lemma emits_get_stream (h : handle) : emits P (get_stream h).
Proof. apply emits_silent. intros st. unfold get_stream. now destruct (heap st !! h). Qed.

Lemma emits_put_stream (h : handle) (s : Stream) : emits P (put_stream h s).
Proof. now apply emits_silent. Qed.

Lemma emits_emit (ev : event) : P ev -> emits P (emit ev).
Proof. intros H st. exists [ev]. simpl. auto. Qed.

Lemma emits_bind {A B} (m : M A) (k : A -> M B) :
  emits P m -> (forall a, emits P (k a)) -> emits P (bind m k).
Proof.
  intros Hm Hk st. unfold bind.
  destruct (Hm st) as (n1 & E1 & F1).
  destruct (m st) as [[a|e] st1]; simpl in *.
  - destruct (Hk a st1) as (n2 & E2 & F2).
    exists (n1 ++ n2). rewrite E2, E1, app_assoc. split; [done|]. now apply Forall_app.
  - now exists n1.
Qed.

Lemma emits_wrap {A} format args (m : M A) : emits P m -> emits P (wrap format args m).
Proof.
  intros Hm st. unfold wrap. destruct (Hm st) as (n1 & E1 & F1).
  exists n1. now destruct (m st) as [[a|e] st1].
Qed.
End Emits.

(** One syntax-directed step of an [emits] proof. *)
Ltac emits_step :=
  first
    [ apply emits_ret | apply emits_fail | apply emits_lift | apply emits_lift_err
    | apply emits_history | apply emits_alloc | apply emits_get_stream
    | apply emits_put_stream | apply emits_wrap
    | apply emits_bind; [| intros ?]
    | apply emits_emit; try done ].

Ltac emits_case :=
  match goal with
  | |- emits _ (match ?x with _ => _ end) => destruct x eqn:?
  | |- emits _ (let '(_, _) := ?x in _) => destruct x eqn:?
  end.

Ltac emits_auto := repeat first [ emits_step | emits_case ].

Lemma emits_weaken {A} (P Q : event -> Prop) (m : M A) :
  (forall ev, P ev -> Q ev) -> emits P m -> emits Q m.
Proof.
  intros HPQ Hm st. destruct (Hm st) as (new & E & F).
  exists new. split; [done|]. eapply Forall_impl; eauto.
Qed.

(** *** Before the protocol loop nothing of the protocol happens *)

Lemma elf_buildID_local w p : emits local (elf_buildID w p).
Proof. unfold elf_buildID. emits_auto. Qed.

Lemma os_Open_local w p : emits local (os_Open w p).
Proof. unfold os_Open. emits_auto. Qed.

Lemma run_reducer_local name fn src dst f : emits local (run_reducer name fn src dst f).
Proof. unfold run_reducer. emits_auto. Qed.

Lemma extractAll_loop_local w mode srcDsts result :
  emits local (extractAll_loop w mode srcDsts result).
Proof.
  revert result. induction srcDsts as [|[src dst] rest IH]; intros result; simpl.
  - emits_auto.
  - emits_auto; try apply run_reducer_local; apply IH.
Qed.

Lemma upload_collect_bufs_local w paths srcDst uploads :
  emits local (upload_collect_bufs w paths srcDst uploads).
Proof.
  revert srcDst uploads. induction paths as [|p rest IH]; intros; simpl.
  - emits_auto.
  - emits_auto; apply IH.
Qed.

Lemma upload_measure_bufs_local uploads : emits local (upload_measure_bufs uploads).
Proof.
  induction uploads as [|u rest IH]; simpl; emits_auto. apply IH.
Qed.

Lemma upload_collect_files_local w fl paths uploads :
  emits local (upload_collect_files w fl paths uploads).
Proof.
  revert uploads. induction paths as [|p rest IH]; intros; simpl.
  - emits_auto.
  - emits_auto; apply IH.
Qed.

Lemma upload_collect_local w fl : emits local (upload_collect w fl).
Proof.
  unfold upload_collect, extractAll.
  emits_auto;
    auto using upload_collect_bufs_local, extractAll_loop_local,
      upload_measure_bufs_local, upload_collect_files_local.
Qed.

(** ** The upload protocol, one artifact at a time *)

(** C2: when the store answers [shouldUpload = false] for an artifact, the
    turn of the loop for that artifact makes exactly two calls, the
    dedup check and the message that prints the store's reason: no hash, no
    [InitiateUpload], no transmission.  It ends without an error and the loop
    goes on with the next artifact. *)
Theorem C2_server_skip (w : World) (fl : flags) (upload : uploadInfo)
    (rest : list uploadInfo) (st : State) (resp : ShouldInitiateUploadResponse) :
  let req := {| sreq_BuildId := buildID upload;
                sreq_Force := Upload_Force fl;
                sreq_Type := debuginfoTypeStringToPb (Upload_Type fl) |} in
  let st' := {| heap := heap st;
                trace := trace st ++
                  [EvShouldInitiateUpload req;
                   EvStdout "Skipping upload of %q with Build ID %q as the store instructed not to: %s\n"
                     [arg_s (path upload); arg_s (buildID upload);
                      arg_s (Reason resp)]] |} in
  w_ShouldInitiateUpload w (trace st) req = Ok resp ->
  ShouldInitiateUpload resp = false ->
  upload_one w fl upload st = (Ok tt, st') /\
  upload_loop w fl (upload :: rest) st = upload_loop w fl rest st'.
Proof.
  intros req st' Hresp Hno.
  assert (H1 : upload_one w fl upload st = (Ok tt, st')).
  { munfold. fold req. rewrite Hresp. simpl. rewrite Hno. simpl.
    subst st'. now rewrite <- app_assoc. }
  split; [exact H1|].
  simpl. unfold bind at 1. now rewrite H1.
Qed.

Lemma C2_server_skip_witness :
  let w := ex_world UPLOAD_STRATEGY_GRPC 200 in
  let fl := ex_flags true ["b"; "a"] in
  let st' :=
    {| heap := heap ex_state;
       trace := trace ex_state ++
         [EvShouldInitiateUpload
            {| sreq_BuildId := "id-b"; sreq_Force := false;
               sreq_Type := DEBUGINFO_TYPE_DEBUGINFO_UNSPECIFIED |};
          EvStdout "Skipping upload of %q with Build ID %q as the store instructed not to: %s\n"
            [arg_s "b"; arg_s "id-b"; arg_s "checked"]] |} in
  upload_one w fl ex_upload_b ex_state = (Ok tt, st') /\
  upload_loop w fl [ex_upload_b; ex_upload_a] ex_state = upload_loop w fl [ex_upload_a] st'.
Proof.
  apply (C2_server_skip (ex_world UPLOAD_STRATEGY_GRPC 200) (ex_flags true ["b"; "a"])
           ex_upload_b [ex_upload_a] ex_state
           {| ShouldInitiateUpload := false; Reason := "checked" |});
    reflexivity.
Defined.


(** C3: a turn of the loop sends bytes (gRPC stream or signed-URL PUT) only
    after an [InitiateUpload] that the store answered with the strategy
    grpc-stream or signed-url.  When the store answers with the unspecified
    strategy or with a number the client does not know, the turn sends
    nothing, does not call [MarkUploadFinished], ends in an error for that
    artifact, and the loop stops there. *)
Theorem C3_strategy_dispatch (w : World) (fl : flags) (upload : uploadInfo)
    (rest : list uploadInfo) (st : State) :
  exists new,
    trace (snd (upload_one w fl upload st)) = trace st ++ new /\
    (Exists (fun ev => is_transmit ev = true) new ->
     exists pre req post instr,
       new = pre ++ EvInitiateUpload req :: post /\
       Forall (fun ev => is_transmit ev = false) pre /\
       w_InitiateUpload w (trace st ++ pre) req = Ok instr /\
       (ui_UploadStrategy instr = UPLOAD_STRATEGY_GRPC \/
        ui_UploadStrategy instr = UPLOAD_STRATEGY_SIGNED_URL)) /\
    (forall pre req post instr,
       new = pre ++ EvInitiateUpload req :: post ->
       w_InitiateUpload w (trace st ++ pre) req = Ok instr ->
       ui_UploadStrategy instr <> UPLOAD_STRATEGY_GRPC ->
       ui_UploadStrategy instr <> UPLOAD_STRATEGY_SIGNED_URL ->
       Forall (fun ev => is_transmit ev = false /\ is_finish ev = false) new /\
       (exists e,
          fst (upload_one w fl upload st) =
            Err (fmt_Errorf "upload %q with Build ID %q: %w"
                   [arg_s (path upload); arg_s (buildID upload)] (Some e)) /\
          (e = errors_New "no upload strategy specified" \/
           e = fmt_Errorf "unknown upload strategy: %v"
                 [arg_strategy (ui_UploadStrategy instr)] None)) /\
       upload_loop w fl (upload :: rest) st = upload_one w fl upload st).
Proof.
  simpl upload_loop. unfold bind at 1.
  munfold. repeat mcase;
    repeat rewrite <- app_assoc in *; simpl in *;
    (eexists; split; [reflexivity|]); (split; [intros HEx | intros pre req post instr Hnew Hwi Hn1 Hn2]).
  all: try (no_exists HEx).
  all: try (split_at Hnew pre; fail).
  all: try (split_at Hnew pre; simpl in *; congruence).
  all: try (split_at Hnew pre; simpl in *;
            split; [repeat constructor | split; [eexists; split; [reflexivity| eauto]| reflexivity]]; fail).
  all: try solve [ eexists [_; _; _], _, _, _; simpl;
                   (split; [reflexivity|]); (split; [repeat constructor|]);
                   split; [eassumption | simpl; auto] ].
  all: split_at Hnew pre; simpl in *;
    split; [repeat constructor | split; [| reflexivity]];
    eexists; split; [reflexivity | right; congruence].
Qed.


(** ** [debuginfoTypeStringToPb] and the requests that carry its value *)

Lemma local_typed_by fl ev : local ev -> typed_by fl ev.
Proof. unfold local, typed_by. destruct ev; simpl; congruence. Qed.

Lemma upload_one_typed_by w fl upload : emits (typed_by fl) (upload_one w fl upload).
Proof.
  unfold upload_one, dispatch, grpc_Upload, uploadViaSignedURL,
    call_ShouldInitiateUpload, call_InitiateUpload, call_MarkUploadFinished,
    hash_Reader, Seek_start, drain, debugf.
  emits_auto; intros t; simpl; congruence.
Qed.

Lemma upload_loop_emits P w fl uploads :
  (forall upload, emits P (upload_one w fl upload)) ->
  emits P (upload_loop w fl uploads).
Proof.
  intros H. induction uploads as [|u rest IH]; simpl.
  - apply emits_ret.
  - apply emits_bind; auto.
Qed.

Lemma run_upload_typed_by w fl : emits (typed_by fl) (run_upload w fl).
Proof.
  unfold run_upload. emits_step; [emits_auto|].
  emits_step.
  - eapply emits_weaken; [apply local_typed_by | apply upload_collect_local].
  - apply upload_loop_emits, upload_one_typed_by.
Qed.

(** C10: ["executable"] maps to EXECUTABLE, ["sources"] to SOURCES and every
    other string, the default kind ["debuginfo"] among them, to
    DEBUGINFO_UNSPECIFIED; so in every run of the upload command for the kind
    ["debuginfo"] each dedup-check, initiate and finish request carries the
    unspecified type. *)
Theorem C10_type_mapping :
  debuginfoTypeStringToPb "executable" = DEBUGINFO_TYPE_EXECUTABLE /\
  debuginfoTypeStringToPb "sources" = DEBUGINFO_TYPE_SOURCES /\
  (forall s, s <> "executable" -> s <> "sources" ->
     debuginfoTypeStringToPb s = DEBUGINFO_TYPE_DEBUGINFO_UNSPECIFIED) /\
  debuginfoTypeStringToPb "debuginfo" = DEBUGINFO_TYPE_DEBUGINFO_UNSPECIFIED /\
  (forall w fl ev t,
     Upload_Type fl = "debuginfo" ->
     ev ∈ trace (snd (run_upload w fl init_state)) ->
     request_type ev = Some t ->
     t = DEBUGINFO_TYPE_DEBUGINFO_UNSPECIFIED).
Proof.
  repeat split; try reflexivity.
  - intros s H1 H2. unfold debuginfoTypeStringToPb.
    destruct (String.eqb_spec s "executable"); [contradiction|].
    destruct (String.eqb_spec s "sources"); [contradiction|]. reflexivity.
  - intros w fl ev t Hty Hin Hreq.
    destruct (run_upload_typed_by w fl init_state) as (new & E & F).
    rewrite E in Hin. simpl in Hin.
    rewrite Forall_forall in F. rewrite (F ev Hin t Hreq), Hty. reflexivity.
Qed.

(** ** The signed-URL transport *)

(** C6, as stated, fails: the store's URL answers 204, a 2xx status, and
    the transport reports an error. *)
Lemma C6_counterexample :
  w_http_Do (ex_world UPLOAD_STRATEGY_SIGNED_URL 204) (trace ex_state)
    "https://store/put" [x61; x62; x63] = Ok 204 /\
  200 <= 204 < 300 /\
  fst (uploadViaSignedURL (ex_world UPLOAD_STRATEGY_SIGNED_URL 204)
         "https://store/put" 0%nat ex_state) =
    Err (fmt_Errorf "unexpected status code: %d" [arg_d 204] None).
Proof. repeat split; try reflexivity; lia. Qed.

(** C6 (as the code has it): once the request is built and answered, the
    transport has issued one PUT to the URL whose body is what the reader
    had left, the full content when the reader stood at offset 0; it
    succeeds when the status is 200 and for every other status, the other
    2xx ones included, it returns an error that carries the status code. *)
Theorem C6_signed_url_status (w : World) (url : string) (r : handle)
    (st : State) (s : Stream) (code : Z) :
  heap st !! r = Some s ->
  w_http_NewRequest w url = None ->
  w_http_Do w (trace st) url (remaining s) = Ok code ->
  trace (snd (uploadViaSignedURL w url r st)) =
    trace st ++ [EvHttpPut url r (remaining s)] /\
  (s_off s = 0%nat -> remaining s = s_data s) /\
  (code = 200 -> fst (uploadViaSignedURL w url r st) = Ok tt) /\
  (code <> 200 ->
   fst (uploadViaSignedURL w url r st) =
     Err (fmt_Errorf "unexpected status code: %d" [arg_d code] None)).
Proof.
  intros Hs Hreq Hdo. munfold. rewrite Hreq, Hs. simpl. rewrite Hdo. simpl.
  unfold http_StatusOK.
  repeat split.
  - destruct (code =? 200); reflexivity.
  - intros H0. unfold remaining. now rewrite H0.
  - intros ->. reflexivity.
  - intros Hne. destruct (Z.eqb_spec code 200); [contradiction|reflexivity].
Qed.

Lemma C6_signed_url_status_witness :
  let w := ex_world UPLOAD_STRATEGY_SIGNED_URL 201 in
  let s := stream_of_file (ex_file [x61; x62; x63]) in
  trace (snd (uploadViaSignedURL w "https://store/put" 0%nat ex_state)) =
    trace ex_state ++ [EvHttpPut "https://store/put" 0%nat (remaining s)] /\
  (s_off s = 0%nat -> remaining s = s_data s) /\
  (201 = 200 -> fst (uploadViaSignedURL w "https://store/put" 0%nat ex_state) = Ok tt) /\
  (201 <> 200 ->
   fst (uploadViaSignedURL w "https://store/put" 0%nat ex_state) =
     Err (fmt_Errorf "unexpected status code: %d" [arg_d 201] None)).
Proof.
  apply (C6_signed_url_status (ex_world UPLOAD_STRATEGY_SIGNED_URL 201)
           "https://store/put" 0%nat ex_state
           (stream_of_file (ex_file [x61; x62; x63])) 201);
    reflexivity.
Defined.

(** ** The empty-set guard *)

(** C9: [extractAll] over no pairs returns nil and does nothing, with no
    error of its own for the empty input; the error "failed to find
    actionable files" is raised by its two callers, the extracting branch of
    the upload command and the extract command, which return it with the
    state as it was before [extractAll] would have been called. *)
Theorem C9_empty_guard_in_callers :
  (forall w mode st, extractAll w mode [] st = (Ok None, st)) /\
  (forall w mode st, range_ok w -> extractAll w mode (w_map_range w ∅) st = (Ok None, st)) /\
  (forall w fl st,
     w_grpcConn w = None ->
     Upload_NoExtract fl = false -> Upload_Type fl = "debuginfo" ->
     Upload_Paths fl = [] ->
     run_upload w fl st = (Err (errors_New "failed to find actionable files"), st)) /\
  (forall w fl st,
     w_os_RemoveAll w (Extract_OutputDir fl) = None ->
     w_os_MkdirAll w (Extract_OutputDir fl) = None ->
     Extract_Paths fl = [] ->
     run_extract w fl st = (Err (errors_New "failed to find actionable files"), st)).
Proof.
  repeat split.
  - intros w mode st Hr. specialize (Hr ∅). rewrite map_to_list_empty in Hr.
    apply Permutation_nil_r in Hr. now rewrite Hr.
  - intros w fl st Hc Hx Hty Hp.
    unfold run_upload, upload_collect. rewrite Hc, Hx, Hty, Hp. reflexivity.
  - intros w fl st Hr Hm Hp.
    unfold run_extract. rewrite Hr, Hm, Hp. reflexivity.
Qed.

Lemma C9_empty_guard_in_callers_witness :
  run_upload (ex_world UPLOAD_STRATEGY_GRPC 200) (ex_flags false []) init_state =
    (Err (errors_New "failed to find actionable files"), init_state) /\
  run_extract (ex_world UPLOAD_STRATEGY_GRPC 200) (ex_flags false []) init_state =
    (Err (errors_New "failed to find actionable files"), init_state) /\
  extractAll (ex_world UPLOAD_STRATEGY_GRPC 200) "keep-only-debug"
    (w_map_range (ex_world UPLOAD_STRATEGY_GRPC 200) ∅) init_state = (Ok None, init_state).
Proof.
  destruct C9_empty_guard_in_callers as (_ & H0 & H1 & H2).
  split; [|split].
  - apply H1; reflexivity.
  - apply H2; reflexivity.
  - apply H0. intros m. reflexivity.
Defined.

(** ** The zero-size guard *)

Lemma upload_collect_files_app w fl pre l ups st :
  upload_collect_files w fl (pre ++ l) ups st =
    match upload_collect_files w fl pre ups st with
    | (Ok ups', st') => upload_collect_files w fl l ups' st'
    | (Err e, st') => (Err e, st')
    end.
Proof.
  revert ups st. induction pre as [|p pre IH]; intros ups st; simpl; [reflexivity|].
  unfold bind. repeat (first [rewrite IH | bcase]; try reflexivity).
Qed.

Lemma upload_measure_bufs_app pre l st :
  upload_measure_bufs (pre ++ l) st =
    match upload_measure_bufs pre st with
    | (Ok pre', st') =>
        match upload_measure_bufs l st' with
        | (Ok l', st'') => (Ok (pre' ++ l'), st'')
        | (Err e, st'') => (Err e, st'')
        end
    | (Err e, st') => (Err e, st')
    end.
Proof.
  revert st. induction pre as [|u pre IH]; intros st; simpl.
  - unfold ret. destruct (upload_measure_bufs l st) as [[l'|e] st']; reflexivity.
  - unfold bind, ret, fail, get_stream, put_stream.
    repeat (first [rewrite IH | bcase]; simplify_eq/=; try reflexivity).
Qed.

(** An error met while collecting is the error of the run, which then has
    made no call of the protocol. *)
Lemma run_upload_collect_error w fl st :
  w_grpcConn w = None ->
  (forall e, fst (upload_collect w fl st) = Err e -> fst (run_upload w fl st) = Err e) /\
  ((exists e, fst (upload_collect w fl st) = Err e) ->
   exists new, trace (snd (run_upload w fl st)) = trace st ++ new /\ Forall local new).
Proof.
  intros Hc. unfold run_upload, wrap, bind, lift_err. rewrite Hc.
  destruct (upload_collect_local w fl st) as (new & E & F).
  destruct (upload_collect w fl st) as [[ups|e] st1]; simpl in *.
  - split; [discriminate|]. intros [e He]. discriminate.
  - split; [intros e0 [= ->]; reflexivity|]. intros _. eauto.
Qed.

Lemma upload_collect_bufs_nonempty w paths srcDst uploads st srcDst' uploads' st' :
  upload_collect_bufs w paths srcDst uploads st = (Ok (srcDst', uploads'), st') ->
  (srcDst <> ∅ \/ paths <> []) -> srcDst' <> ∅.
Proof.
  revert srcDst uploads st. induction paths as [|p rest IH]; intros srcDst uploads st; simpl.
  - unfold ret. intros [= <- <- <-] [H|H]; congruence.
  - unfold bind. repeat (bcase; try discriminate).
    all: intros Hrec _; eapply IH; [exact Hrec|]; left; apply insert_non_empty.
Qed.

Lemma upload_collect_bufs_uploads w paths srcDst uploads st srcDst' uploads' st' :
  upload_collect_bufs w paths srcDst uploads st = (Ok (srcDst', uploads'), st') ->
  paths = [] -> uploads' = uploads.
Proof. intros H ->. simpl in H. unfold ret in H. congruence. Qed.

Lemma upload_measure_bufs_sizes uploads st uploads' st' :
  upload_measure_bufs uploads st = (Ok uploads', st') ->
  Forall (fun u => size u <> 0) uploads'.
Proof.
  revert st uploads' st'. induction uploads as [|u rest IH]; intros st uploads' st'; simpl.
  - unfold ret. intros [= <- <-]. constructor.
  - unfold bind, ret, fail, get_stream, put_stream.
    repeat (bcase; simplify_eq/=; try discriminate).
    all: intros [= <- <-]; constructor; simpl;
      [now apply Z.eqb_neq | eapply IH; eassumption].
Qed.

Lemma upload_collect_files_sizes w fl paths uploads st uploads' st' :
  upload_collect_files w fl paths uploads st = (Ok uploads', st') ->
  Forall (fun u => size u <> 0) uploads ->
  Forall (fun u => size u <> 0) uploads'.
Proof.
  revert uploads st. induction paths as [|p rest IH]; intros uploads st; simpl.
  - unfold ret. now intros [= <- <-].
  - unfold bind. repeat (bcase; try discriminate).
    all: intros Hrec HF; eapply IH; [exact Hrec|].
    all: apply Forall_app; split; [exact HF|].
    all: constructor; [|constructor]; simpl; now apply Z.eqb_neq.
Qed.

Lemma elf_buildID_state w p st : snd (elf_buildID w p st) = st.
Proof.
  unfold elf_buildID, wrap, bind, lift. repeat (bcase; simplify_eq/=); reflexivity.
Qed.

(** C4, as stated, fails: ["empty"] is a file of size 0, and the run over
    it, with or without extraction, returns the error of [elf.Open], which
    names no path: when the Build ID is to be read from the file, the file
    is opened as ELF before its size is looked at. *)
Lemma C4_counterexample :
  (exists file,
     w_os_Open (ex_world UPLOAD_STRATEGY_GRPC 200) "empty" = Ok file /\
     f_Stat file = Ok 0) /\
  (forall no_extract,
     fst (run_upload (ex_world UPLOAD_STRATEGY_GRPC 200)
            (ex_flags no_extract ["a"; "empty"; "b"]) init_state) =
       Err (fmt_Errorf "open ELF file: %w" [] (Some (foreign_error "EOF")))) /\
  ~ In (arg_s "empty")
      (error_args (fmt_Errorf "open ELF file: %w" [] (Some (foreign_error "EOF")))).
Proof.
  split; [|split].
  - eexists. split; reflexivity.
  - intros []; reflexivity.
  - simpl. tauto.
Qed.

(** C4 (as the code has it): an artifact whose size resolves to 0 stops
    the run with an error, before any call of the protocol.  (1) Without
    extraction, when the paths before it were collected and its file stats
    with size 0: the error names its path when the size check is reached,
    that is when the Build ID is not read from the file or is read without
    error; when the Build ID is to be read from the file and that fails,
    the run stops with the error of that step.  (2) With extraction, when
    the buffers before it were measured and its own buffer holds no byte,
    the error names its path.  (3) Every artifact that reaches the protocol
    loop, where hashing happens, has a size other than 0. *)
Theorem C4_zero_size_guard :
  (forall w fl st pre p post ups st1 file,
     w_grpcConn w = None ->
     negb (Upload_NoExtract fl) && String.eqb (Upload_Type fl) "debuginfo" = false ->
     Upload_Paths fl = pre ++ p :: post ->
     upload_collect_files w fl pre [] st = (Ok ups, st1) ->
     w_os_Open w p = Ok file ->
     f_Stat file = Ok 0 ->
     let empty := fmt_Errorf "file %q is empty, but must not be empty" [arg_s p] None in
     fst (run_upload w fl st) =
       Err (if String.eqb (Upload_Type fl) "debuginfo" && String.eqb (Upload_BuildID fl) ""
            then match w_elf_Open w p with
                 | Err e => fmt_Errorf "open ELF file: %w" [] (Some e)
                 | Ok ef =>
                     match elf_buildid ef with
                     | Err e => fmt_Errorf "get Build ID for %q: %w" [arg_s p] (Some e)
                     | Ok _ => empty
                     end
                 end
            else empty) /\
     exists new, trace (snd (run_upload w fl st)) = trace st ++ new /\ Forall local new) /\
  (forall w fl st srcDst uploads st1 st2 pre u post pre' st3 buf,
     w_grpcConn w = None ->
     negb (Upload_NoExtract fl) && String.eqb (Upload_Type fl) "debuginfo" = true ->
     upload_collect_bufs w (Upload_Paths fl) ∅ [] st = (Ok (srcDst, uploads), st1) ->
     extractAll w (Extract_Mode fl) (w_map_range w srcDst) st1 = (Ok None, st2) ->
     uploads = pre ++ u :: post ->
     upload_measure_bufs pre st2 = (Ok pre', st3) ->
     heap st3 !! reader u = Some buf ->
     s_kind buf = flexbuf_Buffer ->
     s_data buf = [] ->
     fst (run_upload w fl st) =
       Err (fmt_Errorf "extracted debug information from %q is empty, but must not be empty"
              [arg_s (path u)] None) /\
     exists new, trace (snd (run_upload w fl st)) = trace st ++ new /\ Forall local new) /\
  (forall w fl st uploads st1,
     upload_collect w fl st = (Ok uploads, st1) ->
     Forall (fun u => size u <> 0) uploads).
Proof.
  split; [|split].
  - intros w fl st pre p post ups st1 file Hc Hbr Hp Hpre Hopen Hstat empty.
    assert (E : exists e, fst (upload_collect w fl st) = Err e /\
                e = if String.eqb (Upload_Type fl) "debuginfo" &&
                       String.eqb (Upload_BuildID fl) ""
                    then match w_elf_Open w p with
                         | Err e => fmt_Errorf "open ELF file: %w" [] (Some e)
                         | Ok ef =>
                             match elf_buildid ef with
                             | Err e =>
                                 fmt_Errorf "get Build ID for %q: %w" [arg_s p] (Some e)
                             | Ok _ => empty
                             end
                         end
                    else empty).
    { unfold upload_collect. rewrite Hbr, Hp, upload_collect_files_app, Hpre. simpl.
      unfold bind at 1.
      destruct (String.eqb (Upload_Type fl) "debuginfo" && String.eqb (Upload_BuildID fl) "").
      - unfold elf_buildID, wrap, bind, lift.
        destruct (w_elf_Open w p) as [ef|e]; simpl; [|eauto].
        destruct (elf_buildid ef) as [id|e]; simpl; [|eauto].
        unfold os_Open, wrap, bind, emit, lift, alloc, ret, fail. simpl.
        rewrite Hopen. simpl. rewrite Hstat. simpl. eauto.
      - unfold ret, os_Open, wrap, bind, emit, lift, alloc, ret, fail. simpl.
        rewrite Hopen. simpl. rewrite Hstat. simpl. eauto. }
    destruct E as (e & E & ->).
    destruct (run_upload_collect_error w fl st Hc) as [H1 H2]. split; eauto.
  - intros w fl st srcDst uploads st1 st2 pre u post pre' st3 buf
      Hc Hbr Hbufs Hex Hu Hpre Hbuf Hkind Hdata.
    assert (E : fst (upload_collect w fl st) =
                Err (fmt_Errorf "extracted debug information from %q is empty, but must not be empty"
                       [arg_s (path u)] None)).
    { unfold upload_collect. rewrite Hbr. unfold bind at 1. rewrite Hbufs.
      assert (Hne : srcDst <> ∅).
      { eapply upload_collect_bufs_nonempty; [exact Hbufs|]. right.
        intros Hnil. apply (upload_collect_bufs_uploads _ _ _ _ _ _ _ _ Hbufs) in Hnil.
        subst uploads. now destruct pre. }
      destruct (Nat.eqb_spec (base.size srcDst) 0) as [H0|_].
      { apply map_size_empty_iff in H0. contradiction. }
      unfold bind at 1. rewrite Hex, Hu, upload_measure_bufs_app, Hpre. simpl.
      unfold bind, get_stream, put_stream, fail. rewrite Hbuf, Hkind. simpl.
      unfold flexbuf_Len. rewrite Hdata. reflexivity. }
    destruct (run_upload_collect_error w fl st Hc) as [H1 H2]. split; eauto.
  - intros w fl st uploads st1. unfold upload_collect, bind, fail.
    repeat (bcase; simplify_eq/=; try discriminate).
    + intros ?. eapply upload_measure_bufs_sizes; eassumption.
    + intros ?. eapply upload_collect_files_sizes; [eassumption|constructor].
Qed.

Lemma C4_zero_size_guard_witness :
  (fst (run_upload (ex_world UPLOAD_STRATEGY_GRPC 200)
          (ex_flags_build_id ["a"; "empty"; "b"]) init_state) =
     Err (fmt_Errorf "file %q is empty, but must not be empty" [arg_s "empty"] None) /\
   exists new,
     trace (snd (run_upload (ex_world UPLOAD_STRATEGY_GRPC 200)
                   (ex_flags_build_id ["a"; "empty"; "b"]) init_state)) =
       trace init_state ++ new /\ Forall local new) /\
  (fst (run_upload (ex_world UPLOAD_STRATEGY_GRPC 200)
          (ex_flags true ["a"; "empty"; "b"]) init_state) =
     Err (fmt_Errorf "open ELF file: %w" [] (Some (foreign_error "EOF"))) /\
   exists new,
     trace (snd (run_upload (ex_world UPLOAD_STRATEGY_GRPC 200)
                   (ex_flags true ["a"; "empty"; "b"]) init_state)) =
       trace init_state ++ new /\ Forall local new) /\
  (fst (run_upload (ex_world UPLOAD_STRATEGY_GRPC 200) (ex_flags false ["a"; "a"])
          init_state) =
     Err (fmt_Errorf "extracted debug information from %q is empty, but must not be empty"
            [arg_s "a"] None) /\
   exists new,
     trace (snd (run_upload (ex_world UPLOAD_STRATEGY_GRPC 200)
                   (ex_flags false ["a"; "a"]) init_state)) =
       trace init_state ++ new /\ Forall local new).
Proof.
  destruct C4_zero_size_guard as (H1 & H2 & _).
  split; [|split].
  - apply (H1 (ex_world UPLOAD_STRATEGY_GRPC 200) (ex_flags_build_id ["a"; "empty"; "b"])
             init_state ["a"] "empty" ["b"]
             [ {| buildID := "given"; path := "a"; reader := 0%nat; size := 3 |} ]
             {| heap := [stream_of_file (ex_file [x61; x62; x63])];
                trace := [EvOsOpen "a"] |}
             (ex_file []));
      reflexivity.
  - apply (H1 (ex_world UPLOAD_STRATEGY_GRPC 200) (ex_flags true ["a"; "empty"; "b"])
             init_state ["a"] "empty" ["b"]
             [ex_upload_a]
             {| heap := [stream_of_file (ex_file [x61; x62; x63])];
                trace := [EvOsOpen "a"] |}
             (ex_file []));
      reflexivity.
  - apply (H2 (ex_world UPLOAD_STRATEGY_GRPC 200) (ex_flags false ["a"; "a"])
             init_state
             (<["a" := 1%nat]> ∅)
             [ {| buildID := "id-a"; path := "a"; reader := 0%nat; size := 0 |};
               {| buildID := "id-a"; path := "a"; reader := 1%nat; size := 0 |} ]
             {| heap := [new_flexbuf; new_flexbuf]; trace := [] |}
             {| heap := [new_flexbuf;
                         with_data new_flexbuf [x61; x62; x63] 3%nat];
                trace := [EvOsOpen "a"; EvExtractFn "OnlyKeepDebug" "a" 1%nat] |}
             []
             {| buildID := "id-a"; path := "a"; reader := 0%nat; size := 0 |}
             [ {| buildID := "id-a"; path := "a"; reader := 1%nat; size := 0 |} ]
             []
             {| heap := [new_flexbuf;
                         with_data new_flexbuf [x61; x62; x63] 3%nat];
                trace := [EvOsOpen "a"; EvExtractFn "OnlyKeepDebug" "a" 1%nat] |}
             new_flexbuf);
      try reflexivity; vm_compute; reflexivity.
Defined.

(** ** Hash integrity *)

Lemma same_data_refl hp : same_data hp hp.
Proof. intros h s H. eauto. Qed.

Lemma same_data_trans hp1 hp2 hp3 :
  same_data hp1 hp2 -> same_data hp2 hp3 -> same_data hp1 hp3.
Proof.
  intros H12 H23 h s H. destruct (H12 h s H) as (s2 & H2 & E2).
  destruct (H23 h s2 H2) as (s3 & H3 & E3). exists s3. split; [done|congruence].
Qed.

Lemma hash_integrity_local w hp tr : Forall local tr -> hash_integrity w hp tr.
Proof.
  intros F pre ev post -> Htx. apply Forall_app in F as [_ F].
  apply Forall_cons in F as [F _]. unfold local in F.
  destruct ev; simpl in *; discriminate.
Qed.

Lemma hash_integrity_mono w hp hp' tr :
  same_data hp hp' -> hash_integrity w hp tr -> hash_integrity w hp' tr.
Proof.
  intros Hd H pre ev post E Htx.
  destruct (H pre ev post E Htx) as (pre' & h & data & req & mid & s & ? & ? & ? & ? & Hs & ?).
  destruct (Hd h s Hs) as (s' & Hs' & Es').
  exists pre', h, data, req, mid, s'. repeat split; try done. congruence.
Qed.

Lemma hash_integrity_app w hp tr1 tr2 :
  hash_integrity w hp tr1 -> hash_integrity w hp tr2 -> hash_integrity w hp (tr1 ++ tr2).
Proof.
  intros H1 H2 pre ev post E Htx.
  apply app_eq_app in E as [l [[E1 E2]|[E1 E2]]].
  - destruct l as [|x l].
    + rewrite app_nil_r in E1. subst tr1. simpl in E2. symmetry in E2.
      destruct (H2 [] ev post E2 Htx) as (pre' & ? & ? & ? & ? & ? & E & _).
      now destruct pre'.
    + simpl in E2. injection E2 as -> ->.
      eapply H1; [exact E1 | exact Htx].
  - subst pre.
    destruct (H2 l ev post E2 Htx) as (pre' & h & data & req & mid & s & -> & ? & ? & ? & ? & ?).
    exists (tr1 ++ pre'), h, data, req, mid, s. rewrite <- app_assoc. repeat split; done.
Qed.

(** One turn of the loop for an artifact whose reader stands at offset 0:
    what it sends is what it hashed, all the bytes of the reader; it touches
    no other stream and changes no bytes. *)
Lemma upload_one_effect w fl upload st s :
  heap st !! reader upload = Some s ->
  s_off s = 0%nat ->
  exists new,
    trace (snd (upload_one w fl upload st)) = trace st ++ new /\
    (forall hp s', hp !! reader upload = Some s' -> s_data s' = s_data s ->
       hash_integrity w hp new) /\
    length (heap (snd (upload_one w fl upload st))) = length (heap st) /\
    (forall h, h <> reader upload ->
       heap (snd (upload_one w fl upload st)) !! h = heap st !! h) /\
    (exists s', heap (snd (upload_one w fl upload st)) !! reader upload = Some s' /\
                s_data s' = s_data s).
Proof.
  intros Hs Hoff.
  assert (Hrem : remaining s = s_data s) by (unfold remaining; now rewrite Hoff).
  munfold.
  repeat (rewrite ?Hs; heap_simpl; simpl; mcase).
  all: repeat rewrite <- app_assoc; simpl.
  all: eexists; split; [reflexivity|].
  all: split; [intros hp s' Hhp Hdata pre ev post Hnew Htx|].
  all: try (split_ev Hnew pre;
            (eexists [_], _, _, _, _, s'; simpl;
             split; [reflexivity|]; split; [repeat constructor|];
             rewrite ?Hrem; repeat split; done)).
  all: repeat rewrite length_insert.
  all: split; [reflexivity|]; split;
    [ intros h Hne; repeat (rewrite list_lookup_insert_ne by done); reflexivity
    | heap_simpl; eauto ].
Qed.

Lemma upload_one_same_data w fl upload st s :
  heap st !! reader upload = Some s ->
  s_off s = 0%nat ->
  same_data (heap st) (heap (snd (upload_one w fl upload st))).
Proof.
  intros Hs Hoff h s0 Hh.
  destruct (upload_one_effect w fl upload st s Hs Hoff) as (_ & _ & _ & _ & Hfr & s' & Hs' & Hd).
  destruct (decide (h = reader upload)) as [->|Hne].
  - exists s'. split; [done|]. congruence.
  - exists s0. split; [|done]. now rewrite Hfr.
Qed.

(** The protocol loop keeps the precondition for the artifacts still to
    come, so hash integrity holds for all it sends. *)
Lemma upload_loop_integrity w fl uploads st :
  ready st uploads ->
  exists new,
    trace (snd (upload_loop w fl uploads st)) = trace st ++ new /\
    hash_integrity w (heap (snd (upload_loop w fl uploads st))) new /\
    same_data (heap st) (heap (snd (upload_loop w fl uploads st))).
Proof.
  revert st. induction uploads as [|u rest IH]; intros st [Hnd Hrd].
  - exists []. simpl. rewrite app_nil_r. split; [done|]. split.
    + apply hash_integrity_local. constructor.
    + apply same_data_refl.
  - simpl in Hnd. apply NoDup_cons in Hnd as [Hnotin Hnd].
    destruct (Hrd u) as (s & Hs & Hoff); [left|].
    pose proof (upload_one_same_data w fl u st s Hs Hoff) as Hsd1.
    destruct (upload_one_effect w fl u st s Hs Hoff)
      as (new1 & E1 & Hint1 & _ & Hfr & s1 & Hs1 & Hd1).
    simpl. unfold bind.
    destruct (upload_one w fl u st) as [[[]|e] st1]; simpl in *.
    + destruct (IH st1) as (new2 & E2 & Hint2 & Hsd2).
      { split; [done|]. intros u' Hu'.
        destruct (Hrd u') as (s' & Hs' & Hoff'); [now right|].
        exists s'. split; [|done]. rewrite Hfr; [done|].
        intros Heq. apply Hnotin. rewrite <- Heq. apply list_elem_of_fmap. eauto. }
      exists (new1 ++ new2). rewrite E2, E1, app_assoc. split; [done|]. split.
      * apply hash_integrity_app; [|done].
        destruct (Hsd2 _ _ Hs1) as (s2 & Hs2 & Hd2).
        apply (Hint1 _ s2 Hs2). congruence.
      * eapply same_data_trans; eauto.
    + exists new1. split; [done|]. split; [|done]. eapply Hint1; eauto.
Qed.

(** *** The collect step establishes the precondition *)

Lemma ready_nil st : ready st [].
Proof. split; [constructor|]. intros u Hu. inversion Hu. Qed.

(** A stream allocated for a new artifact, at offset 0. *)
Lemma ready_alloc st uploads u s tr :
  ready st uploads ->
  reader u = length (heap st) ->
  s_off s = 0%nat ->
  ready {| heap := heap st ++ [s]; trace := tr |} (uploads ++ [u]).
Proof.
  intros [Hnd Hrd] Hu Hoff. split.
  - rewrite map_app. simpl. apply NoDup_app. split; [done|]. split; [|apply NoDup_singleton].
    intros h Hin Hh. apply list_elem_of_singleton in Hh. subst h.
    apply list_elem_of_fmap in Hin as (u' & Heq & Hu').
    destruct (Hrd u' Hu') as (s' & Hs' & _). apply lookup_lt_Some in Hs'. lia.
  - intros u' Hu'. simpl. apply elem_of_app in Hu' as [Hu'|Hu'].
    + destruct (Hrd u' Hu') as (s' & Hs' & Hoff'). exists s'. split; [|done].
      rewrite lookup_app_l; [done|]. eapply lookup_lt_Some; eauto.
    + apply list_elem_of_singleton in Hu'. subst u'. exists s. split; [|done].
      rewrite Hu. apply list_lookup_middle. reflexivity.
Qed.

Lemma elf_buildID_eq w p st r st' : elf_buildID w p st = (r, st') -> st' = st.
Proof. intros H. pose proof (elf_buildID_state w p st) as E. now rewrite H in E. Qed.

Lemma upload_collect_files_ready w fl paths uploads st uploads' st' :
  upload_collect_files w fl paths uploads st = (Ok uploads', st') ->
  ready st uploads -> ready st' uploads'.
Proof.
  revert uploads st. induction paths as [|p rest IH]; intros uploads st; simpl.
  - unfold ret. now intros [= <- <-].
  - unfold bind, wrap, os_Open, bind, emit, lift, alloc, ret, fail.
    repeat (bcase; simplify_eq/=; try discriminate).
    all: intros Hrec Hr; eapply IH; [exact Hrec|].
    all: repeat match goal with
           | H : elf_buildID _ _ _ = _ |- _ => apply elf_buildID_eq in H; subst
           end.
    all: apply ready_alloc; done.
Qed.

Lemma upload_collect_bufs_ready w paths srcDst uploads st srcDst' uploads' st' :
  upload_collect_bufs w paths srcDst uploads st = (Ok (srcDst', uploads'), st') ->
  ready st uploads -> ready st' uploads'.
Proof.
  revert srcDst uploads st. induction paths as [|p rest IH]; intros srcDst uploads st; simpl.
  - unfold ret. now intros [= <- <- <-].
  - unfold bind, alloc.
    repeat (bcase; simplify_eq/=; try discriminate).
    intros Hrec Hr; eapply IH; [exact Hrec|].
    repeat match goal with
           | H : elf_buildID _ _ _ = _ |- _ => apply elf_buildID_eq in H; subst
           end.
    destruct st. apply ready_alloc; done.
Qed.

Lemma upload_measure_bufs_spec uploads st uploads' st' :
  upload_measure_bufs uploads st = (Ok uploads', st') ->
  map reader uploads' = map reader uploads /\
  (forall h, h ∉ map reader uploads -> heap st' !! h = heap st !! h) /\
  (NoDup (map reader uploads) ->
   forall u, u ∈ uploads' -> exists s, heap st' !! reader u = Some s /\ s_off s = 0%nat).
Proof.
  revert st uploads' st'. induction uploads as [|u rest IH]; intros st uploads' st'; simpl.
  - unfold ret. intros [= <- <-]. split; [done|]. split; [done|].
    intros _ u Hu. inversion Hu.
  - unfold bind, ret, fail, get_stream, put_stream.
    repeat (bcase; simplify_eq/=; try discriminate).
    intros [= <- <-].
    match goal with H : upload_measure_bufs rest _ = _ |- _ =>
      destruct (IH _ _ _ H) as (Hmap & Hfr & Hoff) end.
    simpl in *. split; [now f_equal|]. split.
    + intros h Hh. apply not_elem_of_cons in Hh as [Hne Hh].
      rewrite Hfr by done. now rewrite list_lookup_insert_ne.
    + intros Hnd u' Hu'. apply NoDup_cons in Hnd as [Hnotin Hnd].
      apply elem_of_cons in Hu' as [->|Hu']; simpl.
      * rewrite Hfr by done. eexists. split.
        -- apply list_lookup_insert_eq. eapply lookup_lt_Some; eauto.
        -- reflexivity.
      * now apply Hoff.
Qed.

Lemma upload_collect_ready w fl st uploads st' :
  upload_collect w fl st = (Ok uploads, st') -> ready st' uploads.
Proof.
  unfold upload_collect, bind, fail.
  repeat (bcase; simplify_eq/=; try discriminate).
  - intros Hm.
    match goal with H : upload_collect_bufs _ _ _ _ _ = _ |- _ =>
      apply upload_collect_bufs_ready in H; [|apply ready_nil]; destruct H as [Hnd _] end.
    destruct (upload_measure_bufs_spec _ _ _ _ Hm) as (Hmap & _ & Hoff).
    split; [now rewrite Hmap | now apply Hoff].
  - intros Hc. eapply upload_collect_files_ready; [exact Hc | apply ready_nil].
Qed.

Lemma run_upload_integrity w fl st :
  exists new,
    trace (snd (run_upload w fl st)) = trace st ++ new /\
    hash_integrity w (heap (snd (run_upload w fl st))) new.
Proof.
  unfold run_upload, wrap, bind, lift_err.
  destruct (w_grpcConn w).
  { exists []. simpl. rewrite app_nil_r. split; [done|].
    apply hash_integrity_local. constructor. }
  destruct (upload_collect_local w fl st) as (new1 & E1 & F1).
  destruct (upload_collect w fl st) as [[uploads|e] st1] eqn:Ec; simpl in *.
  - destruct (upload_loop_integrity w fl uploads st1) as (new2 & E2 & H2 & _).
    { eapply upload_collect_ready; eauto. }
    exists (new1 ++ new2). rewrite E2, E1, app_assoc. split; [done|].
    apply hash_integrity_app; [|done]. now apply hash_integrity_local.
  - exists new1. split; [done|]. now apply hash_integrity_local.
Qed.

(** C1: in every run of the upload command, whatever is sent (by gRPC
    stream or by signed-URL PUT) comes right after the hash of the same
    reader, its rewind and the [InitiateUpload] call, with only messages in
    between; the hash in that [InitiateUpload] is the hash of exactly the
    bytes sent, the bytes sent are the bytes hashed, and they are the full
    content of the reader's stream.  The precondition is established by the
    collect step: every collected artifact has a reader of its own that
    stands at offset 0. *)
Theorem C1_hash_integrity (w : World) (fl : flags) (pre : list event) (ev : event)
    (post : list event) :
  trace (snd (run_upload w fl init_state)) = pre ++ ev :: post ->
  is_transmit ev = true ->
  (exists pre' h data req mid s,
     pre = pre' ++ EvHashReader h data :: EvSeekStart h :: EvInitiateUpload req :: mid /\
     Forall local mid /\
     sent ev = Some (h, data) /\
     ireq_Hash req = w_hash w data /\
     heap (snd (run_upload w fl init_state)) !! h = Some s /\
     s_data s = data) /\
  (forall st uploads st',
     upload_collect w fl st = (Ok uploads, st') -> ready st' uploads).
Proof.
  intros Htr Htx. split.
  - destruct (run_upload_integrity w fl init_state) as (new & E & H).
    simpl in E. rewrite E in Htr. exact (H pre ev post Htr Htx).
  - intros st uploads st'. apply upload_collect_ready.
Qed.

Lemma C1_hash_integrity_witness :
  let w := ex_world UPLOAD_STRATEGY_SIGNED_URL 200 in
  let fl := ex_flags false ["a"; "b"] in
  let st := snd (run_upload w fl init_state) in
  let ev := EvHttpPut "https://store/put" 0%nat [x61; x62; x63] in
  (exists pre' h data req mid s,
     take 8 (trace st) =
       pre' ++ EvHashReader h data :: EvSeekStart h :: EvInitiateUpload req :: mid /\
     Forall local mid /\
     sent ev = Some (h, data) /\
     ireq_Hash req = w_hash w data /\
     heap st !! h = Some s /\
     s_data s = data) /\
  (forall st0 uploads st',
     upload_collect w fl st0 = (Ok uploads, st') -> ready st' uploads).
Proof.
  apply (C1_hash_integrity (ex_world UPLOAD_STRATEGY_SIGNED_URL 200)
           (ex_flags false ["a"; "b"])
           (take 8 (trace (snd (run_upload (ex_world UPLOAD_STRATEGY_SIGNED_URL 200)
                                  (ex_flags false ["a"; "b"]) init_state))))
           (EvHttpPut "https://store/put" 0%nat [x61; x62; x63])
           (drop 9 (trace (snd (run_upload (ex_world UPLOAD_STRATEGY_SIGNED_URL 200)
                                  (ex_flags false ["a"; "b"]) init_state)))));
    vm_compute; reflexivity.
Defined.

(** ** The extraction pipeline *)

Lemma omap_ext_in {A B} (f g : A -> option B) (l : list A) :
  (forall x, x ∈ l -> f x = g x) -> omap f l = omap g l.
Proof.
  induction l as [|a l IH]; intros H; csimpl; [reflexivity|].
  rewrite (H a) by left. rewrite IH; [reflexivity|].
  intros x Hx. apply H. now right.
Qed.

Lemma filter_ext_elem {A} (f g : A -> bool) (l : list A) :
  (forall x, x ∈ l -> f x = g x) -> List.filter f l = List.filter g l.
Proof.
  intros H. apply List.filter_ext_in. intros a Ha. apply H. now apply list_elem_of_In.
Qed.

Lemma pair_error_ext w mode hp hp' p :
  hp' !! snd p = hp !! snd p -> pair_error w mode hp' p = pair_error w mode hp p.
Proof. intros H. unfold pair_error. now rewrite H. Qed.

Lemma pair_fails_ext w mode hp hp' p :
  hp' !! snd p = hp !! snd p -> pair_fails w mode hp' p = pair_fails w mode hp p.
Proof. intros H. unfold pair_fails. now rewrite (pair_error_ext _ _ _ _ _ H). Qed.

Lemma pair_output_ext w mode hp hp' p :
  hp' !! snd p = hp !! snd p -> pair_output w mode hp' p = pair_output w mode hp p.
Proof. intros H. unfold pair_output. now rewrite H. Qed.

(** The two arms of the mode test differ only in the reducer's name. *)
Lemma extractAll_reducer w mode src dst f :
  exists name,
    (if String.eqb mode "strip-debug"
     then run_reducer "StripDebug" (w_StripDebug w) src dst f
     else run_reducer "OnlyKeepDebug" (w_OnlyKeepDebug w) src dst f) =
    run_reducer name (extractFn w mode) src dst f.
Proof. unfold extractFn. destruct (String.eqb mode "strip-debug"); eauto. Qed.

(** One turn of the loop: the state it leaves and the error it joins. *)
Lemma extractAll_loop_cons w mode src dst rest result st s :
  heap st !! dst = Some s ->
  exists new,
    extractAll_loop w mode ((src, dst) :: rest) result st =
      extractAll_loop w mode rest
        (join_errors result (omap (pair_error w mode (heap st)) [(src, dst)]))
        {| heap := match pair_output w mode (heap st) (src, dst) with
                   | Some s' => <[dst := s']> (heap st)
                   | None => heap st
                   end;
           trace := trace st ++ new |} /\
    omap opened new = [src] /\
    omap stderr_path new = map fst (List.filter (pair_fails w mode (heap st)) [(src, dst)]).
Proof.
  intros Hs. simpl extractAll_loop. unfold bind at 1. unfold emit at 1.
  unfold pair_fails, pair_error, pair_output. csimpl. rewrite Hs.
  destruct (w_os_Open w src) as [f|e] eqn:Ho.
  - destruct (extractAll_reducer w mode src dst f) as [name ->].
    unfold bind at 1. unfold run_reducer, bind, get_stream, emit, put_stream, ret. simpl.
    rewrite Hs. simpl.
    destruct (extractFn w mode f (s_data s) (s_off s)) as [[data off] [e|]]; simpl.
    + eexists [_; _; _]. repeat rewrite <- app_assoc. simpl.
      split; [reflexivity | split; reflexivity].
    + eexists [_; _]. repeat rewrite <- app_assoc. simpl.
      split; [reflexivity | split; reflexivity].
  - unfold bind at 1. unfold emit at 1. simpl.
    eexists [_; _]. repeat rewrite <- app_assoc. simpl.
    split; [now rewrite list_insert_id | split; reflexivity].
Qed.

(** What the loop of [extractAll] does, pair by pair, when every
    destination is a stream of its own. *)
Lemma extractAll_loop_spec w mode srcDsts :
  forall result st,
    NoDup (map snd srcDsts) ->
    (forall p, p ∈ srcDsts -> (snd p < length (heap st))%nat) ->
    exists st' new,
      extractAll_loop w mode srcDsts result st =
        (Ok (join_errors result (omap (pair_error w mode (heap st)) srcDsts)), st') /\
      trace st' = trace st ++ new /\
      omap opened new = map fst srcDsts /\
      omap stderr_path new = map fst (List.filter (pair_fails w mode (heap st)) srcDsts) /\
      length (heap st') = length (heap st) /\
      (forall h, h ∉ map snd srcDsts -> heap st' !! h = heap st !! h) /\
      (forall p, p ∈ srcDsts -> heap st' !! snd p = pair_output w mode (heap st) p).
Proof.
  induction srcDsts as [|[src dst] rest IH]; intros result st Hnd Hval.
  { exists st, []. simpl. rewrite app_nil_r. repeat split; try done.
    intros p Hp. inversion Hp. }
  simpl in Hnd. apply NoDup_cons in Hnd as [Hnotin Hnd].
  assert (Hdst : (dst < length (heap st))%nat) by (apply (Hval (src, dst)); left).
  destruct (lookup_lt_is_Some_2 _ _ Hdst) as [s Hs].
  destruct (extractAll_loop_cons w mode src dst rest result st s Hs) as (new1 & E1 & Eop1 & Eerr1).
  assert (Hout : exists s', pair_output w mode (heap st) (src, dst) = Some s').
  { unfold pair_output. simpl. rewrite Hs. destruct (w_os_Open w src); [|eauto].
    destruct (extractFn _ _ _ _ _) as [[? ?] ?]. eauto. }
  destruct Hout as [s' Hout]. rewrite Hout in E1.
  set (hp1 := <[dst := s']> (heap st)) in *.
  assert (Hfr1 : forall h, h <> dst -> hp1 !! h = heap st !! h).
  { intros h Hne. subst hp1. now rewrite list_lookup_insert_ne. }
  assert (Hother : forall p, p ∈ rest -> hp1 !! snd p = heap st !! snd p).
  { intros p Hp. apply Hfr1. intros Heq. apply Hnotin. rewrite <- Heq.
    apply list_elem_of_fmap. eauto. }
  edestruct (IH (join_errors result (omap (pair_error w mode (heap st)) [(src, dst)]))
               {| heap := hp1; trace := trace st ++ new1 |})
    as (st' & new & E & Etr & Eop & Eerr & Elen & Efr & Eout); [done| |].
  { intros p Hp. simpl. subst hp1. rewrite length_insert. apply Hval. now right. }
  cbn [heap trace] in E, Etr, Eop, Eerr, Elen, Efr, Eout.
  exists st', (new1 ++ new). rewrite E1, E.
  rewrite (omap_ext_in (pair_error w mode hp1) (pair_error w mode (heap st)))
    by (intros p Hp; apply pair_error_ext, Hother; done).
  rewrite (filter_ext_elem (pair_fails w mode hp1) (pair_fails w mode (heap st))) in Eerr
    by (intros p Hp; apply pair_fails_ext, Hother; done).
  split; [|split; [|split; [|split; [|split; [|split]]]]].
  - f_equal. f_equal. unfold join_errors.
    change ((src, dst) :: rest) with ([(src, dst)] ++ rest).
    now rewrite omap_app, fold_left_app.
  - now rewrite Etr, app_assoc.
  - rewrite omap_app, Eop1, Eop. reflexivity.
  - rewrite omap_app, Eerr1, Eerr.
    change ((src, dst) :: rest) with ([(src, dst)] ++ rest).
    now rewrite List.filter_app, map_app.
  - rewrite Elen. subst hp1. apply length_insert.
  - intros h Hh. apply not_elem_of_cons in Hh as [Hne Hh]. rewrite Efr by done. now apply Hfr1.
  - intros p Hp. apply elem_of_cons in Hp as [->|Hp]; simpl.
    + rewrite Efr by done. rewrite Hout. subst hp1. now apply list_lookup_insert_eq.
    + rewrite Eout by done. apply pair_output_ext, Hother; done.
Qed.

Lemma join_errors_None result errs :
  join_errors result errs = None <-> result = None /\ errs = [].
Proof.
  unfold join_errors. revert result. induction errs as [|e errs IH]; intros result; simpl.
  - tauto.
  - rewrite IH. split; [|intros [_ H]; discriminate].
    intros [H _]. unfold errors_Join in H. destruct result; discriminate.
Qed.

Lemma omap_nil_iff {A B} (f : A -> option B) (l : list A) :
  omap f l = [] <-> forall x, x ∈ l -> f x = None.
Proof.
  induction l as [|a l IH]; csimpl.
  - split; [|done]. intros _ x Hx. inversion Hx.
  - destruct (f a) eqn:Ha.
    + split; [discriminate|]. intros H. specialize (H a (proj2 (elem_of_cons _ _ _) (or_introl eq_refl))). congruence.
    + rewrite IH. split.
      * intros H x Hx. apply elem_of_cons in Hx as [->|Hx]; auto.
      * intros H x Hx. apply H. now right.
Qed.

Lemma filter_nil_elem {A} (f : A -> bool) (l : list A) :
  (forall x, x ∈ l -> f x = false) -> List.filter f l = [].
Proof.
  induction l as [|a l IH]; intros H; simpl; [done|].
  rewrite (H a) by left. apply IH. intros x Hx. apply H. now right.
Qed.

(** C5: [extractAll] over pairs whose destinations are streams of their
    own opens every source in turn, whatever happened to the pairs before,
    and leaves in every destination what the reducer wrote there; the error
    it returns is non-nil exactly when some pair failed; and when exactly
    one pair fails, that error is the join of that pair's error alone, one
    message on stderr names the failed source, and each of the other N-1
    destinations holds the output of a reducer that answered nil. *)
Theorem C5_extraction_isolation (w : World) (mode : string)
    (srcDsts : list (string * nat)) (st : State) :
  NoDup (map snd srcDsts) ->
  (forall p, p ∈ srcDsts -> (snd p < length (heap st))%nat) ->
  exists result st' new,
    extractAll w mode srcDsts st = (Ok result, st') /\
    trace st' = trace st ++ new /\
    omap opened new = map fst srcDsts /\
    (forall p, p ∈ srcDsts -> heap st' !! snd p = pair_output w mode (heap st) p) /\
    (result <> None <-> exists p, p ∈ srcDsts /\ pair_error w mode (heap st) p <> None) /\
    (forall l1 p l2 e,
       srcDsts = l1 ++ p :: l2 ->
       pair_error w mode (heap st) p = Some e ->
       (forall q, q ∈ l1 ++ l2 -> pair_error w mode (heap st) q = None) ->
       result = Some (joinError [e]) /\
       omap stderr_path new = [fst p] /\
       length (l1 ++ l2) = (length srcDsts - 1)%nat /\
       forall q, q ∈ l1 ++ l2 ->
         exists f s data off,
           w_os_Open w (fst q) = Ok f /\
           heap st !! snd q = Some s /\
           extractFn w mode f (s_data s) (s_off s) = (data, off, None) /\
           heap st' !! snd q = Some (with_data s data off)).
Proof.
  intros Hnd Hval.
  destruct (extractAll_loop_spec w mode srcDsts None st Hnd Hval)
    as (st' & new & E & Etr & Eop & Eerr & _ & _ & Eout).
  exists (join_errors None (omap (pair_error w mode (heap st)) srcDsts)), st', new.
  split; [exact E|]. split; [exact Etr|]. split; [exact Eop|]. split; [exact Eout|]. split.
  - split.
    + intros Hne.
      destruct (omap (pair_error w mode (heap st)) srcDsts) as [|e errs] eqn:Ho; [done|].
      assert (He : e ∈ omap (pair_error w mode (heap st)) srcDsts) by (rewrite Ho; left).
      apply list_elem_of_omap in He as (p & Hp & Hpe). exists p. split; [done|]. congruence.
    + intros (p & Hp & Hpe) Hnone. apply join_errors_None in Hnone as [_ Hnil].
      rewrite omap_nil_iff in Hnil. now apply Hpe, Hnil.
  - intros l1 p l2 e -> Hp Hq.
    assert (H1 : forall q, q ∈ l1 -> pair_error w mode (heap st) q = None).
    { intros q Hin. apply Hq, elem_of_app. now left. }
    assert (H2 : forall q, q ∈ l2 -> pair_error w mode (heap st) q = None).
    { intros q Hin. apply Hq, elem_of_app. now right. }
    split; [|split; [|split]].
    + change (p :: l2) with ([p] ++ l2). rewrite !omap_app.
      rewrite (proj2 (omap_nil_iff _ l1) H1), (proj2 (omap_nil_iff _ l2) H2).
      csimpl. rewrite Hp. reflexivity.
    + rewrite Eerr. change (p :: l2) with ([p] ++ l2). rewrite !List.filter_app.
      rewrite (filter_nil_elem _ l1), (filter_nil_elem _ l2).
      * simpl. unfold pair_fails. now rewrite Hp.
      * intros q Hin. unfold pair_fails. now rewrite H2.
      * intros q Hin. unfold pair_fails. now rewrite H1.
    + rewrite !length_app. simpl. lia.
    + intros q Hin.
      assert (Hq' : q ∈ l1 ++ p :: l2).
      { apply elem_of_app in Hin as [Hin|Hin]; apply elem_of_app; [now left|right; now right]. }
      specialize (Hq q Hin). specialize (Eout q Hq').
      destruct (lookup_lt_is_Some_2 _ _ (Hval q Hq')) as [s Hs].
      unfold pair_error in Hq. unfold pair_output in Eout. rewrite Hs in Hq, Eout.
      destruct (w_os_Open w (fst q)) as [f|e0]; [|discriminate].
      destruct (extractFn w mode f (s_data s) (s_off s)) as [[data off] err] eqn:Hfn.
      simpl in Hq. subst err. exists f, s, data, off. done.
Qed.

Lemma C5_extraction_isolation_witness :
  let w := ex_world UPLOAD_STRATEGY_GRPC 200 in
  let st := {| heap := [new_flexbuf; new_flexbuf; new_flexbuf]; trace := [] |} in
  let srcDsts := [("a", 0%nat); ("bad", 1%nat); ("b", 2%nat)] in
  exists result st' new,
    extractAll w "keep-only-debug" srcDsts st = (Ok result, st') /\
    trace st' = trace st ++ new /\
    omap opened new = map fst srcDsts /\
    (forall p, p ∈ srcDsts ->
       heap st' !! snd p = pair_output w "keep-only-debug" (heap st) p) /\
    (result <> None <->
     exists p, p ∈ srcDsts /\ pair_error w "keep-only-debug" (heap st) p <> None) /\
    (forall l1 p l2 e,
       srcDsts = l1 ++ p :: l2 ->
       pair_error w "keep-only-debug" (heap st) p = Some e ->
       (forall q, q ∈ l1 ++ l2 -> pair_error w "keep-only-debug" (heap st) q = None) ->
       result = Some (joinError [e]) /\
       omap stderr_path new = [fst p] /\
       length (l1 ++ l2) = (length srcDsts - 1)%nat /\
       forall q, q ∈ l1 ++ l2 ->
         exists f s data off,
           w_os_Open w (fst q) = Ok f /\
           heap st !! snd q = Some s /\
           extractFn w "keep-only-debug" f (s_data s) (s_off s) = (data, off, None) /\
           heap st' !! snd q = Some (with_data s data off)).
Proof.
  apply (C5_extraction_isolation (ex_world UPLOAD_STRATEGY_GRPC 200) "keep-only-debug"
           [("a", 0%nat); ("bad", 1%nat); ("b", 2%nat)]
           {| heap := [new_flexbuf; new_flexbuf; new_flexbuf]; trace := [] |}).
  - simpl.
    repeat (apply NoDup_cons_2;
            [intros H; repeat (apply elem_of_cons in H as [H|H]; [discriminate H|]);
             inversion H|]).
    apply NoDup_nil_2.
  - intros p Hp. simpl.
    repeat (apply elem_of_cons in Hp as [->|Hp]; [simpl; lia|]). inversion Hp.
Defined.

(** ** The source-archive builder *)

Lemma omap_sub {A B} (f g : A -> option B) (l : list A) (x : B) :
  (forall a, f a = Some x -> g a = Some x) -> x ∈ omap f l -> x ∈ omap g l.
Proof.
  intros H Hx. apply list_elem_of_omap in Hx as (a & Ha & Hf).
  apply list_elem_of_omap. eauto.
Qed.

Lemma opened_path ev x : opened ev = Some x -> event_path ev = Some x.
Proof. destruct ev; simpl; congruence. Qed.

Lemma header_path ev x : header_name ev = Some x -> event_path ev = Some x.
Proof. destruct ev; simpl; congruence. Qed.

Lemma copy_path ev x : copy_name ev = Some x -> event_path ev = Some x.
Proof. destruct ev; simpl; congruence. Qed.

Lemma warned_path ev x : warned ev = Some x -> event_path ev = Some x.
Proof.
  destruct ev as [| ? [|[] []] [] | | | | | | | | | | |]; simpl; try congruence.
  destruct (String.eqb _ _); congruence.
Qed.

(** Events about a path not yet in [seen] repeat nothing. *)
Lemma nodup_step (f : event -> option string) (seen : gset string)
    (new evs : list event) (name : string) :
  (forall ev x, f ev = Some x -> event_path ev = Some x) ->
  NoDup (omap f new) ->
  (forall x, x ∈ omap event_path new -> x ∈ seen) ->
  name ∉ seen ->
  Forall (fun ev => event_path ev = Some name) evs ->
  NoDup (omap f evs) ->
  NoDup (omap f (new ++ evs)).
Proof.
  intros Hf Hnd Hsub Hname Hevs Hnd'. rewrite omap_app. apply NoDup_app.
  split; [done|]. split; [|done].
  intros x Hx Hx'. apply Hname.
  apply list_elem_of_omap in Hx' as (ev & Hev & Hfx).
  rewrite Forall_forall in Hevs. specialize (Hevs ev Hev).
  apply Hf in Hfx. assert (x = name) by congruence. subst x.
  apply Hsub. eapply omap_sub; [|exact Hx]. intros a. apply Hf.
Qed.

Lemma once_step w seen new evs name :
  seen_inv w seen new ->
  name ∉ seen ->
  Forall (fun ev => event_path ev = Some name) evs ->
  once_local evs ->
  (omap header_name evs <> [] \/ omap copy_name evs <> [] -> missing w name = false) ->
  once w (new ++ evs).
Proof.
  intros ((N1 & N2 & N3 & N4 & Hm) & Hsub & _) Hname Hevs (L1 & L2 & L3 & L4) Hmiss.
  repeat split.
  - eapply nodup_step; eauto using opened_path.
  - eapply nodup_step; eauto using header_path.
  - eapply nodup_step; eauto using copy_path.
  - eapply nodup_step; eauto using warned_path.
  - intros x Hx. rewrite !omap_app, !elem_of_app in Hx.
    destruct Hx as [[Hx|Hx]|[Hx|Hx]]; [apply Hm; auto| |apply Hm; auto|].
    + assert (x = name) as ->.
      { apply list_elem_of_omap in Hx as (ev & Hev & Hfx).
        rewrite Forall_forall in Hevs. specialize (Hevs ev Hev).
        apply header_path in Hfx. congruence. }
      apply Hmiss. left. intros Hnil. rewrite Hnil in Hx. inversion Hx.
    + assert (x = name) as ->.
      { apply list_elem_of_omap in Hx as (ev & Hev & Hfx).
        rewrite Forall_forall in Hevs. specialize (Hevs ev Hev).
        apply copy_path in Hfx. congruence. }
      apply Hmiss. right. intros Hnil. rewrite Hnil in Hx. inversion Hx.
Qed.

Lemma seen_inv_step w seen new evs name :
  seen_inv w seen new ->
  name ∉ seen ->
  Forall (fun ev => event_path ev = Some name) evs ->
  once_local evs ->
  (omap header_name evs <> [] \/ omap copy_name evs <> [] -> missing w name = false) ->
  name ∈ omap opened evs ->
  (missing w name = true -> name ∈ omap warned evs) ->
  seen_inv w ({[name]} ∪ seen) (new ++ evs).
Proof.
  intros Hinv Hname Hevs Hloc Hmiss Hopen Hwarn.
  split; [eapply once_step; eauto|].
  destruct Hinv as (_ & Hsub & Ho & Hw). split; [|split].
  - intros x Hx. rewrite omap_app, elem_of_app in Hx. destruct Hx as [Hx|Hx].
    + apply elem_of_union. right. now apply Hsub.
    + apply list_elem_of_omap in Hx as (ev & Hev & Hfx).
      rewrite Forall_forall in Hevs. specialize (Hevs ev Hev).
      apply elem_of_union. left. apply elem_of_singleton. congruence.
  - intros x Hx. rewrite omap_app, elem_of_app.
    apply elem_of_union in Hx as [Hx|Hx].
    + apply elem_of_singleton in Hx. subst x. now right.
    + left. now apply Ho.
  - intros x Hx Hmx. rewrite omap_app, elem_of_app.
    apply elem_of_union in Hx as [Hx|Hx].
    + apply elem_of_singleton in Hx. subst x. right. now apply Hwarn.
    + left. now apply Hw.
Qed.

(** One unseen file: the calls made are all about that file, none twice;
    then either the walk goes on with the file marked seen, or the run
    stops with an error.  A missing file takes the first way, with its
    warning. *)
Lemma source_file_step w name rest seen st :
  name ∉ seen ->
  exists evs,
    Forall (fun ev => event_path ev = Some name) evs /\
    once_local evs /\
    (omap header_name evs <> [] \/ omap copy_name evs <> [] -> missing w name = false) /\
    name ∈ omap opened evs /\
    ((source_files w (Some name :: rest) seen st =
        source_files w rest ({[name]} ∪ seen)
          {| heap := heap st; trace := trace st ++ evs |} /\
      (missing w name = true -> name ∈ omap warned evs)) \/
     (exists e,
        source_files w (Some name :: rest) seen st =
          (Err e, {| heap := heap st; trace := trace st ++ evs |}) /\
        missing w name = false /\ ~ readable w name)).
Proof.
  intros Hname. simpl. destruct (decide (name ∈ seen)) as [|_]; [contradiction|].
  unfold missing, readable.
  unfold bind at 1. unfold emit at 1. simpl.
  destruct (w_os_Open w name) as [f|e] eqn:Ho.
  - unfold bind, wrap, lift, lift_err, history, emit, fail. simpl.
    destruct (f_Stat f) as [n|e] eqn:Hst; simpl.
    2:{ exists [EvOsOpen name]. split; [repeat constructor|]. split.
        { repeat split; csimpl; repeat constructor; set_solver. }
        split; [done|]. split; [csimpl; left|]. right. eexists. split; [reflexivity|]. split; [done|].
        intros (f' & n' & Hf' & Hn' & _). congruence. }
    destruct (w_tar_WriteHeader w (trace st ++ [EvOsOpen name]) name n) as [e|] eqn:Hh; simpl.
    { exists [EvOsOpen name; EvTarWriteHeader name n]. rewrite <- app_assoc.
      split; [repeat constructor|]. split.
      { repeat split; csimpl; repeat constructor; set_solver. }
      split; [done|]. split; [csimpl; left|]. right. eexists. split; [reflexivity|]. split; [done|].
      intros (f' & n' & Hf' & Hn' & _ & Hall). destruct (Hall (trace st ++ [EvOsOpen name])).
      congruence. }
    destruct (w_io_Copy w ((trace st ++ [EvOsOpen name]) ++ [EvTarWriteHeader name n]) name f)
      as [e|] eqn:Hc; simpl.
    { exists [EvOsOpen name; EvTarWriteHeader name n; EvTarCopy name (f_data f)].
      repeat rewrite <- app_assoc.
      split; [repeat constructor|]. split.
      { repeat split; csimpl; repeat constructor; set_solver. }
      split; [done|]. split; [csimpl; left|]. right. eexists. split; [reflexivity|]. split; [done|].
      intros (f' & n' & Hf' & Hn' & _ & Hall).
      destruct (Hall ((trace st ++ [EvOsOpen name]) ++ [EvTarWriteHeader name n])).
      congruence. }
    destruct (f_close_err f) as [e|] eqn:Hcl; simpl.
    { exists [EvOsOpen name; EvTarWriteHeader name n; EvTarCopy name (f_data f)].
      repeat rewrite <- app_assoc.
      split; [repeat constructor|]. split.
      { repeat split; csimpl; repeat constructor; set_solver. }
      split; [done|]. split; [csimpl; left|]. right. eexists. split; [reflexivity|]. split; [done|].
      intros (f' & n' & Hf' & Hn' & Hcl' & _). congruence. }
    exists [EvOsOpen name; EvTarWriteHeader name n; EvTarCopy name (f_data f)].
    repeat rewrite <- app_assoc.
    split; [repeat constructor|]. split.
    { repeat split; csimpl; repeat constructor; set_solver. }
    split; [done|]. split; [csimpl; left|]. left. split; [reflexivity|]. discriminate.
  - destruct (errors_Is_ErrNotExist e) eqn:Hne.
    + unfold bind at 1. unfold emit at 1. simpl.
      exists [EvOsOpen name; EvStderr "skipping file %q: does not exist\n" [arg_s name] None].
      rewrite <- app_assoc.
      split; [repeat constructor|]. split.
      { repeat split; csimpl; repeat constructor; set_solver. }
      split; [intros [H|H]; now destruct H|]. split; [csimpl; left|].
      left. split; [reflexivity|].
      intros _. csimpl. left.
    + unfold fail. exists [EvOsOpen name]. split; [repeat constructor|]. split.
      { repeat split; csimpl; repeat constructor; set_solver. }
      split; [done|]. split; [csimpl; left|]. right. eexists. split; [reflexivity|]. split; [done|].
      intros (f' & n' & Hf' & _). congruence.
Qed.

Lemma seen_inv_once w seen new : seen_inv w seen new -> once w new.
Proof. now intros [H _]. Qed.

Lemma source_files_inv w files :
  forall seen st tr0 new0,
    trace st = tr0 ++ new0 ->
    seen_inv w seen new0 ->
    exists new,
      trace (snd (source_files w files seen st)) = tr0 ++ new /\
      match fst (source_files w files seen st) with
      | Ok seen' =>
          seen_inv w seen' new /\ seen ⊆ seen' /\
          (forall name, Some name ∈ files -> name ∈ seen')
      | Err _ => once w new
      end.
Proof.
  induction files as [|[name|] rest IH]; intros seen st tr0 new0 Htr Hinv.
  - exists new0. simpl. split; [done|]. split; [done|]. split; [done|].
    intros name Hn. inversion Hn.
  - destruct (decide (name ∈ seen)) as [Hin|Hnotin].
    + simpl. destruct (decide (name ∈ seen)); [|contradiction].
      destruct (IH seen st tr0 new0 Htr Hinv) as (new & E & H). exists new. split; [done|].
      destruct (fst (source_files w rest seen st)); [|done].
      destruct H as (H1 & H2 & H3). split; [done|]. split; [done|].
      intros x Hx. apply elem_of_cons in Hx as [[= ->]|Hx]; [set_solver|auto].
    + destruct (source_file_step w name rest seen st Hnotin)
        as (evs & Hevs & Hloc & Hmiss & Hopen & [[E Hwarn]|(e & E & _)]); rewrite E.
      * destruct (IH ({[name]} ∪ seen) {| heap := heap st; trace := trace st ++ evs |}
                    tr0 (new0 ++ evs)) as (new & E' & H).
        { simpl. now rewrite Htr, app_assoc. }
        { now apply seen_inv_step. }
        exists new. split; [done|].
        destruct (fst (source_files w rest _ _)); [|done].
        destruct H as (H1 & H2 & H3). split; [done|]. split; [set_solver|].
        intros x Hx. apply elem_of_cons in Hx as [[= ->]|Hx]; [set_solver|auto].
      * exists (new0 ++ evs). simpl. split; [now rewrite Htr, app_assoc|].
        eapply once_step; eauto.
  - simpl. destruct (IH seen st tr0 new0 Htr Hinv) as (new & E & H). exists new.
    split; [done|]. destruct (fst (source_files w rest seen st)); [|done].
    destruct H as (H1 & H2 & H3). split; [done|]. split; [done|].
    intros x Hx. apply elem_of_cons in Hx as [[=]|Hx]. auto.
Qed.

Lemma referenced_cons e rest name :
  name ∈ referenced (e :: rest) <-> name ∈ entry_files e \/ name ∈ referenced rest.
Proof. unfold referenced. simpl. apply elem_of_app. Qed.

Lemma source_entries_cons w e rest dw_end seen st :
  source_entries w (e :: rest) dw_end seen st =
    if e_Tag e =? TagCompileUnit
    then match e_LineReader e with
         | Err err => (Err (fmt_Errorf "get line reader: %w" [] (Some err)), st)
         | Ok None => source_entries w rest dw_end seen st
         | Ok (Some files) =>
             match source_files w files seen st with
             | (Ok seen', st') => source_entries w rest dw_end seen' st'
             | (Err err, st') => (Err err, st')
             end
         end
    else source_entries w rest dw_end seen st.
Proof.
  simpl. destruct (e_Tag e =? TagCompileUnit); [|reflexivity].
  unfold bind, wrap, lift. destruct (e_LineReader e) as [[files|]|err]; reflexivity.
Qed.

Lemma source_entries_inv w entries dw_end :
  forall seen st tr0 new0,
    trace st = tr0 ++ new0 ->
    seen_inv w seen new0 ->
    exists new,
      trace (snd (source_entries w entries dw_end seen st)) = tr0 ++ new /\
      match fst (source_entries w entries dw_end seen st) with
      | Ok _ =>
          exists seen', seen_inv w seen' new /\ seen ⊆ seen' /\
                        (forall name, name ∈ referenced entries -> name ∈ seen')
      | Err _ => once w new
      end.
Proof.
  induction entries as [|e rest IH]; intros seen st tr0 new0 Htr Hinv.
  - exists new0. simpl. destruct dw_end; simpl.
    + split; [done|]. now apply seen_inv_once in Hinv.
    + split; [done|]. exists seen. split; [done|]. split; [done|].
      intros name Hn. inversion Hn.
  - assert (Hskip : entry_files e = [] ->
              exists new,
                trace (snd (source_entries w rest dw_end seen st)) = tr0 ++ new /\
                match fst (source_entries w rest dw_end seen st) with
                | Ok _ =>
                    exists seen', seen_inv w seen' new /\ seen ⊆ seen' /\
                      (forall name, name ∈ referenced (e :: rest) -> name ∈ seen')
                | Err _ => once w new
                end).
    { intros Hnil. destruct (IH seen st tr0 new0 Htr Hinv) as (new & E & H).
      exists new. split; [done|].
      destruct (fst (source_entries w rest dw_end seen st)); [|done].
      destruct H as (seen' & H1 & H2 & H3). exists seen'. split; [done|]. split; [done|].
      intros name Hn. apply referenced_cons in Hn as [Hn|Hn]; [|auto].
      rewrite Hnil in Hn. inversion Hn. }
    rewrite source_entries_cons.
    destruct (e_Tag e =? TagCompileUnit) eqn:Htag;
      [|apply Hskip; unfold entry_files; now rewrite Htag].
    destruct (e_LineReader e) as [[files|]|err] eqn:Hlr.
    + destruct (source_files_inv w files seen st tr0 new0 Htr Hinv) as (new1 & E1 & H1).
      destruct (source_files w files seen st) as [[seen1|err] st1]; simpl in E1, H1; simpl.
      * destruct H1 as (Hinv1 & Hsub1 & Hfiles).
        destruct (IH seen1 st1 tr0 new1 E1 Hinv1) as (new & E & H).
        exists new. split; [done|].
        destruct (fst (source_entries w rest dw_end seen1 st1)); [|done].
        destruct H as (seen' & H1 & H2 & H3). exists seen'. split; [done|].
        split; [set_solver|].
        intros name Hn. apply referenced_cons in Hn as [Hn|Hn]; [|auto].
        unfold entry_files in Hn. rewrite Htag, Hlr in Hn.
        apply list_elem_of_omap in Hn as (o & Ho & Hid). simpl in Hid. subst o.
        apply H2, Hfiles, Ho.
      * exists new1. split; [done|]. done.
    + apply Hskip. unfold entry_files. now rewrite Htag, Hlr.
    + exists new0. split; [done|]. now apply seen_inv_once in Hinv.
Qed.

(** *** Missing files do not fail the run *)

Lemma source_files_ok w files :
  forall seen st,
    (forall name, Some name ∈ files -> missing w name = true \/ readable w name) ->
    exists seen', fst (source_files w files seen st) = Ok seen'.
Proof.
  induction files as [|[name|] rest IH]; intros seen st Hok.
  - simpl. eauto.
  - assert (Hrest : forall x, Some x ∈ rest -> missing w x = true \/ readable w x).
    { intros x Hx. apply Hok. now right. }
    destruct (decide (name ∈ seen)) as [Hin|Hnotin].
    + simpl. destruct (decide (name ∈ seen)); [|contradiction]. now apply IH.
    + destruct (source_file_step w name rest seen st Hnotin)
        as (evs & _ & _ & _ & _ & [[E _]|(e & _ & Hm & Hr)]).
      * rewrite E. now apply IH.
      * destruct (Hok name) as [H|H]; [left|congruence|contradiction].
  - simpl. apply IH. intros x Hx. apply Hok. now right.
Qed.

Lemma source_entries_ok w entries :
  forall seen st,
    (forall e, e ∈ entries -> e_Tag e = TagCompileUnit -> exists lr, e_LineReader e = Ok lr) ->
    (forall name, name ∈ referenced entries -> missing w name = true \/ readable w name) ->
    fst (source_entries w entries None seen st) = Ok tt.
Proof.
  induction entries as [|e rest IH]; intros seen st Hlr Hok; [reflexivity|].
  assert (Hlr' : forall e', e' ∈ rest -> e_Tag e' = TagCompileUnit ->
                   exists lr, e_LineReader e' = Ok lr).
  { intros e' He'. apply Hlr. now right. }
  assert (Hok' : forall x, x ∈ referenced rest -> missing w x = true \/ readable w x).
  { intros x Hx. apply Hok, referenced_cons. now right. }
  rewrite source_entries_cons.
  destruct (Z.eqb_spec (e_Tag e) TagCompileUnit) as [Htag|Htag]; [|now apply IH].
  destruct (Hlr e) as [lr Hl]; [left|done|]. rewrite Hl.
  destruct lr as [files|]; [|now apply IH].
  destruct (source_files_ok w files seen st) as [seen' Hs].
  { intros x Hx. apply Hok, referenced_cons. left. unfold entry_files.
    rewrite Hl. destruct (Z.eqb_spec (e_Tag e) TagCompileUnit); [|contradiction].
    apply list_elem_of_omap. exists (Some x). done. }
  destruct (source_files w files seen st) as [r st1]. simpl in Hs. subst r.
  now apply IH.
Qed.

Lemma seen_inv_init w : seen_inv w ∅ [].
Proof.
  split; [|split; [|split]].
  - repeat split; try apply NoDup_nil_2. intros name [H|H]; inversion H.
  - intros name H. inversion H.
  - intros name H. set_solver.
  - intros name H. set_solver.
Qed.

(** C8: in one run of the source-archive builder every path is opened at
    most once, written to the archive (header and body) at most once and
    warned about at most once, however many compilation units name it; a
    path missing from the filesystem is never written to the archive; when
    the run completes, every path the walk names was opened, and every
    missing one was warned about (so exactly once); and a run in which
    nothing goes wrong but missing files completes without error. *)
Theorem C8_source_archive_seen (w : World) (fl : flags) (st : State) :
  exists new,
    trace (snd (run_source w fl st)) = trace st ++ new /\
    NoDup (omap opened new) /\
    NoDup (omap header_name new) /\
    NoDup (omap copy_name new) /\
    NoDup (omap warned new) /\
    (forall name, missing w name = true ->
       (name ∉ omap header_name new) /\ (name ∉ omap copy_name new)) /\
    (forall f d,
       w_elf_Open w (Source_DebuginfoPath fl) = Ok f ->
       elf_DWARF f = Ok d ->
       (fst (run_source w fl st) = Ok tt ->
        forall name, name ∈ referenced (dw_entries d) ->
          name ∈ omap opened new /\
          (missing w name = true -> name ∈ omap warned new)) /\
       (w_os_Create w (Source_OutPath fl) = None ->
        w_zstd_NewWriter w = None ->
        (forall e, e ∈ dw_entries d -> e_Tag e = TagCompileUnit ->
           exists lr, e_LineReader e = Ok lr) ->
        dw_end d = None ->
        (forall name, name ∈ referenced (dw_entries d) ->
           missing w name = true \/ readable w name) ->
        fst (run_source w fl st) = Ok tt)).
Proof.
  assert (Honce : forall new, once w new ->
            NoDup (omap opened new) /\ NoDup (omap header_name new) /\
            NoDup (omap copy_name new) /\ NoDup (omap warned new) /\
            (forall name, missing w name = true ->
               (name ∉ omap header_name new) /\ (name ∉ omap copy_name new))).
  { intros new (N1 & N2 & N3 & N4 & Hm). repeat split; try done.
    - intros Hin. rewrite Hm in H; [discriminate|now left].
    - intros Hin. rewrite Hm in H; [discriminate|now right]. }
  assert (Hnil : forall e st1, run_source w fl st = (Err e, st1) -> trace st1 = trace st ->
            exists new,
              trace (snd (run_source w fl st)) = trace st ++ new /\
              NoDup (omap opened new) /\ NoDup (omap header_name new) /\
              NoDup (omap copy_name new) /\ NoDup (omap warned new) /\
              (forall name, missing w name = true ->
                 (name ∉ omap header_name new) /\ (name ∉ omap copy_name new))).
  { intros e st1 E Htr. exists []. rewrite E. cbn [snd]. rewrite app_nil_r. split; [done|].
    apply (Honce []). apply (seen_inv_once w ∅), seen_inv_init. }
  unfold run_source, os_Create, bind, wrap, lift, lift_err, alloc in *.
  destruct (w_elf_Open w (Source_DebuginfoPath fl)) as [f|e] eqn:Hf.
  2:{ destruct (Hnil _ _ eq_refl eq_refl) as (new & E & H). exists new.
      split; [done|]. repeat (split; [apply H|]). intros f d [=]. }
  destruct (w_os_Create w (Source_OutPath fl)) as [e|] eqn:Hcr.
  { destruct (Hnil _ _ eq_refl eq_refl) as (new & E & H). exists new.
    split; [done|]. repeat (split; [apply H|]). intros f' d _ _. split; [discriminate|].
    intros [=]. }
  destruct (w_zstd_NewWriter w) as [e|] eqn:Hz.
  { destruct (Hnil _ _ eq_refl eq_refl) as (new & E & H). exists new.
    split; [done|]. repeat (split; [apply H|]). intros f' d _ _. split; [discriminate|].
    intros _ [=]. }
  destruct (elf_DWARF f) as [d|e] eqn:Hd.
  2:{ destruct (Hnil _ _ eq_refl eq_refl) as (new & E & H). exists new.
      split; [done|]. repeat (split; [apply H|]). intros f' d [= <-] Hd'. congruence. }
  clear Hnil.
  set (st1 := {| heap := heap st ++ [new_os_File]; trace := trace st |}).
  destruct (source_entries_inv w (dw_entries d) (dw_end d) ∅ st1 (trace st) [])
    as (new & E & H); [simpl; now rewrite app_nil_r | apply seen_inv_init |].
  exists new. split; [done|].
  assert (Ho : once w new).
  { destruct (fst (source_entries w (dw_entries d) (dw_end d) ∅ st1)); [|done].
    destruct H as (seen' & Hinv & _). now apply seen_inv_once in Hinv. }
  repeat (split; [apply (Honce new Ho)|]).
  intros f' d' [= <-] Hd'. assert (d' = d) as -> by congruence. split.
  - intros Hok name Hname. rewrite Hok in H.
    destruct H as (seen' & (_ & _ & Hop & Hw) & _ & Href). split; [|intros Hm]; auto.
  - intros _ _ Hlr Hend Hfine. rewrite Hend.
    now apply source_entries_ok.
Qed.

Lemma C8_source_archive_seen_witness :
  let w := ex_world UPLOAD_STRATEGY_GRPC 200 in
  let fl := ex_flags true [] in
  exists new,
    trace (snd (run_source w fl init_state)) = new /\
    fst (run_source w fl init_state) = Ok tt /\
    NoDup (omap opened new) /\
    NoDup (omap header_name new) /\
    NoDup (omap warned new) /\
    "gone.c" ∈ omap opened new /\
    "gone.c" ∈ omap warned new /\
    ("gone.c" ∉ omap header_name new) /\
    ("gone.c" ∉ omap copy_name new).
Proof.
  intros w fl.
  destruct (C8_source_archive_seen w fl init_state)
    as (new & E & N1 & N2 & N3 & N4 & Hm & H).
  destruct (H {| elf_buildid := Ok "id-a"; elf_DWARF := Ok ex_dwarf |} ex_dwarf
              eq_refl eq_refl) as [H1 _].
  assert (Href : "gone.c" ∈ referenced (dw_entries ex_dwarf)).
  { apply list_elem_of_In. vm_compute. tauto. }
  destruct (H1 eq_refl "gone.c" Href) as [Ho Hw].
  destruct (Hm "gone.c" eq_refl) as [Hh Hc].
  exists new. repeat split; auto.
Defined.
(** * Further properties of the code *)

(** ** The protocol loop *)

(** X1: a dry run ([--no-initiate]) of an artifact the store would accept
    makes the dedup check, prints what it would have done with the store's
    reason, touches no stream, and goes on with the next artifact without
    error. *)
Theorem X1_dry_run (w : World) (fl : flags) (upload : uploadInfo)
    (rest : list uploadInfo) (st : State) (resp : ShouldInitiateUploadResponse) :
  let req := {| sreq_BuildId := buildID upload;
                sreq_Force := Upload_Force fl;
                sreq_Type := debuginfoTypeStringToPb (Upload_Type fl) |} in
  let st' := {| heap := heap st;
                trace := trace st ++
                  [EvShouldInitiateUpload req;
                   EvStdout "Not initiating upload of %q with Build ID %q as requested, but would have requested that next, because: %s\n"
                     [arg_s (path upload); arg_s (buildID upload);
                      arg_s (Reason resp)]] |} in
  w_ShouldInitiateUpload w (trace st) req = Ok resp ->
  ShouldInitiateUpload resp = true ->
  Upload_NoInitiate fl = true ->
  upload_one w fl upload st = (Ok tt, st') /\
  upload_loop w fl (upload :: rest) st = upload_loop w fl rest st'.
Proof.
  intros req st' Hresp Hyes Hdry.
  assert (H1 : upload_one w fl upload st = (Ok tt, st')).
  { munfold. fold req. rewrite Hresp. simpl. rewrite Hyes, Hdry. simpl.
    subst st'. now rewrite <- app_assoc. }
  split; [exact H1|].
  simpl. unfold bind at 1. now rewrite H1.
Qed.

Lemma X1_dry_run_witness :
  let w := ex_world UPLOAD_STRATEGY_GRPC 200 in
  let fl := ex_flags_dry_run ["a"; "b"] in
  let st' :=
    {| heap := heap ex_state;
       trace := trace ex_state ++
         [EvShouldInitiateUpload
            {| sreq_BuildId := "id-a"; sreq_Force := false;
               sreq_Type := DEBUGINFO_TYPE_DEBUGINFO_UNSPECIFIED |};
          EvStdout "Not initiating upload of %q with Build ID %q as requested, but would have requested that next, because: %s\n"
            [arg_s "a"; arg_s "id-a"; arg_s "checked"]] |} in
  upload_one w fl ex_upload_a ex_state = (Ok tt, st') /\
  upload_loop w fl [ex_upload_a; ex_upload_b] ex_state = upload_loop w fl [ex_upload_b] st'.
Proof.
  apply (X1_dry_run (ex_world UPLOAD_STRATEGY_GRPC 200) (ex_flags_dry_run ["a"; "b"])
           ex_upload_a [ex_upload_b] ex_state
           {| ShouldInitiateUpload := true; Reason := "checked" |});
    reflexivity.
Defined.

(** X2: whatever goes wrong in the turn of an artifact, the error returned
    wraps the cause under one of six messages and names the artifact's path
    and Build ID. *)
Theorem X2_errors_name_artifact (w : World) (fl : flags) (upload : uploadInfo)
    (st : State) (e : error) :
  fst (upload_one w fl upload st) = Err e ->
  exists format cause,
    e = fmt_Errorf format [arg_s (path upload); arg_s (buildID upload)] (Some cause) /\
    format ∈ [ "check if upload should be initiated for %q with Build ID %q: %w";
               "calculate hash of %q with Build ID %q: %w";
               "seek to start of %q with Build ID %q: %w";
               "initiate upload for %q with Build ID %q: %w";
               "upload %q with Build ID %q: %w";
               "mark upload finished for %q with Build ID %q: %w" ].
Proof.
  munfold. repeat mcase; intros [= <-]; eexists; eexists;
    (split; [reflexivity|]); set_solver.
Qed.

Lemma X2_errors_name_artifact_witness :
  exists format cause,
    fmt_Errorf "upload %q with Build ID %q: %w" [arg_s "a"; arg_s "id-a"]
      (Some (errors_New "no upload strategy specified")) =
    fmt_Errorf format [arg_s (path ex_upload_a); arg_s (buildID ex_upload_a)] (Some cause) /\
    format ∈ [ "check if upload should be initiated for %q with Build ID %q: %w";
               "calculate hash of %q with Build ID %q: %w";
               "seek to start of %q with Build ID %q: %w";
               "initiate upload for %q with Build ID %q: %w";
               "upload %q with Build ID %q: %w";
               "mark upload finished for %q with Build ID %q: %w" ].
Proof.
  apply (X2_errors_name_artifact (ex_world UPLOAD_STRATEGY_UNSPECIFIED 200)
           (ex_flags true ["a"]) ex_upload_a ex_state).
  reflexivity.
Defined.

(** X3: [MarkUploadFinished] is the last call of a turn and is made only
    after an [InitiateUpload] the store answered and a transmission the
    transport reported successful; it carries the artifact's Build ID and
    the upload ID of the instructions the store gave. *)
Theorem X3_finish_after_transmission (w : World) (fl : flags) (upload : uploadInfo)
    (st : State) :
  exists new,
    trace (snd (upload_one w fl upload st)) = trace st ++ new /\
    forall pre req post,
      new = pre ++ EvMarkUploadFinished req :: post ->
      post = [] /\
      mreq_BuildId req = buildID upload /\
      exists pre1 ireq instr mid ev,
        pre = pre1 ++ EvInitiateUpload ireq :: mid ++ [ev] /\
        w_InitiateUpload w (trace st ++ pre1) ireq = Ok instr /\
        mreq_UploadId req = ui_UploadId instr /\
        Forall local mid /\
        is_transmit ev = true /\
        transport_ok w (trace st ++ pre1 ++ EvInitiateUpload ireq :: mid) ev.
Proof.
  munfold. repeat mcase; repeat rewrite <- app_assoc in *; simpl in *;
    (eexists; split; [reflexivity|]); intros pre req post Hnew; split_ev Hnew pre.
  all: split; [reflexivity|]; split; [reflexivity|].
  all: eexists [_; _; _], _, _.
  all: first [ eexists [], _; split; [reflexivity|]
             | eexists [_], _; split; [reflexivity|]
             | eexists [_; _], _; split; [reflexivity|] ].
  all: split; [eassumption|]; split; [reflexivity|]; split; [repeat constructor|].
  all: split; [reflexivity|]; simpl; try eassumption.
  all: match goal with
       | H : negb (?z =? http_StatusOK) = false |- _ =>
           apply negb_false_iff, Z.eqb_eq in H; subst z
       end; eassumption.
Qed.

Lemma upload_loop_app w fl pre l st :
  upload_loop w fl (pre ++ l) st =
    match upload_loop w fl pre st with
    | (Ok _, st1) => upload_loop w fl l st1
    | (Err e, st1) => (Err e, st1)
    end.
Proof.
  revert st. induction pre as [|u pre IH]; intros st; simpl; [reflexivity|].
  unfold bind. destruct (upload_one w fl u st) as [[[]|e] st1]; [apply IH | reflexivity].
Qed.

(** X4: the protocol loop fails fast: once the turn of an artifact ends in
    an error, that error is the result of the loop and nothing is done for
    the artifacts after it, whatever they are. *)
Theorem X4_upload_fail_fast (w : World) (fl : flags) (pre : list uploadInfo)
    (u : uploadInfo) (post : list uploadInfo) (st st1 : State) (e : error) :
  upload_loop w fl pre st = (Ok tt, st1) ->
  fst (upload_one w fl u st1) = Err e ->
  upload_loop w fl (pre ++ u :: post) st = (Err e, snd (upload_one w fl u st1)).
Proof.
  intros Hpre He. rewrite upload_loop_app, Hpre. simpl. unfold bind.
  destruct (upload_one w fl u st1) as [[[]|e'] st2]; simpl in *; congruence.
Qed.

Lemma X4_upload_fail_fast_witness :
  let w := ex_world UPLOAD_STRATEGY_SIGNED_URL 204 in
  let fl := ex_flags true ["b"; "a"; "b"] in
  let e := fmt_Errorf "upload %q with Build ID %q: %w" [arg_s "a"; arg_s "id-a"]
             (Some (fmt_Errorf "unexpected status code: %d" [arg_d 204] None)) in
  let st1 := snd (upload_loop w fl [ex_upload_b] ex_state) in
  upload_loop w fl ([ex_upload_b] ++ ex_upload_a :: [ex_upload_b]) ex_state =
    (Err e, snd (upload_one w fl ex_upload_a st1)).
Proof.
  apply (X4_upload_fail_fast (ex_world UPLOAD_STRATEGY_SIGNED_URL 204)
           (ex_flags true ["b"; "a"; "b"]) [ex_upload_b] ex_upload_a [ex_upload_b]
           ex_state
           (snd (upload_loop (ex_world UPLOAD_STRATEGY_SIGNED_URL 204)
                   (ex_flags true ["b"; "a"; "b"]) [ex_upload_b] ex_state)));
    reflexivity.
Defined.

(** ** The collect step *)

Lemma upload_collect_files_paths w fl paths uploads st uploads' st' :
  upload_collect_files w fl paths uploads st = (Ok uploads', st') ->
  map path uploads' = map path uploads ++ paths.
Proof.
  revert uploads st. induction paths as [|p rest IH]; intros uploads st; simpl.
  - unfold ret. intros [= <- <-]. now rewrite app_nil_r.
  - unfold bind. repeat (bcase; try discriminate).
    all: intros Hrec; apply IH in Hrec; rewrite Hrec, map_app; simpl;
      now rewrite <- app_assoc.
Qed.

Lemma upload_collect_bufs_paths w paths srcDst uploads st srcDst' uploads' st' :
  upload_collect_bufs w paths srcDst uploads st = (Ok (srcDst', uploads'), st') ->
  map path uploads' = map path uploads ++ paths.
Proof.
  revert srcDst uploads st. induction paths as [|p rest IH]; intros srcDst uploads st; simpl.
  - unfold ret. intros [= <- <- <-]. now rewrite app_nil_r.
  - unfold bind. repeat (bcase; try discriminate).
    all: intros Hrec; apply IH in Hrec; rewrite Hrec, map_app; simpl;
      now rewrite <- app_assoc.
Qed.

Lemma upload_measure_bufs_same uploads st uploads' st' :
  upload_measure_bufs uploads st = (Ok uploads', st') ->
  map path uploads' = map path uploads /\ map buildID uploads' = map buildID uploads.
Proof.
  revert st uploads' st'. induction uploads as [|u rest IH]; intros st uploads' st'; simpl.
  - unfold ret. now intros [= <- <-].
  - unfold bind, ret, fail, get_stream, put_stream.
    repeat (bcase; simplify_eq/=; try discriminate).
    all: intros [= <- <-]; simpl;
      match goal with H : upload_measure_bufs _ _ = (Ok _, _) |- _ =>
        destruct (IH _ _ _ H) as [-> ->] end; done.
Qed.

Lemma upload_collect_paths w fl st uploads st' :
  upload_collect w fl st = (Ok uploads, st') ->
  map path uploads = Upload_Paths fl.
Proof.
  unfold upload_collect, bind, fail.
  repeat (bcase; simplify_eq/=; try discriminate).
  - intros Hm. apply upload_measure_bufs_same in Hm as [-> _].
    match goal with H : upload_collect_bufs _ _ _ _ _ = _ |- _ =>
      now apply upload_collect_bufs_paths in H end.
  - intros Hc. now apply upload_collect_files_paths in Hc.
Qed.

(** X5: the artifacts handed to the protocol loop are the paths of the
    command line, one artifact per path, in the order given, and every
    artifact has a reader of its own. *)
Theorem X5_collect_keeps_order (w : World) (fl : flags) (st st' : State)
    (uploads : list uploadInfo) :
  upload_collect w fl st = (Ok uploads, st') ->
  map path uploads = Upload_Paths fl /\ NoDup (map reader uploads).
Proof.
  intros H. split.
  - eapply upload_collect_paths; eauto.
  - apply upload_collect_ready in H. now destruct H.
Qed.

Lemma X5_collect_keeps_order_witness :
  let uploads := [ {| buildID := "id-b"; path := "b"; reader := 0%nat; size := 2 |};
                   {| buildID := "id-a"; path := "a"; reader := 1%nat; size := 3 |} ] in
  map path uploads = Upload_Paths (ex_flags false ["b"; "a"]) /\
  NoDup (map reader uploads).
Proof.
  intros uploads.
  apply (X5_collect_keeps_order (ex_world UPLOAD_STRATEGY_GRPC 200)
           (ex_flags false ["b"; "a"]) init_state
           (snd (upload_collect (ex_world UPLOAD_STRATEGY_GRPC 200)
                   (ex_flags false ["b"; "a"]) init_state))).
  vm_compute. reflexivity.
Defined.

Lemma elf_buildID_ok w p st id st' :
  elf_buildID w p st = (Ok id, st') ->
  exists ef, w_elf_Open w p = Ok ef /\ elf_buildid ef = Ok id.
Proof.
  unfold elf_buildID, wrap, bind, lift.
  destruct (w_elf_Open w p) as [ef|e]; [|discriminate].
  destruct (elf_buildid ef) as [id'|e] eqn:Hid; [|discriminate].
  intros [= <- <-]. eauto.
Qed.

Lemma upload_collect_bufs_from_elf w paths srcDst uploads st srcDst' uploads' st' :
  upload_collect_bufs w paths srcDst uploads st = (Ok (srcDst', uploads'), st') ->
  Forall (from_elf w) uploads -> Forall (from_elf w) uploads'.
Proof.
  revert srcDst uploads st. induction paths as [|p rest IH]; intros srcDst uploads st; simpl.
  - unfold ret. now intros [= <- <- <-].
  - unfold bind. repeat (bcase; try discriminate).
    intros Hrec HF. eapply IH; [exact Hrec|]. apply Forall_app. split; [done|].
    constructor; [|constructor].
    match goal with H : elf_buildID _ _ _ = _ |- _ => apply elf_buildID_ok in H end.
    simplify_eq. done.
Qed.

Lemma upload_measure_bufs_from_elf w uploads st uploads' st' :
  upload_measure_bufs uploads st = (Ok uploads', st') ->
  Forall (from_elf w) uploads -> Forall (from_elf w) uploads'.
Proof.
  revert st uploads' st'. induction uploads as [|u rest IH]; intros st uploads' st'; simpl.
  - unfold ret. now intros [= <- <-].
  - unfold bind, ret, fail, get_stream, put_stream.
    repeat (bcase; simplify_eq/=; try discriminate).
    intros [= <- <-] HF. apply Forall_cons in HF as [Hu HF].
    constructor; [exact Hu|]. eapply IH; eauto.
Qed.

Lemma upload_collect_files_ids w fl paths uploads st uploads' st' :
  upload_collect_files w fl paths uploads st = (Ok uploads', st') ->
  (if String.eqb (Upload_Type fl) "debuginfo" && String.eqb (Upload_BuildID fl) ""
   then Forall (from_elf w) uploads -> Forall (from_elf w) uploads'
   else Forall (fun u => buildID u = Upload_BuildID fl) uploads ->
        Forall (fun u => buildID u = Upload_BuildID fl) uploads').
Proof.
  revert uploads st. induction paths as [|p rest IH]; intros uploads st; simpl.
  - unfold ret. intros [= <- <-]. now destruct (_ && _).
  - unfold bind.
    destruct (String.eqb (Upload_Type fl) "debuginfo" && String.eqb (Upload_BuildID fl) "")
      eqn:Hc.
    + repeat (bcase; try discriminate).
      intros Hrec HF. specialize (IH _ _ Hrec). apply IH.
      apply Forall_app. split; [done|]. constructor; [|constructor].
      match goal with H : elf_buildID _ _ _ = _ |- _ => apply elf_buildID_ok in H end.
      done.
    + unfold ret at 1. repeat (bcase; try discriminate).
      intros Hrec HF. specialize (IH _ _ Hrec). apply IH.
      apply Forall_app. split; [done|]. constructor; [|constructor]. reflexivity.
Qed.

Lemma upload_collect_files_no_elf w elf_Open fl paths :
  String.eqb (Upload_Type fl) "debuginfo" && String.eqb (Upload_BuildID fl) "" = false ->
  forall uploads st,
    upload_collect_files (with_elf_Open w elf_Open) fl paths uploads st =
    upload_collect_files w fl paths uploads st.
Proof.
  intros Hc. induction paths as [|p rest IH]; intros uploads st; simpl; [reflexivity|].
  rewrite Hc. unfold bind, wrap, os_Open, bind, emit, lift, alloc, ret, fail. simpl.
  destruct (w_os_Open w p) as [f|e]; [|reflexivity]. simpl.
  destruct (f_Stat f) as [n|e]; [|reflexivity]. simpl.
  destruct (n =? 0); [reflexivity|]. apply IH.
Qed.

(** X6: where an artifact's Build ID comes from.  It is read from the
    file when the type is ["debuginfo"] and either extraction is on or no
    [--build-id] was given.  In every other case each artifact is given the
    value of [--build-id] as it is, the same for all paths, and no ELF file
    is consulted: the collect step comes to the same result and state
    whatever [elf.Open] would answer.  So [--build-id] is not used when
    debug information is extracted. *)
Theorem X6_build_id_source (w : World) (fl : flags) (st : State) :
  (forall uploads st',
     upload_collect w fl st = (Ok uploads, st') ->
     if String.eqb (Upload_Type fl) "debuginfo" &&
        (negb (Upload_NoExtract fl) || String.eqb (Upload_BuildID fl) "")
     then Forall (from_elf w) uploads
     else Forall (fun u => buildID u = Upload_BuildID fl) uploads) /\
  (String.eqb (Upload_Type fl) "debuginfo" &&
     (negb (Upload_NoExtract fl) || String.eqb (Upload_BuildID fl) "") = false ->
   forall elf_Open,
     upload_collect (with_elf_Open w elf_Open) fl st = upload_collect w fl st).
Proof.
  split.
  - intros uploads st'. unfold upload_collect, bind, fail.
    destruct (Upload_NoExtract fl); simpl.
    + intros Hc.
      pose proof (upload_collect_files_ids _ _ _ _ _ _ _ Hc) as H.
      destruct (String.eqb (Upload_Type fl) "debuginfo" && String.eqb (Upload_BuildID fl) "");
        apply H; constructor.
    + destruct (String.eqb (Upload_Type fl) "debuginfo") eqn:Hty; simpl.
      * repeat (bcase; simplify_eq/=; try discriminate).
        intros Hm. eapply upload_measure_bufs_from_elf; [exact Hm|].
        eapply upload_collect_bufs_from_elf; [eassumption|constructor].
      * intros Hc.
        pose proof (upload_collect_files_ids _ _ _ _ _ _ _ Hc) as H.
        rewrite Hty in H. simpl in H. apply H. constructor.
  - intros Hc elf_Open. unfold upload_collect.
    destruct (String.eqb (Upload_Type fl) "debuginfo") eqn:Hty; simpl in *.
    + apply orb_false_iff in Hc as [Hne Hid]. rewrite Hne. simpl.
      apply upload_collect_files_no_elf. now rewrite Hty, Hid.
    + rewrite andb_false_r. apply upload_collect_files_no_elf. now rewrite Hty.
Qed.

Lemma X6_build_id_source_witness :
  let w := ex_world UPLOAD_STRATEGY_GRPC 200 in
  let fl := ex_flags_build_id ["a"; "b"] in
  Forall (fun u => buildID u = "given")
    [ {| buildID := "given"; path := "a"; reader := 0%nat; size := 3 |};
      {| buildID := "given"; path := "b"; reader := 1%nat; size := 2 |} ] /\
  upload_collect (with_elf_Open w (fun _ => Err (foreign_error "not consulted")))
    fl init_state = upload_collect w fl init_state.
Proof.
  intros w fl. destruct (X6_build_id_source w fl init_state) as [H1 H2]. split.
  - exact (H1 _ _ eq_refl).
  - apply H2. reflexivity.
Defined.

Lemma upload_one_no_extract w fl upload :
  emits (fun ev => is_extract ev = false) (upload_one w fl upload).
Proof.
  unfold upload_one, dispatch, grpc_Upload, uploadViaSignedURL,
    call_ShouldInitiateUpload, call_InitiateUpload, call_MarkUploadFinished,
    hash_Reader, Seek_start, drain, debugf.
  emits_auto.
Qed.

Lemma upload_collect_files_no_extract w fl paths uploads :
  emits (fun ev => is_extract ev = false) (upload_collect_files w fl paths uploads).
Proof.
  revert uploads. induction paths as [|p rest IH]; intros; simpl.
  - emits_auto.
  - emits_auto; apply IH.
Qed.

(** X7: a reducer is run only when the type is ["debuginfo"] and
    [--no-extract] is not given: in every other run of the upload command
    no file is reduced, the artifacts are sent as they are on disk. *)
Theorem X7_no_reducer_unless_debuginfo (w : World) (fl : flags) (st : State) :
  negb (Upload_NoExtract fl) && String.eqb (Upload_Type fl) "debuginfo" = false ->
  exists new,
    trace (snd (run_upload w fl st)) = trace st ++ new /\
    Forall (fun ev => is_extract ev = false) new.
Proof.
  intros Hc. apply (emits_bind _ _ _); [emits_auto|intros _].
  apply emits_bind.
  - unfold upload_collect. rewrite Hc. apply upload_collect_files_no_extract.
  - intros uploads. apply upload_loop_emits, upload_one_no_extract.
Qed.

Lemma X7_no_reducer_unless_debuginfo_witness :
  exists new,
    trace (snd (run_upload (ex_world UPLOAD_STRATEGY_GRPC 200)
                  (ex_flags true ["a"; "b"]) init_state)) = trace init_state ++ new /\
    Forall (fun ev => is_extract ev = false) new.
Proof.
  apply (X7_no_reducer_unless_debuginfo (ex_world UPLOAD_STRATEGY_GRPC 200)
           (ex_flags true ["a"; "b"]) init_state).
  reflexivity.
Defined.

Lemma upload_one_report_only w fl upload :
  String.eqb (LogLevel fl) LogLevelDebug = false ->
  emits report_only (upload_one w fl upload).
Proof.
  intros Hlog.
  unfold upload_one, dispatch, grpc_Upload, uploadViaSignedURL,
    call_ShouldInitiateUpload, call_InitiateUpload, call_MarkUploadFinished,
    hash_Reader, Seek_start, drain, debugf.
  rewrite Hlog.
  emits_auto; intros format; simpl; intros [= <-]; auto.
Qed.

Lemma upload_collect_silent_stdout w fl :
  emits (fun ev => stdout_format ev = None) (upload_collect w fl).
Proof.
  assert (Hb : forall ps m us,
            emits (fun ev => stdout_format ev = None) (upload_collect_bufs w ps m us)).
  { induction ps as [|p ps IH]; intros; simpl; emits_auto; apply IH. }
  assert (Hx : forall mode l r,
            emits (fun ev => stdout_format ev = None) (extractAll_loop w mode l r)).
  { intros mode. induction l as [|[src dst] l IH]; intros; simpl.
    - emits_auto.
    - unfold run_reducer. emits_auto; apply IH. }
  assert (Hm : forall us, emits (fun ev => stdout_format ev = None) (upload_measure_bufs us)).
  { induction us as [|u us IH]; simpl; emits_auto. apply IH. }
  assert (Hf : forall ps us,
            emits (fun ev => stdout_format ev = None) (upload_collect_files w fl ps us)).
  { induction ps as [|p ps IH]; intros; simpl; emits_auto; apply IH. }
  unfold upload_collect, extractAll. emits_auto; auto.
Qed.

(** X8: unless the log level is ["debug"], the upload command writes
    nothing to stdout but its reports of skipped artifacts and of dry-run
    stops. *)
Theorem X8_stdout_reports_only (w : World) (fl : flags) (st : State) :
  String.eqb (LogLevel fl) LogLevelDebug = false ->
  exists new,
    trace (snd (run_upload w fl st)) = trace st ++ new /\
    Forall report_only new.
Proof.
  intros Hlog. apply (emits_bind _ _ _); [emits_auto|intros _].
  apply emits_bind.
  - eapply emits_weaken; [|apply upload_collect_silent_stdout].
    intros ev Hev format. congruence.
  - intros uploads. apply upload_loop_emits. intros u. now apply upload_one_report_only.
Qed.

Lemma X8_stdout_reports_only_witness :
  exists new,
    trace (snd (run_upload (ex_world UPLOAD_STRATEGY_GRPC 200)
                  (ex_flags false ["a"; "b"]) init_state)) = trace init_state ++ new /\
    Forall report_only new.
Proof.
  apply (X8_stdout_reports_only (ex_world UPLOAD_STRATEGY_GRPC 200)
           (ex_flags false ["a"; "b"]) init_state).
  reflexivity.
Defined.

(** ** The [extract] command *)

Lemma extract_collect_app w fl pre l srcDst st :
  extract_collect w fl (pre ++ l) srcDst st =
    match extract_collect w fl pre srcDst st with
    | (Ok srcDst', st') => extract_collect w fl l srcDst' st'
    | (Err e, st') => (Err e, st')
    end.
Proof.
  revert srcDst st. induction pre as [|p pre IH]; intros srcDst st; simpl; [reflexivity|].
  unfold bind. repeat (first [rewrite IH | bcase]; try reflexivity).
Qed.

Lemma extract_collect_no_extract w fl paths srcDst :
  emits (fun ev => is_extract ev = false) (extract_collect w fl paths srcDst).
Proof.
  revert srcDst. induction paths as [|p rest IH]; intros; simpl.
  - emits_auto.
  - unfold os_Create. emits_auto; apply IH.
Qed.

(** X9: the extract command collects all its paths before it extracts
    any: a path that cannot be opened as an ELF file ends the command with
    that error, and no file is extracted, not even the well-formed ones named
    before it. *)
Theorem X9_extract_collects_first (w : World) (fl : flags) (st st1 : State)
    (pre : list string) (p : string) (post : list string)
    (srcDst : gmap string nat) (e : error) :
  w_os_RemoveAll w (Extract_OutputDir fl) = None ->
  w_os_MkdirAll w (Extract_OutputDir fl) = None ->
  Extract_Paths fl = pre ++ p :: post ->
  extract_collect w fl pre ∅ st = (Ok srcDst, st1) ->
  w_elf_Open w p = Err e ->
  run_extract w fl st = (Err (fmt_Errorf "open ELF file: %w" [] (Some e)), st1) /\
  exists new, trace st1 = trace st ++ new /\ Forall (fun ev => is_extract ev = false) new.
Proof.
  intros Hr Hm Hp Hpre He. split.
  - unfold run_extract, wrap, bind, lift_err. rewrite Hr, Hm, Hp.
    rewrite extract_collect_app, Hpre. simpl.
    unfold bind, elf_buildID, wrap, bind, lift. now rewrite He.
  - destruct (extract_collect_no_extract w fl pre ∅ st) as (new & E & F).
    rewrite Hpre in E. eauto.
Qed.

Lemma X9_extract_collects_first_witness :
  let w := ex_world UPLOAD_STRATEGY_GRPC 200 in
  let fl := ex_flags false ["a"; "nowhere"; "b"] in
  let st1 := snd (extract_collect w fl ["a"] ∅ init_state) in
  run_extract w fl init_state =
    (Err (fmt_Errorf "open ELF file: %w" [] (Some (PathError "open" "nowhere" true))), st1) /\
  exists new, trace st1 = trace init_state ++ new /\
              Forall (fun ev => is_extract ev = false) new.
Proof.
  apply (X9_extract_collects_first (ex_world UPLOAD_STRATEGY_GRPC 200)
           (ex_flags false ["a"; "nowhere"; "b"]) init_state
           (snd (extract_collect (ex_world UPLOAD_STRATEGY_GRPC 200)
                   (ex_flags false ["a"; "nowhere"; "b"]) ["a"] ∅ init_state))
           ["a"] "nowhere" ["b"]
           (<["a" := 1%nat]> ∅)
           (PathError "open" "nowhere" true));
    try reflexivity; vm_compute; reflexivity.
Defined.

(** ** The size announced to the store *)

Lemma size_integrity_local tr : Forall local tr -> size_integrity tr.
Proof.
  intros F pre ev post -> Htx. apply Forall_app in F as [_ F].
  apply Forall_cons in F as [F _]. unfold local in F.
  destruct ev; simpl in *; discriminate.
Qed.

Lemma size_integrity_app tr1 tr2 :
  size_integrity tr1 -> size_integrity tr2 -> size_integrity (tr1 ++ tr2).
Proof.
  intros H1 H2 pre ev post E Htx.
  apply app_eq_app in E as [l [[E1 E2]|[E1 E2]]].
  - destruct l as [|x l].
    + rewrite app_nil_r in E1. subst tr1. simpl in E2. symmetry in E2.
      destruct (H2 [] ev post E2 Htx) as (pre' & ? & ? & ? & ? & E & _).
      now destruct pre'.
    + simpl in E2. injection E2 as -> ->.
      eapply H1; [exact E1 | exact Htx].
  - subst pre.
    destruct (H2 l ev post E2 Htx) as (pre' & h & data & req & mid & -> & ? & ? & ?).
    exists (tr1 ++ pre'), h, data, req, mid. rewrite <- app_assoc. repeat split; done.
Qed.

Lemma upload_one_size w fl upload st s :
  heap st !! reader upload = Some s ->
  s_off s = 0%nat ->
  size upload = Z.of_nat (length (s_data s)) ->
  exists new,
    trace (snd (upload_one w fl upload st)) = trace st ++ new /\ size_integrity new.
Proof.
  intros Hs Hoff Hsize.
  assert (Hrem : remaining s = s_data s) by (unfold remaining; now rewrite Hoff).
  munfold.
  repeat (rewrite ?Hs; heap_simpl; simpl; mcase).
  all: repeat rewrite <- app_assoc; simpl.
  all: eexists; split; [reflexivity|].
  all: intros pre ev post Hnew Htx.
  all: split_ev Hnew pre;
    (eexists [_], _, _, _, _; simpl;
     split; [reflexivity|]; split; [repeat constructor|];
     rewrite ?Hrem; repeat split; done).
Qed.

Lemma ready_step w fl u rest st :
  ready st (u :: rest) -> ready (snd (upload_one w fl u st)) rest.
Proof.
  intros [Hnd Hrd]. simpl in Hnd. apply NoDup_cons in Hnd as [Hnotin Hnd].
  destruct (Hrd u) as (s & Hs & Hoff); [left|].
  destruct (upload_one_effect w fl u st s Hs Hoff) as (_ & _ & _ & _ & Hfr & _).
  split; [done|]. intros u' Hu'.
  destruct (Hrd u') as (s' & Hs' & Hoff'); [now right|].
  exists s'. split; [|done]. rewrite Hfr; [done|].
  intros Heq. apply Hnotin. rewrite <- Heq. apply list_elem_of_fmap. eauto.
Qed.

Lemma sized_step w fl u rest st :
  ready st (u :: rest) -> sized st (u :: rest) ->
  sized (snd (upload_one w fl u st)) rest.
Proof.
  intros [Hnd Hrd] Hsz. simpl in Hnd. apply NoDup_cons in Hnd as [Hnotin Hnd].
  destruct (Hrd u) as (s & Hs & Hoff); [left|].
  destruct (upload_one_effect w fl u st s Hs Hoff) as (_ & _ & _ & _ & Hfr & _).
  intros u' Hu'. destruct (Hsz u') as (s' & Hs' & Hsize); [now right|].
  exists s'. split; [|done]. rewrite Hfr; [done|].
  intros Heq. apply Hnotin. rewrite <- Heq. apply list_elem_of_fmap. eauto.
Qed.

Lemma upload_loop_size w fl uploads st :
  ready st uploads -> sized st uploads ->
  exists new,
    trace (snd (upload_loop w fl uploads st)) = trace st ++ new /\ size_integrity new.
Proof.
  revert st. induction uploads as [|u rest IH]; intros st Hr Hsz.
  - exists []. simpl. rewrite app_nil_r. split; [done|].
    apply size_integrity_local. constructor.
  - pose proof (ready_step w fl u rest st Hr) as Hr1.
    pose proof (sized_step w fl u rest st Hr Hsz) as Hsz1.
    destruct Hr as [_ Hrd]. destruct (Hrd u) as (s & Hs & Hoff); [left|].
    destruct (Hsz u) as (s' & Hs' & Hsize); [left|].
    assert (s' = s) as -> by congruence.
    destruct (upload_one_size w fl u st s Hs Hoff Hsize) as (new1 & E1 & H1).
    simpl. unfold bind.
    destruct (upload_one w fl u st) as [[[]|e] st1]; simpl in *.
    + destruct (IH st1 Hr1 Hsz1) as (new2 & E2 & H2).
      exists (new1 ++ new2). rewrite E2, E1, app_assoc. split; [done|].
      now apply size_integrity_app.
    + exists new1. done.
Qed.

Lemma upload_measure_bufs_sized uploads st uploads' st' :
  upload_measure_bufs uploads st = (Ok uploads', st') ->
  NoDup (map reader uploads) ->
  sized st' uploads'.
Proof.
  revert st uploads' st'. induction uploads as [|u rest IH]; intros st uploads' st'; simpl.
  - unfold ret. intros [= <- <-] _ u Hu. inversion Hu.
  - unfold bind, ret, fail, get_stream, put_stream.
    repeat (bcase; simplify_eq/=; try discriminate).
    intros [= <- <-] Hnd. apply NoDup_cons in Hnd as [Hnotin Hnd].
    match goal with H : upload_measure_bufs _ _ = (Ok _, _) |- _ =>
      pose proof (IH _ _ _ H Hnd) as Hsz;
      destruct (upload_measure_bufs_spec _ _ _ _ H) as (_ & Hfr & _) end.
    intros u' Hu'. apply elem_of_cons in Hu' as [->|Hu']; [|now apply Hsz].
    simpl. rewrite Hfr by done. simpl. eexists. split.
    + apply list_lookup_insert_eq. eapply lookup_lt_Some; eauto.
    + reflexivity.
Qed.

(** X10: when debug information is extracted, the size announced in
    [InitiateUpload] is the number of bytes then sent: every transmission
    follows the hash, the rewind and an [InitiateUpload] whose [Size] is the
    length of what is transmitted. *)
Theorem X10_extracted_size_is_sent (w : World) (fl : flags) (st : State) :
  negb (Upload_NoExtract fl) && String.eqb (Upload_Type fl) "debuginfo" = true ->
  exists new,
    trace (snd (run_upload w fl st)) = trace st ++ new /\
    forall pre ev post,
      new = pre ++ ev :: post -> is_transmit ev = true ->
      exists pre' h data req mid,
        pre = pre' ++ EvHashReader h data :: EvSeekStart h :: EvInitiateUpload req :: mid /\
        Forall local mid /\
        sent ev = Some (h, data) /\
        ireq_Size req = Z.of_nat (length data).
Proof.
  intros Hc. change (exists new, trace (snd (run_upload w fl st)) = trace st ++ new /\
                                 size_integrity new).
  unfold run_upload, wrap, bind, lift_err.
  destruct (w_grpcConn w).
  { exists []. simpl. rewrite app_nil_r. split; [done|].
    apply size_integrity_local. constructor. }
  destruct (upload_collect_local w fl st) as (new1 & E1 & F1).
  destruct (upload_collect w fl st) as [[uploads|e] st1] eqn:Ec; simpl in *.
  - destruct (upload_loop_size w fl uploads st1) as (new2 & E2 & H2).
    { eapply upload_collect_ready; eauto. }
    { revert Ec. unfold upload_collect, bind, fail. rewrite Hc.
      repeat (bcase; simplify_eq/=; try discriminate).
      intros Hm. eapply upload_measure_bufs_sized; [exact Hm|].
      match goal with H : upload_collect_bufs _ _ _ _ _ = _ |- _ =>
        apply upload_collect_bufs_ready in H; [|apply ready_nil]; now destruct H end. }
    exists (new1 ++ new2). rewrite E2, E1, app_assoc. split; [done|].
    apply size_integrity_app; [|done]. now apply size_integrity_local.
  - exists new1. split; [done|]. now apply size_integrity_local.
Qed.

Lemma X10_extracted_size_is_sent_witness :
  exists new,
    trace (snd (run_upload (ex_world UPLOAD_STRATEGY_GRPC 200)
                  (ex_flags false ["a"; "b"]) init_state)) = trace init_state ++ new /\
    forall pre ev post,
      new = pre ++ ev :: post -> is_transmit ev = true ->
      exists pre' h data req mid,
        pre = pre' ++ EvHashReader h data :: EvSeekStart h :: EvInitiateUpload req :: mid /\
        Forall local mid /\
        sent ev = Some (h, data) /\
        ireq_Size req = Z.of_nat (length data).
Proof.
  apply (X10_extracted_size_is_sent (ex_world UPLOAD_STRATEGY_GRPC 200)
           (ex_flags false ["a"; "b"]) init_state).
  reflexivity.
Defined.

(** ** [extractAll] with any number of failures *)

Lemma leaves_join r e : leaves_of (errors_Join [r; Some e]) = leaves_of r ++ leaves e.
Proof.
  destruct r as [x|]; unfold errors_Join; csimpl.
  - now rewrite app_nil_r.
  - now rewrite app_nil_r.
Qed.

Lemma leaves_join_errors r errs :
  leaves_of (join_errors r errs) = leaves_of r ++ concat (map leaves errs).
Proof.
  unfold join_errors. revert r. induction errs as [|e errs IH]; intros r; simpl.
  - now rewrite app_nil_r.
  - now rewrite IH, leaves_join, <- app_assoc.
Qed.

(** X11: however many pairs fail, no error is lost: the error [extractAll]
    returns is joined from the errors of the failing pairs, each once and in
    the order of the walk, and stderr carries one message per failing pair,
    in that order, naming its source. *)
Theorem X11_extractAll_joins_every_error (w : World) (mode : string)
    (srcDsts : list (string * nat)) (st : State) :
  NoDup (map snd srcDsts) ->
  (forall p, p ∈ srcDsts -> (snd p < length (heap st))%nat) ->
  exists result st' new,
    extractAll w mode srcDsts st = (Ok result, st') /\
    trace st' = trace st ++ new /\
    leaves_of result =
      concat (map leaves (omap (pair_error w mode (heap st)) srcDsts)) /\
    omap stderr_path new =
      map fst (List.filter (pair_fails w mode (heap st)) srcDsts).
Proof.
  intros Hnd Hval.
  destruct (extractAll_loop_spec w mode srcDsts None st Hnd Hval)
    as (st' & new & E & Etr & _ & Eerr & _).
  eexists _, st', new. split; [exact E|]. split; [exact Etr|].
  split; [|exact Eerr]. now rewrite leaves_join_errors.
Qed.

Lemma X11_extractAll_joins_every_error_witness :
  let w := ex_world UPLOAD_STRATEGY_GRPC 200 in
  let st := {| heap := [new_flexbuf; new_flexbuf; new_flexbuf]; trace := [] |} in
  let srcDsts := [("bad", 0%nat); ("a", 1%nat); ("nowhere", 2%nat)] in
  exists result st' new,
    extractAll w "strip-debug" srcDsts st = (Ok result, st') /\
    trace st' = trace st ++ new /\
    leaves_of result =
      concat (map leaves (omap (pair_error w "strip-debug" (heap st)) srcDsts)) /\
    omap stderr_path new =
      map fst (List.filter (pair_fails w "strip-debug" (heap st)) srcDsts).
Proof.
  intros w st srcDsts.
  apply (X11_extractAll_joins_every_error w "strip-debug" srcDsts st).
  - simpl.
    repeat (apply NoDup_cons_2;
            [intros H; repeat (apply elem_of_cons in H as [H|H]; [discriminate H|]);
             inversion H|]).
    apply NoDup_nil_2.
  - intros p Hp. simpl.
    repeat (apply elem_of_cons in Hp as [->|Hp]; [simpl; lia|]). inversion Hp.
Defined.

(** ** What the source command hands to the tar writer *)

Lemma seen_nil (seen : gset string) : list_to_set [] ∪ seen = seen.
Proof. simpl. apply (left_id_L ∅ (∪)). Qed.

Lemma seen_cons (name : string) (l : list string) (seen : gset string) :
  list_to_set (name :: l) ∪ seen = list_to_set l ∪ ({[name]} ∪ seen).
Proof.
  simpl. rewrite (assoc_L (∪)), (comm_L (∪) (list_to_set l) {[name]}). reflexivity.
Qed.

Lemma seen_cons_in (name : string) (l : list string) (seen : gset string) :
  name ∈ seen -> list_to_set (name :: l) ∪ seen = list_to_set l ∪ seen.
Proof.
  intros Hin. rewrite seen_cons. f_equal. apply subseteq_union_1_L.
  now apply singleton_subseteq_l.
Qed.

Lemma discover_app seen l1 l2 :
  discover seen (l1 ++ l2) = discover seen l1 ++ discover (list_to_set l1 ∪ seen) l2.
Proof.
  revert seen. induction l1 as [|name l1 IH]; intros seen.
  - now rewrite seen_nil.
  - cbn [app discover]. destruct (decide (name ∈ seen)) as [Hin|Hnotin].
    + now rewrite IH, seen_cons_in.
    + now rewrite IH, seen_cons.
Qed.

(** One unseen file, call by call. *)
Lemma source_file_walk w name rest seen st :
  name ∉ seen ->
  exists evs,
    ((source_files w (Some name :: rest) seen st =
        source_files w rest ({[name]} ∪ seen)
          {| heap := heap st; trace := trace st ++ evs |} /\
      omap opened evs = [name] /\
      omap header_name evs = List.filter (fun n => negb (missing w n)) [name] /\
      omap copy_name evs = List.filter (fun n => negb (missing w n)) [name] /\
      omap warned evs = List.filter (missing w) [name]) \/
     (exists e,
        source_files w (Some name :: rest) seen st =
          (Err e, {| heap := heap st; trace := trace st ++ evs |}))).
Proof.
  intros Hname. simpl. destruct (decide (name ∈ seen)) as [|_]; [contradiction|].
  unfold missing.
  unfold bind at 1. unfold emit at 1. simpl.
  destruct (w_os_Open w name) as [f|e] eqn:Ho.
  - unfold bind, wrap, lift, lift_err, history, emit, fail. simpl.
    destruct (f_Stat f) as [n|e] eqn:Hst; simpl.
    2:{ exists [EvOsOpen name]. right. eauto. }
    destruct (w_tar_WriteHeader w (trace st ++ [EvOsOpen name]) name n) as [e|] eqn:Hh; simpl.
    { exists [EvOsOpen name; EvTarWriteHeader name n]. rewrite <- app_assoc.
      right. eauto. }
    destruct (w_io_Copy w ((trace st ++ [EvOsOpen name]) ++ [EvTarWriteHeader name n]) name f)
      as [e|] eqn:Hc; simpl.
    { exists [EvOsOpen name; EvTarWriteHeader name n; EvTarCopy name (f_data f)].
      repeat rewrite <- app_assoc.
      right. eauto. }
    exists [EvOsOpen name; EvTarWriteHeader name n; EvTarCopy name (f_data f)].
    repeat rewrite <- app_assoc.
    destruct (f_close_err f) as [e|] eqn:Hcl; simpl.
    { right. eauto. }
    left. done.
  - destruct (errors_Is_ErrNotExist e) eqn:Hne.
    + unfold bind at 1. unfold emit at 1. simpl.
      exists [EvOsOpen name; EvStderr "skipping file %q: does not exist\n" [arg_s name] None].
      rewrite <- app_assoc. left. done.
    + unfold fail. exists [EvOsOpen name]. right. eauto.
Qed.

Lemma source_files_walk w files :
  forall seen st seen' st',
    source_files w files seen st = (Ok seen', st') ->
    exists new,
      trace st' = trace st ++ new /\
      seen' = list_to_set (omap id files) ∪ seen /\
      omap opened new = discover seen (omap id files) /\
      omap header_name new =
        List.filter (fun n => negb (missing w n)) (discover seen (omap id files)) /\
      omap copy_name new =
        List.filter (fun n => negb (missing w n)) (discover seen (omap id files)) /\
      omap warned new = List.filter (missing w) (discover seen (omap id files)).
Proof.
  induction files as [|[name|] rest IH]; intros seen st seen' st' E.
  - injection E as <- <-. exists []. rewrite app_nil_r. repeat split.
    csimpl. now rewrite seen_nil.
  - csimpl. destruct (decide (name ∈ seen)) as [Hin|Hnotin].
    + simpl in E. destruct (decide (name ∈ seen)); [|contradiction].
      destruct (IH _ _ _ _ E) as (new & Etr & Es & H). exists new.
      split; [done|]. split; [|done].
      rewrite Es. symmetry. now apply (seen_cons_in name).
    + destruct (source_file_walk w name rest seen st Hnotin)
        as (evs & [(E1 & Ho & Hh & Hc & Hw)|(e & E1)]); rewrite E1 in E; [|discriminate].
      destruct (IH _ _ _ _ E) as (new & Etr & Es & Eo & Eh & Ec & Ew). simpl in Etr.
      exists (evs ++ new). rewrite !omap_app, Ho, Hh, Hc, Hw, Eo, Eh, Ec, Ew.
      split; [now rewrite Etr, app_assoc|].
      split; [rewrite Es; symmetry; apply (seen_cons name)|].
      change (name :: discover ({[name]} ∪ seen) (omap id rest))
        with ([name] ++ discover ({[name]} ∪ seen) (omap id rest)).
      rewrite !List.filter_app. done.
  - csimpl. simpl in E. now apply IH.
Qed.

Lemma source_entries_walk w entries dw_end :
  forall seen st st',
    source_entries w entries dw_end seen st = (Ok tt, st') ->
    exists new,
      trace st' = trace st ++ new /\
      omap opened new = discover seen (referenced entries) /\
      omap header_name new =
        List.filter (fun n => negb (missing w n)) (discover seen (referenced entries)) /\
      omap copy_name new =
        List.filter (fun n => negb (missing w n)) (discover seen (referenced entries)) /\
      omap warned new = List.filter (missing w) (discover seen (referenced entries)).
Proof.
  induction entries as [|e rest IH]; intros seen st st' E.
  - simpl in E. destruct dw_end; [discriminate|]. injection E as <-.
    exists []. rewrite app_nil_r. done.
  - rewrite source_entries_cons in E.
    change (referenced (e :: rest)) with (entry_files e ++ referenced rest).
    unfold entry_files.
    destruct (e_Tag e =? TagCompileUnit) eqn:Htag; [|now apply IH].
    destruct (e_LineReader e) as [[files|]|err] eqn:Hlr; [| now apply IH | discriminate].
    destruct (source_files w files seen st) as [[seen1|err] st1] eqn:E1; [|discriminate].
    destruct (source_files_walk w files _ _ _ _ E1) as (new1 & Etr1 & -> & Eo1 & Eh1 & Ec1 & Ew1).
    destruct (IH _ _ _ E) as (new & Etr & Eo & Eh & Ec & Ew).
    exists (new1 ++ new). rewrite discover_app, !List.filter_app, !omap_app.
    rewrite Eo1, Eh1, Ec1, Ew1, Eo, Eh, Ec, Ew. split; [|done].
    now rewrite Etr, Etr1, app_assoc.
Qed.

(** X12: the calls a completed run of the source command has made.  The
    files it opened are the files the compilation units name, each once, in
    the order in which they are first named; the [WriteHeader] calls and
    the [io.Copy] calls to the tar writer are for those of them that exist,
    one call of each kind per file, in that order; the warnings on stderr
    are about the others, in that order.  (The command closes neither the
    tar writer nor the compressor, so this is about what it hands to the
    writer, not about the bytes in the output file.) *)
Theorem X12_source_writer_calls (w : World) (fl : flags) (st st' : State) :
  run_source w fl st = (Ok tt, st') ->
  exists f d new,
    w_elf_Open w (Source_DebuginfoPath fl) = Ok f /\
    elf_DWARF f = Ok d /\
    trace st' = trace st ++ new /\
    let names := discover ∅ (referenced (dw_entries d)) in
    omap opened new = names /\
    omap header_name new = List.filter (fun n => negb (missing w n)) names /\
    omap copy_name new = List.filter (fun n => negb (missing w n)) names /\
    omap warned new = List.filter (missing w) names.
Proof.
  unfold run_source, os_Create, bind, wrap, lift, lift_err, alloc.
  destruct (w_elf_Open w (Source_DebuginfoPath fl)) as [f|e] eqn:Hf; [|discriminate].
  destruct (w_os_Create w (Source_OutPath fl)) as [e|] eqn:Hcr; [discriminate|].
  destruct (w_zstd_NewWriter w) as [e|] eqn:Hz; [discriminate|].
  destruct (elf_DWARF f) as [d|e] eqn:Hd; [|discriminate].
  intros E. apply source_entries_walk in E as (new & Etr & H).
  exists f, d, new. done.
Qed.

Lemma X12_source_writer_calls_witness :
  let w := ex_world UPLOAD_STRATEGY_GRPC 200 in
  let fl := ex_flags false [] in
  exists f d new,
    w_elf_Open w (Source_DebuginfoPath fl) = Ok f /\
    elf_DWARF f = Ok d /\
    trace (snd (run_source w fl init_state)) = trace init_state ++ new /\
    let names := discover ∅ (referenced (dw_entries d)) in
    omap opened new = names /\
    omap header_name new = List.filter (fun n => negb (missing w n)) names /\
    omap copy_name new = List.filter (fun n => negb (missing w n)) names /\
    omap warned new = List.filter (missing w) names.
Proof.
  intros w fl.
  apply (X12_source_writer_calls w fl init_state (snd (run_source w fl init_state))).
  vm_compute. reflexivity.
Defined.

(** *** The order of the calls *)

Lemma writer_protocol_nil strict w tr0 : writer_protocol strict w tr0 [].
Proof. intros pre ev post E. now destruct pre. Qed.

Lemma writer_protocol_weaken w tr0 new :
  writer_protocol true w tr0 new -> writer_protocol false w tr0 new.
Proof.
  intros H pre ev post E. specialize (H pre ev post E). destruct ev; try done.
  - destruct H as (pre1 & f & H1 & H2 & H3 & H4). exists pre1, f. now rewrite H4.
  - destruct H as (pre1 & n & f & H1 & H2 & H3 & H4 & H5). exists pre1, n, f.
    now rewrite H5.
Qed.

Lemma writer_protocol_app strict w tr0 new evs :
  writer_protocol true w tr0 new ->
  writer_protocol strict w (tr0 ++ new) evs ->
  writer_protocol strict w tr0 (new ++ evs).
Proof.
  intros H1 H2 pre ev post E.
  apply app_eq_app in E as [l [[E1 E2]|[E1 E2]]].
  - destruct l as [|x l].
    + rewrite app_nil_r in E1. subst pre. simpl in E2.
      specialize (H2 [] ev post (eq_sym E2)).
      destruct ev; try done.
      * destruct H2 as (pre1 & f & Hp & _). now destruct pre1.
      * destruct H2 as (pre1 & n & f & Hp & _). now destruct pre1.
    + simpl in E2. injection E2 as -> ->.
      assert (H := H1 pre x l E1). destruct strict.
      * destruct x; try done.
      * destruct x; try done.
        -- destruct H as (pre1 & f & Hp & Ho & Hs & Ha). exists pre1, f.
           repeat split; try done; intros Hne; now rewrite Ha in Hne.
        -- destruct H as (pre1 & n & f & Hp & Ho & Hb & Hh & Ha). exists pre1, n, f.
           repeat split; try done; intros Hne; now rewrite Ha in Hne.
  - subst pre. specialize (H2 l ev post E2). destruct ev; try done.
    + destruct H2 as (pre1 & f & -> & Ho & Hs & Ha). exists (new ++ pre1), f.
      rewrite <- !app_assoc in *. done.
    + destruct H2 as (pre1 & n & f & -> & Ho & Hb & Hh & Ha). exists (new ++ pre1), n, f.
      rewrite <- !app_assoc in *. done.
Qed.

(** One unseen file: the calls made for it follow the protocol. *)
Lemma source_file_calls w name rest seen st :
  name ∉ seen ->
  exists evs,
    (source_files w (Some name :: rest) seen st =
       source_files w rest ({[name]} ∪ seen)
         {| heap := heap st; trace := trace st ++ evs |} /\
     writer_protocol true w (trace st) evs) \/
    (exists e,
       source_files w (Some name :: rest) seen st =
         (Err e, {| heap := heap st; trace := trace st ++ evs |}) /\
       writer_protocol false w (trace st) evs).
Proof.
  intros Hname. simpl. destruct (decide (name ∈ seen)) as [|_]; [contradiction|].
  unfold bind at 1. unfold emit at 1. simpl.
  destruct (w_os_Open w name) as [f|e] eqn:Ho.
  - unfold bind, wrap, lift, lift_err, history, emit, fail. simpl.
    destruct (f_Stat f) as [n|e] eqn:Hst; simpl.
    2:{ exists [EvOsOpen name]. right. eexists. split; [reflexivity|].
        intros pre ev post E. split_ev E pre. done. }
    destruct (w_tar_WriteHeader w (trace st ++ [EvOsOpen name]) name n) as [e|] eqn:Hh; simpl.
    { exists [EvOsOpen name; EvTarWriteHeader name n]. rewrite <- app_assoc.
      right. eexists. split; [reflexivity|].
      intros pre ev post E. split_ev E pre; [done|].
      exists [], f. done. }
    destruct (w_io_Copy w ((trace st ++ [EvOsOpen name]) ++ [EvTarWriteHeader name n]) name f)
      as [e|] eqn:Hc; simpl.
    { exists [EvOsOpen name; EvTarWriteHeader name n; EvTarCopy name (f_data f)].
      repeat rewrite <- app_assoc. right. eexists. split; [reflexivity|].
      intros pre ev post E. split_ev E pre; [done| |].
      - exists [], f. repeat split; try done; simpl; intros Hne; now rewrite Hh in Hne.
      - exists [], n, f. done. }
    assert (Hok : writer_protocol true w (trace st)
                    [EvOsOpen name; EvTarWriteHeader name n; EvTarCopy name (f_data f)]).
    { intros pre ev post E. split_ev E pre; [done| |].
      - exists [], f. done.
      - exists [], n, f. repeat split; try done. simpl. now rewrite <- app_assoc in Hc. }
    exists [EvOsOpen name; EvTarWriteHeader name n; EvTarCopy name (f_data f)].
    repeat rewrite <- app_assoc.
    destruct (f_close_err f) as [e|] eqn:Hcl; simpl.
    { right. eexists. split; [reflexivity|]. now apply writer_protocol_weaken. }
    left. done.
  - destruct (errors_Is_ErrNotExist e) eqn:Hne.
    + unfold bind at 1. unfold emit at 1. simpl.
      exists [EvOsOpen name; EvStderr "skipping file %q: does not exist\n" [arg_s name] None].
      rewrite <- app_assoc. left. split; [reflexivity|].
      intros pre ev post E. split_ev E pre; done.
    + unfold fail. exists [EvOsOpen name]. right. eexists. split; [reflexivity|].
      intros pre ev post E. split_ev E pre. done.
Qed.

Lemma source_files_protocol w files :
  forall seen st tr0 new0,
    trace st = tr0 ++ new0 ->
    writer_protocol true w tr0 new0 ->
    exists new,
      trace (snd (source_files w files seen st)) = tr0 ++ new /\
      writer_protocol
        (match fst (source_files w files seen st) with Ok _ => true | Err _ => false end)
        w tr0 new.
Proof.
  induction files as [|[name|] rest IH]; intros seen st tr0 new0 Htr Hinv.
  - exists new0. done.
  - destruct (decide (name ∈ seen)) as [Hin|Hnotin].
    + simpl. destruct (decide (name ∈ seen)); [|contradiction]. now apply (IH _ _ tr0 new0).
    + destruct (source_file_calls w name rest seen st Hnotin)
        as (evs & [[E H]|(e & E & H)]); rewrite E.
      * apply (IH _ _ tr0 (new0 ++ evs)).
        -- simpl. now rewrite Htr, app_assoc.
        -- apply writer_protocol_app; [done|]. now rewrite <- Htr.
      * exists (new0 ++ evs). simpl. split; [now rewrite Htr, app_assoc|].
        apply writer_protocol_app; [done|]. now rewrite <- Htr.
  - simpl. now apply (IH _ _ tr0 new0).
Qed.

Lemma source_entries_protocol w entries dw_end :
  forall seen st tr0 new0,
    trace st = tr0 ++ new0 ->
    writer_protocol true w tr0 new0 ->
    exists new,
      trace (snd (source_entries w entries dw_end seen st)) = tr0 ++ new /\
      writer_protocol false w tr0 new.
Proof.
  induction entries as [|e rest IH]; intros seen st tr0 new0 Htr Hinv.
  - exists new0. simpl. split; [now destruct dw_end|]. now apply writer_protocol_weaken.
  - rewrite source_entries_cons.
    destruct (e_Tag e =? TagCompileUnit); [|now apply (IH _ _ _ new0)].
    destruct (e_LineReader e) as [[files|]|err].
    + destruct (source_files_protocol w files seen st tr0 new0 Htr Hinv) as (new1 & E1 & H1).
      destruct (source_files w files seen st) as [[seen1|err] st1]; simpl in E1, H1.
      * now apply (IH _ _ _ new1).
      * exists new1. done.
    + now apply (IH _ _ _ new0).
    + exists new0. split; [done|]. now apply writer_protocol_weaken.
Qed.

(** X13: how the source command calls the tar writer, whatever the run
    comes to.  [WriteHeader] is called for a file right after that file was
    opened, with the size [Stat] gave; a body is copied right after the
    header of the same file, and only when the writer accepted that header;
    and when the writer refuses a header or a copy, that call is the last
    call of the run. *)
Theorem X13_writer_protocol (w : World) (fl : flags) (st : State) :
  exists new,
    trace (snd (run_source w fl st)) = trace st ++ new /\
    (forall pre name n post,
       new = pre ++ EvTarWriteHeader name n :: post ->
       exists pre1 f,
         pre = pre1 ++ [EvOsOpen name] /\
         w_os_Open w name = Ok f /\ f_Stat f = Ok n /\
         (w_tar_WriteHeader w (trace st ++ pre) name n <> None -> post = [])) /\
    (forall pre name body post,
       new = pre ++ EvTarCopy name body :: post ->
       exists pre1 n f,
         pre = pre1 ++ [EvOsOpen name; EvTarWriteHeader name n] /\
         w_os_Open w name = Ok f /\ body = f_data f /\
         w_tar_WriteHeader w (trace st ++ pre1 ++ [EvOsOpen name]) name n = None /\
         (w_io_Copy w (trace st ++ pre) name f <> None -> post = [])).
Proof.
  assert (H : exists new,
            trace (snd (run_source w fl st)) = trace st ++ new /\
            writer_protocol false w (trace st) new).
  { unfold run_source, os_Create, bind, wrap, lift, lift_err, alloc.
    destruct (w_elf_Open w (Source_DebuginfoPath fl)) as [f|e];
      [|exists []; simpl; rewrite app_nil_r; split; [done|apply writer_protocol_nil]].
    destruct (w_os_Create w (Source_OutPath fl)) as [e|];
      [exists []; simpl; rewrite app_nil_r; split; [done|apply writer_protocol_nil]|].
    destruct (w_zstd_NewWriter w) as [e|];
      [exists []; simpl; rewrite app_nil_r; split; [done|apply writer_protocol_nil]|].
    destruct (elf_DWARF f) as [d|e];
      [|exists []; simpl; rewrite app_nil_r; split; [done|apply writer_protocol_nil]].
    apply (source_entries_protocol w _ _ _ _ (trace st) []).
    - simpl. now rewrite app_nil_r.
    - apply writer_protocol_nil. }
  destruct H as (new & Etr & H). exists new. split; [exact Etr|]. split.
  - intros pre name n post E. exact (H pre _ post E).
  - intros pre name body post E. exact (H pre _ post E).
Qed.

(** ** [grpcConn] *)

(** X14: the dial options [grpcConn] builds hold exactly one transport
    credential, TLS unless [--insecure] is set and then with the
    [InsecureSkipVerify] of the flags; and every bearer-token credential
    among them requires transport security exactly when that transport is
    TLS, so a token is never configured against the transport it goes
    over. *)
Theorem X14_grpc_credentials (os_ReadFile : string -> result string)
    (cf : conn_flags) (opts : list DialOption) :
  grpcConn_opts os_ReadFile cf = Ok opts ->
  exists c,
    omap transport_of opts = [c] /\
    is_TLS c = negb (Upload_Insecure cf) /\
    (forall skip, c = credentials_NewTLS skip -> skip = Upload_InsecureSkipVerify cf) /\
    Forall (fun t => RequireTransportSecurity t = is_TLS c) (omap per_rpc_of opts).
Proof.
  unfold grpcConn_opts.
  destruct (Upload_Insecure cf) eqn:Hi;
    destruct (negb (String.eqb (Upload_BearerToken cf) ""));
    destruct (negb (String.eqb (Upload_BearerTokenFile cf) ""));
    try destruct (os_ReadFile (Upload_BearerTokenFile cf));
    intros [= <-]; eexists; csimpl;
    (split; [reflexivity|]); (split; [reflexivity|]);
    (split; [intros skip [= <-] || intros skip [=]; reflexivity|]);
    repeat constructor; unfold RequireTransportSecurity; simpl; now rewrite ?Hi.
Qed.

Lemma X14_grpc_credentials_witness :
  let cf := {| Upload_StoreAddress := "grpc.polarsignals.com:443";
               Upload_BearerToken := "t0";
               Upload_BearerTokenFile := "token";
               Upload_Insecure := false;
               Upload_InsecureSkipVerify := true |} in
  let opts := [WithUnaryInterceptor;
               WithTransportCredentials (credentials_NewTLS true);
               WithPerRPCCredentials {| token := "t0"; insecure := false |};
               WithPerRPCCredentials {| token := "t1"; insecure := false |}] in
  exists c,
    omap transport_of opts = [c] /\
    is_TLS c = negb (Upload_Insecure cf) /\
    (forall skip, c = credentials_NewTLS skip -> skip = Upload_InsecureSkipVerify cf) /\
    Forall (fun t => RequireTransportSecurity t = is_TLS c) (omap per_rpc_of opts).
Proof.
  intros cf opts.
  apply (X14_grpc_credentials (fun _ => Ok "t1") cf opts).
  reflexivity.
Defined.

(** X15: a token file is read when one is named.  If it cannot be read,
    [grpcConn] fails with the read error wrapped and does not dial,
    whatever the other flags say; if it can, the connection is dialled at
    the store address with options that end in a credential sending the
    file's content, byte for byte, after ["Bearer "] under the key
    ["authorization"], and nothing else. *)
Theorem X15_bearer_token_file (Conn : Type) (os_ReadFile : string -> result string)
    (grpc_Dial : string -> list DialOption -> result Conn) (cf : conn_flags) :
  Upload_BearerTokenFile cf <> "" ->
  match os_ReadFile (Upload_BearerTokenFile cf) with
  | Err err =>
      grpcConn os_ReadFile grpc_Dial cf =
        Err (fmt_Errorf "failed to read bearer token from file: %w" [] (Some err))
  | Ok b =>
      exists opts t,
        grpcConn os_ReadFile grpc_Dial cf =
          grpc_Dial (Upload_StoreAddress cf) (opts ++ [WithPerRPCCredentials t]) /\
        GetRequestMetadata t = {[ "authorization" := ("Bearer " ++ b)%string ]}
  end.
Proof.
  intros Hne. apply String.eqb_neq in Hne.
  unfold grpcConn, grpcConn_opts. rewrite Hne. simpl.
  destruct (os_ReadFile (Upload_BearerTokenFile cf)) as [b|err]; [|reflexivity].
  eexists _, _. split; reflexivity.
Qed.

Lemma X15_bearer_token_file_witness :
  let cf := {| Upload_StoreAddress := "grpc.polarsignals.com:443";
               Upload_BearerToken := "";
               Upload_BearerTokenFile := "token";
               Upload_Insecure := false;
               Upload_InsecureSkipVerify := false |} in
  grpcConn (fun _ => Err (PathError "open" "token" true))
      (fun _ opts => Ok (length opts)) cf =
    Err (fmt_Errorf "failed to read bearer token from file: %w" []
           (Some (PathError "open" "token" true))).
Proof.
  intros cf.
  apply (X15_bearer_token_file nat (fun _ => Err (PathError "open" "token" true))
           (fun _ opts => Ok (length opts)) cf).
  discriminate.
Defined.

(** ** The [buildid] command *)

(** X16: the buildid command prints the Build ID of its file and nothing
    else, and that only when the run ends without error: it fails, having
    printed nothing, when the file cannot be opened, when no Build ID can
    be read from it, and when the Build ID read is empty. *)
Theorem X16_buildid_prints_or_fails (w : World) (fl : flags) (st : State) :
  heap (snd (run_buildid w fl st)) = heap st /\
  match fst (run_buildid w fl st) with
  | Ok _ =>
      exists ef id,
        w_elf_Open w (Buildid_Path fl) = Ok ef /\
        elf_buildid ef = Ok id /\ id <> "" /\
        trace (snd (run_buildid w fl st)) = trace st ++ [EvStdout "%s" [arg_s id]]
  | Err e =>
      trace (snd (run_buildid w fl st)) = trace st /\
      match w_elf_Open w (Buildid_Path fl) with
      | Err err => e = fmt_Errorf "open ELF file: %w" [] (Some err)
      | Ok ef =>
          match elf_buildid ef with
          | Err err =>
              e = fmt_Errorf "get Build ID for %q: %w" [arg_s (Buildid_Path fl)] (Some err)
          | Ok id => id = "" /\ e = errors_New "failed to extract ELF build ID"
          end
      end
  end.
Proof.
  unfold run_buildid, elf_buildID, bind, wrap, lift, fail, emit.
  destruct (w_elf_Open w (Buildid_Path fl)) as [ef|err] eqn:Hef; simpl; [|done].
  destruct (elf_buildid ef) as [id|err] eqn:Hid; simpl; [|done].
  destruct (String.eqb_spec id ""); simpl; [done|].
  split; [done|]. exists ef, id. done.
Qed.

(** ** A path given twice *)

Lemma tracked_insert srcDst uploads st p id :
  tracked srcDst uploads st ->
  tracked (<[p := length (heap st)]> srcDst)
    (uploads ++ [{| buildID := id; path := p; reader := length (heap st); size := 0 |}])
    {| heap := heap st ++ [new_flexbuf]; trace := trace st |}.
Proof.
  intros [Hrange Hinj].
  assert (Hold : forall q h, srcDst !! q = Some h -> (h < length (heap st))%nat).
  { intros q h Hq. destruct (Hrange q h Hq) as (u & s & _ & _ & Hs & _).
    eapply lookup_lt_Some; eauto. }
  split.
  - intros q h Hq. destruct (decide (q = p)) as [->|Hne].
    + rewrite lookup_insert_eq in Hq. injection Hq as <-.
      eexists _, new_flexbuf. split; [apply elem_of_app; right; left|].
      split; [done|]. split; [|done]. cbn [heap]. now apply list_lookup_middle.
    + rewrite lookup_insert_ne in Hq by done.
      destruct (Hrange q h Hq) as (u & s & Hu & Hr & Hs & Hd).
      exists u, s. split; [apply elem_of_app; now left|]. split; [done|].
      split; [|done]. cbn [heap]. rewrite lookup_app_l; [done|].
      eapply lookup_lt_Some; eauto.
  - intros p1 p2 h H1 H2.
    destruct (decide (p1 = p)) as [->|Hne1]; destruct (decide (p2 = p)) as [->|Hne2].
    + done.
    + rewrite lookup_insert_eq in H1. rewrite lookup_insert_ne in H2 by done.
      injection H1 as <-. apply Hold in H2. lia.
    + rewrite lookup_insert_eq in H2. rewrite lookup_insert_ne in H1 by done.
      injection H2 as <-. apply Hold in H1. lia.
    + rewrite lookup_insert_ne in H1, H2 by done. eauto.
Qed.

Lemma upload_collect_bufs_orphan w paths :
  forall srcDst uploads st srcDst' uploads' st',
    upload_collect_bufs w paths srcDst uploads st = (Ok (srcDst', uploads'), st') ->
    tracked srcDst uploads st ->
    (exists u, u ∈ uploads /\ orphan srcDst st u) \/
    ~ NoDup paths \/
    (exists p, p ∈ paths /\ is_Some (srcDst !! p)) ->
    tracked srcDst' uploads' st' /\ exists u, u ∈ uploads' /\ orphan srcDst' st' u.
Proof.
  induction paths as [|p rest IH]; intros srcDst uploads st srcDst' uploads' st'; simpl.
  - unfold ret. intros [= <- <- <-] Htr [H|[H|(q & Hq & _)]].
    + done.
    + destruct H. constructor.
    + inversion Hq.
  - unfold bind, alloc.
    destruct (elf_buildID w p st) as [[id|e] st0] eqn:Hid; [|discriminate].
    apply elf_buildID_eq in Hid. subst st0. cbn [heap trace].
    set (buf := length (heap st)).
    set (u0 := {| buildID := id; path := p; reader := buf; size := 0 |}).
    intros Hrec Htr Htrig. pose proof Htr as [Hrange Hinj].
    apply (IH _ _ _ _ _ _ Hrec); [now apply tracked_insert|].
    assert (Hkeep : forall u, u ∈ uploads ->
              (exists s, heap st !! reader u = Some s /\ s_data s = []) ->
              (forall q, q <> p -> srcDst !! q <> Some (reader u)) ->
              exists u', u' ∈ uploads ++ [u0] /\
                orphan (<[p := buf]> srcDst)
                  {| heap := heap st ++ [new_flexbuf]; trace := trace st |} u').
    { intros u Hu (s & Hs & Hd) Hno. exists u. split; [apply elem_of_app; now left|].
      pose proof (lookup_lt_Some _ _ _ Hs) as Hlt. split.
      - intros q Hq. destruct (decide (q = p)) as [->|Hne].
        + rewrite lookup_insert_eq in Hq. injection Hq as Hq. fold buf in Hlt. lia.
        + rewrite lookup_insert_ne in Hq by done. now apply (Hno q).
      - exists s. split; [|done]. cbn [heap]. now rewrite lookup_app_l. }
    destruct Htrig as [(u & Hu & Hno & Hs)|[Hdup|(q & Hq & [h Hh])]].
    + left. apply (Hkeep u Hu Hs). intros q _. apply Hno.
    + destruct (decide (p ∈ rest)) as [Hin|Hnotin].
      * right. right. exists p. split; [done|]. rewrite lookup_insert_eq. eauto.
      * right. left. intros Hnd. apply Hdup. now apply NoDup_cons_2.
    + apply elem_of_cons in Hq as [->|Hq].
      * left. destruct (Hrange p h Hh) as (u & s & Hu & Hr & Hs & Hd). subst h.
        apply (Hkeep u Hu); [eauto|]. intros q Hne Hq. apply Hne. eauto.
      * right. right. exists q. split; [done|].
        destruct (decide (q = p)) as [->|Hne].
        -- rewrite lookup_insert_eq. eauto.
        -- rewrite lookup_insert_ne by done. eauto.
Qed.

Lemma upload_measure_bufs_nonempty uploads :
  forall st uploads' st',
    upload_measure_bufs uploads st = (Ok uploads', st') ->
    forall u, u ∈ uploads -> exists s, heap st !! reader u = Some s /\ s_data s <> [].
Proof.
  induction uploads as [|u rest IH]; intros st uploads' st'; simpl.
  - intros _ u Hu. inversion Hu.
  - unfold bind, ret, fail, get_stream, put_stream.
    destruct (heap st !! reader u) as [buf|] eqn:Hbuf; [|discriminate].
    destruct (s_kind buf); [discriminate|]. simpl.
    destruct (Z.eqb_spec (flexbuf_Len buf) 0) as [|Hlen]; [discriminate|].
    destruct (upload_measure_bufs rest _) as [[rest'|e] st1] eqn:Hrec; [|discriminate].
    intros _ u' Hu'. apply elem_of_cons in Hu' as [->|Hu'].
    + exists buf. split; [done|]. intros Hd. apply Hlen. unfold flexbuf_Len. now rewrite Hd.
    + destruct (IH _ _ _ Hrec u' Hu') as (s & Hs & Hd). cbn [heap] in Hs.
      destruct (decide (reader u' = reader u)) as [Heq|Hne].
      * rewrite Heq in *. rewrite list_lookup_insert_eq in Hs
          by (eapply lookup_lt_Some; eauto).
        injection Hs as <-. exists buf. done.
      * rewrite list_lookup_insert_ne in Hs by done. eauto.
Qed.

Lemma range_NoDup w (m : gmap string handle) :
  range_ok w ->
  (forall p1 p2 h, m !! p1 = Some h -> m !! p2 = Some h -> p1 = p2) ->
  NoDup (map snd (w_map_range w m)).
Proof.
  intros Hr Hinj. apply (NoDup_fmap_2_strong snd).
  - intros [p1 h1] [p2 h2] H1 H2 Heq. simpl in Heq. subst h2.
    rewrite (Hr m) in H1, H2. apply elem_of_map_to_list in H1, H2.
    f_equal. eauto.
  - rewrite (Hr m). apply NoDup_map_to_list.
Qed.

(** X17: a path given twice to the upload command when debug information
    is to be extracted.  The second buffer takes the place of the first in
    [srcDst], so the first stays empty; the command therefore always ends in
    an error (at the latest, that the extracted debug information is
    empty), and it does so before any call to the store. *)
Theorem X17_duplicate_path_fails (w : World) (fl : flags) (st : State) :
  range_ok w ->
  negb (Upload_NoExtract fl) && String.eqb (Upload_Type fl) "debuginfo" = true ->
  ~ NoDup (Upload_Paths fl) ->
  exists e new,
    fst (run_upload w fl st) = Err e /\
    trace (snd (run_upload w fl st)) = trace st ++ new /\
    Forall local new.
Proof.
  intros Hr Hc Hdup.
  assert (Hfail : exists e, fst (upload_collect w fl st) = Err e).
  { unfold upload_collect, bind, fail. rewrite Hc.
    destruct (upload_collect_bufs w (Upload_Paths fl) ∅ [] st)
      as [[[srcDst uploads]|e] st1] eqn:Hb; [|simpl; eauto].
    destruct (upload_collect_bufs_orphan w _ _ _ _ _ _ _ Hb)
      as ([Hrange Hinj] & u & Hu & Hno & s & Hs & Hd).
    { split; [intros p h H | intros p1 p2 h H]; rewrite lookup_empty in H; discriminate. }
    { right. now left. }
    destruct (base.size srcDst =? 0)%nat; [simpl; eauto|].
    destruct (extractAll_loop_spec w (Extract_Mode fl) (w_map_range w srcDst) None st1)
      as (st2 & new & E & _ & _ & _ & _ & Hfr & _).
    { now apply range_NoDup. }
    { intros [p h] Hp. rewrite (Hr srcDst) in Hp. apply elem_of_map_to_list in Hp.
      destruct (Hrange p h Hp) as (? & ? & _ & _ & Hl & _). simpl.
      eapply lookup_lt_Some; eauto. }
    unfold extractAll. rewrite E.
    destruct (join_errors None _); [simpl; eauto|].
    destruct (upload_measure_bufs uploads st2) as [[uploads'|e] st3] eqn:Hm; [|simpl; eauto].
    destruct (upload_measure_bufs_nonempty _ _ _ _ Hm u Hu) as (s' & Hs' & Hd').
    rewrite Hfr in Hs'.
    - congruence.
    - intros Hin. apply list_elem_of_fmap in Hin as ([p h] & Hh & Hp). simpl in Hh. subst h.
      rewrite (Hr srcDst) in Hp. apply elem_of_map_to_list in Hp. now apply (Hno p). }
  destruct (w_grpcConn w) as [e|] eqn:Hconn.
  - exists (fmt_Errorf "create gRPC connection: %w" [] (Some e)), [].
    unfold run_upload, wrap, bind, lift_err. rewrite Hconn. simpl.
    rewrite app_nil_r. done.
  - destruct (run_upload_collect_error w fl st Hconn) as [H1 H2].
    destruct Hfail as [e He]. destruct (H2 (ex_intro _ e He)) as (new & Etr & Hloc).
    exists e, new. split; [now apply H1|]. done.
Qed.

Lemma X17_duplicate_path_fails_witness :
  let w := ex_world UPLOAD_STRATEGY_GRPC 200 in
  let fl := ex_flags false ["a"; "b"; "a"] in
  exists e new,
    fst (run_upload w fl init_state) = Err e /\
    trace (snd (run_upload w fl init_state)) = trace init_state ++ new /\
    Forall local new.
Proof.
  intros w fl.
  apply (X17_duplicate_path_fails w fl init_state).
  - intros m. reflexivity.
  - reflexivity.
  - intros Hnd. apply NoDup_cons in Hnd as [Hnotin _]. apply Hnotin.
    right. left.
Defined.

(** ** Requests and artifacts *)

Lemma request_for_mono fl uploads uploads' ev :
  (forall u, u ∈ uploads -> u ∈ uploads') ->
  request_for fl uploads ev -> request_for fl uploads' ev.
Proof.
  intros Hsub. destruct ev; simpl; try done.
  - intros (Hf & u & Hu & H). eauto.
  - intros (Hf & u & Hu & H). eauto 6.
  - intros (u & Hu & H). eauto.
Qed.

Lemma upload_one_request_for w fl upload :
  emits (request_for fl [upload]) (upload_one w fl upload).
Proof.
  unfold upload_one, dispatch, grpc_Upload, uploadViaSignedURL,
    call_ShouldInitiateUpload, call_InitiateUpload, call_MarkUploadFinished,
    hash_Reader, Seek_start, drain, debugf.
  emits_auto; simpl; repeat split; exists upload; repeat split; left.
Qed.

(** X18: every request the protocol loop sends to the store is about one
    of its artifacts: it carries the Build ID of an artifact of the list,
    the dedup check and [InitiateUpload] carry the [--force] flag as given,
    and [InitiateUpload] announces that artifact's size. *)
Theorem X18_requests_name_artifacts (w : World) (fl : flags)
    (uploads : list uploadInfo) (st : State) :
  exists new,
    trace (snd (upload_loop w fl uploads st)) = trace st ++ new /\
    Forall (request_for fl uploads) new.
Proof.
  revert st. change (emits (request_for fl uploads) (upload_loop w fl uploads)).
  induction uploads as [|u rest IH]; simpl.
  - apply emits_ret.
  - apply emits_bind.
    + eapply emits_weaken; [|apply upload_one_request_for].
      intros ev. apply request_for_mono. intros x Hx.
      apply list_elem_of_singleton in Hx. subst x. left.
    + intros _. eapply emits_weaken; [|apply IH].
      intros ev. apply request_for_mono. intros x Hx. now right.
Qed.

(** ** A run that ends without error *)







(** ** Which reducer runs on what *)

Lemma extractAll_loop_reduced_by w mode all srcDsts :
  (forall p, p ∈ srcDsts -> p ∈ all) ->
  forall result, emits (reduced_by w mode all) (extractAll_loop w mode srcDsts result).
Proof.
  induction srcDsts as [|[src dst] rest IH]; intros Hsub result; simpl.
  - apply emits_ret.
  - assert (Hin : (src, dst) ∈ all) by (apply Hsub; left).
    assert (Hrest : forall p, p ∈ rest -> p ∈ all) by (intros p Hp; apply Hsub; now right).
    unfold run_reducer.
    emits_auto; try (apply IH; done).
    all: simpl; (split; [done|]); (split; [eauto|]).
    all: match goal with H : String.eqb _ _ = _ |- _ => now rewrite H end.
Qed.

(** X20: the mode picks the reducer.  When every destination is a stream
    of its own, [extractAll] runs a reducer only on a source it could open
    and for the destination paired with it; every destination whose source
    could be opened then holds what [StripDebug] did to it in the mode
    ["strip-debug"] and what [OnlyKeepDebug] did to it in every other mode,
    and the call is made under that reducer's name; a destination whose
    source could not be opened is left as it was. *)
Theorem X20_reducer_by_mode (w : World) (mode : string)
    (srcDsts : list (string * nat)) (st : State) :
  NoDup (map snd srcDsts) ->
  (forall p, p ∈ srcDsts -> (snd p < length (heap st))%nat) ->
  exists result st' new,
    extractAll w mode srcDsts st = (Ok result, st') /\
    trace st' = trace st ++ new /\
    (forall mode_fn src dst,
       EvExtractFn mode_fn src dst ∈ new ->
       (src, dst) ∈ srcDsts /\
       (exists f, w_os_Open w src = Ok f) /\
       mode_fn = if String.eqb mode "strip-debug" then "StripDebug" else "OnlyKeepDebug") /\
    (forall src dst f s,
       (src, dst) ∈ srcDsts -> w_os_Open w src = Ok f -> heap st !! dst = Some s ->
       exists data off err,
         (if String.eqb mode "strip-debug"
          then w_StripDebug w f (s_data s) (s_off s)
          else w_OnlyKeepDebug w f (s_data s) (s_off s)) = (data, off, err) /\
         heap st' !! dst = Some (with_data s data off)) /\
    (forall src dst e,
       (src, dst) ∈ srcDsts -> w_os_Open w src = Err e ->
       heap st' !! dst = heap st !! dst).
Proof.
  intros Hnd Hval.
  destruct (extractAll_loop_spec w mode srcDsts None st Hnd Hval)
    as (st' & new & E & Etr & _ & _ & _ & _ & Eout).
  destruct (extractAll_loop_reduced_by w mode srcDsts srcDsts (fun _ H => H) None st)
    as (new' & Etr' & Hnew).
  rewrite E in Etr'. cbn [snd] in Etr'. rewrite Etr in Etr'. apply app_inv_head in Etr'.
  subst new'.
  eexists _, st', new. split; [exact E|]. split; [exact Etr|]. split; [|split].
  - intros mode_fn src dst Hin. rewrite Forall_forall in Hnew. apply (Hnew _ Hin).
  - intros src dst f s Hin Ho Hs. specialize (Eout _ Hin).
    unfold pair_output, extractFn in Eout. cbn [fst snd] in Eout. rewrite Hs, Ho in Eout.
    destruct (String.eqb mode "strip-debug").
    + destruct (w_StripDebug w f (s_data s) (s_off s)) as [[data off] err]. eauto.
    + destruct (w_OnlyKeepDebug w f (s_data s) (s_off s)) as [[data off] err]. eauto.
  - intros src dst e Hin Ho. specialize (Eout _ Hin).
    unfold pair_output in Eout. cbn [fst snd] in Eout. rewrite Ho in Eout.
    rewrite Eout. now destruct (heap st !! dst).
Qed.

Lemma X20_reducer_by_mode_witness :
  let w := ex_world UPLOAD_STRATEGY_GRPC 200 in
  let st := {| heap := [new_flexbuf; new_flexbuf; new_flexbuf]; trace := [] |} in
  let srcDsts := [("a", 0%nat); ("nowhere", 1%nat); ("b", 2%nat)] in
  exists result st' new,
    extractAll w "strip-debug" srcDsts st = (Ok result, st') /\
    trace st' = trace st ++ new /\
    (forall mode_fn src dst,
       EvExtractFn mode_fn src dst ∈ new ->
       (src, dst) ∈ srcDsts /\
       (exists f, w_os_Open w src = Ok f) /\
       mode_fn = "StripDebug") /\
    (forall src dst f s,
       (src, dst) ∈ srcDsts -> w_os_Open w src = Ok f -> heap st !! dst = Some s ->
       exists data off err,
         w_StripDebug w f (s_data s) (s_off s) = (data, off, err) /\
         heap st' !! dst = Some (with_data s data off)) /\
    (forall src dst e,
       (src, dst) ∈ srcDsts -> w_os_Open w src = Err e ->
       heap st' !! dst = heap st !! dst).
Proof.
  intros w st srcDsts.
  apply (X20_reducer_by_mode w "strip-debug" srcDsts st).
  - simpl.
    repeat (apply NoDup_cons_2;
            [intros H; repeat (apply elem_of_cons in H as [H|H]; [discriminate H|]);
             inversion H|]).
    apply NoDup_nil_2.
  - intros p Hp. simpl.
    repeat (apply elem_of_cons in Hp as [->|Hp]; [simpl; lia|]). inversion Hp.
Defined.

(** ** What is uploaded *)

Lemma upload_one_sends w fl upload st s :
  heap st !! reader upload = Some s ->
  exists new,
    trace (snd (upload_one w fl upload st)) = trace st ++ new /\
    forall ev, ev ∈ new -> is_transmit ev = true ->
      sent ev = Some (reader upload, s_data s).
Proof.
  intros Hs.
  munfold.
  repeat (rewrite ?Hs; heap_simpl; simpl; mcase).
  all: repeat rewrite <- app_assoc; simpl.
  all: eexists; split; [reflexivity|].
  all: intros ev Hin Htx.
  all: repeat (apply elem_of_cons in Hin as [->|Hin]; [try discriminate Htx|]);
    try (inversion Hin; fail).
  all: reflexivity.
Qed.

Lemma upload_one_frame w fl u rest st :
  ready st (u :: rest) ->
  forall u', u' ∈ rest ->
    heap (snd (upload_one w fl u st)) !! reader u' = heap st !! reader u'.
Proof.
  intros [Hnd Hrd] u' Hu'. simpl in Hnd. apply NoDup_cons in Hnd as [Hnotin _].
  destruct (Hrd u) as (s & Hs & Hoff); [left|].
  destruct (upload_one_effect w fl u st s Hs Hoff) as (_ & _ & _ & _ & Hfr & _).
  apply Hfr. intros Heq. apply Hnotin. rewrite <- Heq. apply list_elem_of_fmap. eauto.
Qed.

Lemma upload_loop_sends w fl uploads :
  forall st,
    ready st uploads -> carries w fl st uploads ->
    exists new,
      trace (snd (upload_loop w fl uploads st)) = trace st ++ new /\
      forall ev, ev ∈ new -> is_transmit ev = true ->
        exists u data, u ∈ uploads /\ sent ev = Some (reader u, data) /\
                       payload w fl (path u) = Some data.
Proof.
  induction uploads as [|u rest IH]; intros st Hr Hc.
  - exists []. simpl. rewrite app_nil_r. split; [done|]. intros ev Hin. inversion Hin.
  - pose proof (ready_step w fl u rest st Hr) as Hr1.
    pose proof (upload_one_frame w fl u rest st Hr) as Hfr.
    destruct (Hc u) as (s & Hs & Hp); [left|].
    destruct (upload_one_sends w fl u st s Hs) as (new1 & E1 & H1).
    simpl. unfold bind.
    destruct (upload_one w fl u st) as [[[]|e] st1]; simpl in *.
    + destruct (IH st1 Hr1) as (new2 & E2 & H2).
      { intros u' Hu'. destruct (Hc u') as (s' & Hs' & Hp'); [now right|].
        exists s'. split; [|done]. now rewrite Hfr. }
      exists (new1 ++ new2). rewrite E2, E1, app_assoc. split; [done|].
      intros ev Hin Htx. apply elem_of_app in Hin as [Hin|Hin].
      * exists u, (s_data s). split; [left|]. split; [now apply H1|done].
      * destruct (H2 ev Hin Htx) as (u' & data & Hu' & H). exists u', data.
        split; [now right|done].
    + exists new1. split; [done|]. intros ev Hin Htx.
      exists u, (s_data s). split; [left|]. split; [now apply H1|done].
Qed.

(** *** The non-extracting branch *)

Lemma upload_collect_files_carries w fl paths :
  negb (Upload_NoExtract fl) && String.eqb (Upload_Type fl) "debuginfo" = false ->
  forall uploads st uploads' st',
    upload_collect_files w fl paths uploads st = (Ok uploads', st') ->
    carries w fl st uploads -> carries w fl st' uploads'.
Proof.
  intros Hc. induction paths as [|p rest IH]; intros uploads st uploads' st'; simpl.
  - unfold ret. now intros [= <- <-].
  - unfold bind, wrap, os_Open, bind, emit, lift, alloc, ret, fail.
    destruct (if String.eqb (Upload_Type fl) "debuginfo" && String.eqb (Upload_BuildID fl) ""
              then elf_buildID w p else ret (Upload_BuildID fl)) as [[id|e] st0] eqn:Hid;
      [|discriminate].
    assert (st0 = st) as ->.
    { destruct (_ && _) in Hid; [now apply elf_buildID_eq in Hid|].
      unfold ret in Hid. congruence. }
    cbn [heap trace].
    destruct (w_os_Open w p) as [f|e] eqn:Ho; [|discriminate]. cbn [heap trace].
    destruct (f_Stat f) as [n|e]; [|discriminate].
    destruct (n =? 0); [discriminate|].
    intros Hrec Hcar. apply (IH _ _ _ _ Hrec).
    intros u Hu. cbn [heap]. apply elem_of_app in Hu as [Hu|Hu].
    + destruct (Hcar u Hu) as (s & Hs & Hp). exists s. split; [|done].
      rewrite lookup_app_l; [done|]. eapply lookup_lt_Some; eauto.
    + apply list_elem_of_singleton in Hu. subst u. cbn [reader path].
      exists (stream_of_file f). split; [now apply list_lookup_middle|].
      unfold payload. now rewrite Ho, Hc.
Qed.

(** *** The extracting branch *)

Lemma linked_insert srcDst uploads st p id :
  tracked srcDst uploads st ->
  linked srcDst st uploads ->
  linked (<[p := length (heap st)]> srcDst)
    {| heap := heap st ++ [new_flexbuf]; trace := trace st |}
    (uploads ++ [{| buildID := id; path := p; reader := length (heap st); size := 0 |}]).
Proof.
  intros [Hrange Hinj] Hl u Hu. apply elem_of_app in Hu as [Hu|Hu].
  - assert (Horph : (exists s, heap st !! reader u = Some s /\ s_data s = []) ->
                    (forall q, q <> p -> srcDst !! q <> Some (reader u)) ->
                    orphan (<[p := length (heap st)]> srcDst)
                      {| heap := heap st ++ [new_flexbuf]; trace := trace st |} u).
    { intros (s & Hs & Hd) Hno. pose proof (lookup_lt_Some _ _ _ Hs) as Hlt. split.
      - intros q Hq. destruct (decide (q = p)) as [->|Hne].
        + rewrite lookup_insert_eq in Hq. injection Hq as Hq. lia.
        + rewrite lookup_insert_ne in Hq by done. now apply (Hno q).
      - exists s. split; [|done]. cbn [heap]. now rewrite lookup_app_l. }
    destruct (Hl u Hu) as [[Hno Hs]|Hp].
    + left. apply Horph; [done|]. intros q _. apply Hno.
    + destruct (decide (path u = p)) as [Heq|Hne].
      * left. destruct (Hrange _ _ Hp) as (u' & s & _ & _ & Hs & Hd).
        apply Horph; [eauto|]. intros q Hq Hq'. apply Hq. rewrite <- Heq. eauto.
      * right. now rewrite lookup_insert_ne.
  - apply list_elem_of_singleton in Hu. subst u. right. cbn [path reader].
    now rewrite lookup_insert_eq.
Qed.

Lemma upload_collect_bufs_linked w paths :
  forall srcDst uploads st srcDst' uploads' st',
    upload_collect_bufs w paths srcDst uploads st = (Ok (srcDst', uploads'), st') ->
    tracked srcDst uploads st -> linked srcDst st uploads ->
    tracked srcDst' uploads' st' /\ linked srcDst' st' uploads'.
Proof.
  induction paths as [|p rest IH]; intros srcDst uploads st srcDst' uploads' st'; simpl.
  - unfold ret. now intros [= <- <- <-].
  - unfold bind, alloc.
    destruct (elf_buildID w p st) as [[id|e] st0] eqn:Hid; [|discriminate].
    apply elf_buildID_eq in Hid. subst st0. cbn [heap trace].
    intros Hrec Htr Hl. apply (IH _ _ _ _ _ _ Hrec).
    + now apply tracked_insert.
    + now apply linked_insert.
Qed.

Lemma upload_measure_bufs_same_data uploads :
  forall st uploads' st',
    upload_measure_bufs uploads st = (Ok uploads', st') ->
    same_data (heap st) (heap st').
Proof.
  induction uploads as [|u rest IH]; intros st uploads' st'; simpl.
  - unfold ret. intros [= <- <-]. apply same_data_refl.
  - unfold bind, ret, fail, get_stream, put_stream.
    destruct (heap st !! reader u) as [buf|] eqn:Hbuf; [|discriminate].
    destruct (s_kind buf); [discriminate|]. simpl.
    destruct (flexbuf_Len buf =? 0); [discriminate|].
    destruct (upload_measure_bufs rest _) as [[rest'|e] st1] eqn:Hrec; [|discriminate].
    intros [= <- <-]. apply IH in Hrec. cbn [heap] in Hrec.
    eapply same_data_trans; [|exact Hrec].
    intros h s Hs. destruct (decide (h = reader u)) as [->|Hne].
    + rewrite list_lookup_insert_eq by (eapply lookup_lt_Some; eauto).
      eexists. split; [reflexivity|]. simpl. congruence.
    + rewrite list_lookup_insert_ne by done. eauto.
Qed.

Lemma upload_measure_bufs_members uploads :
  forall st uploads' st',
    upload_measure_bufs uploads st = (Ok uploads', st') ->
    forall u', u' ∈ uploads' ->
      exists u, u ∈ uploads /\ path u' = path u /\ reader u' = reader u.
Proof.
  induction uploads as [|u rest IH]; intros st uploads' st'; simpl.
  - unfold ret. intros [= <- <-] u' Hu'. inversion Hu'.
  - unfold bind, ret, fail, get_stream, put_stream.
    destruct (heap st !! reader u) as [buf|] eqn:Hbuf; [|discriminate].
    destruct (s_kind buf); [discriminate|]. simpl.
    destruct (flexbuf_Len buf =? 0); [discriminate|].
    destruct (upload_measure_bufs rest _) as [[rest'|e] st1] eqn:Hrec; [|discriminate].
    intros [= <- <-] u' Hu'. apply elem_of_cons in Hu' as [->|Hu'].
    + exists u. split; [left|done].
    + destruct (IH _ _ _ Hrec u' Hu') as (u0 & Hu0 & H). exists u0. split; [now right|done].
Qed.

Lemma upload_collect_carries w fl st uploads st' :
  range_ok w ->
  upload_collect w fl st = (Ok uploads, st') ->
  carries w fl st' uploads.
Proof.
  intros Hr. unfold upload_collect, bind, fail.
  destruct (negb (Upload_NoExtract fl) && String.eqb (Upload_Type fl) "debuginfo") eqn:Hc.
  2:{ intros H. eapply upload_collect_files_carries; eauto.
      intros u Hu. inversion Hu. }
  destruct (upload_collect_bufs w (Upload_Paths fl) ∅ [] st)
    as [[[srcDst ups]|e] st1] eqn:Hb; [|discriminate].
  destruct (upload_collect_bufs_linked w _ _ _ _ _ _ _ Hb) as ([Hrange Hinj] & Hl).
  { split; [intros p h H | intros p1 p2 h H]; rewrite lookup_empty in H; discriminate. }
  { intros u Hu. inversion Hu. }
  pose proof (upload_collect_bufs_ready _ _ _ _ _ _ _ _ Hb (ready_nil st)) as [_ Hrd].
  destruct (base.size srcDst =? 0)%nat; [discriminate|].
  destruct (extractAll_loop_spec w (Extract_Mode fl) (w_map_range w srcDst) None st1)
    as (st2 & new & E & _ & _ & _ & _ & Hfr & Hout).
  { now apply range_NoDup. }
  { intros [p h] Hp. rewrite (Hr srcDst) in Hp. apply elem_of_map_to_list in Hp.
    destruct (Hrange p h Hp) as (? & ? & _ & _ & Hlk & _). simpl.
    eapply lookup_lt_Some; eauto. }
  unfold extractAll. rewrite E.
  destruct (join_errors None _) as [err|] eqn:Hj; [discriminate|].
  apply join_errors_None in Hj as [_ Hnil]. rewrite omap_nil_iff in Hnil.
  intros Hm u' Hu'.
  destruct (upload_measure_bufs_members _ _ _ _ Hm u' Hu') as (u & Hu & -> & ->).
  assert (Hlinked : srcDst !! path u = Some (reader u)).
  { destruct (Hl u Hu) as [(Hno & s & Hs & Hd)|H]; [|done].
    destruct (upload_measure_bufs_nonempty _ _ _ _ Hm u Hu) as (s' & Hs' & Hd').
    rewrite Hfr in Hs'; [congruence|].
    intros Hin. apply list_elem_of_fmap in Hin as ([p h] & Hh & Hp). simpl in Hh. subst h.
    rewrite (Hr srcDst) in Hp. apply elem_of_map_to_list in Hp. now destruct (Hno p). }
  assert (Hp : (path u, reader u) ∈ w_map_range w srcDst).
  { rewrite (Hr srcDst). now apply elem_of_map_to_list. }
  specialize (Hout _ Hp). specialize (Hnil _ Hp).
  destruct (Hrd u Hu) as (s & Hs & Hoff).
  destruct (Hrange _ _ Hlinked) as (_ & s0 & _ & _ & Hs0 & Hd).
  assert (s0 = s) as -> by congruence.
  unfold pair_output in Hout. unfold pair_error in Hnil. cbn [fst snd] in Hout, Hnil.
  rewrite Hs in Hout, Hnil. rewrite Hd, Hoff in Hout, Hnil.
  destruct (w_os_Open w (path u)) as [f|e] eqn:Ho; [|discriminate].
  destruct (extractFn w (Extract_Mode fl) f [] 0%nat) as [[data off] err] eqn:Hfn.
  destruct (upload_measure_bufs_same_data _ _ _ _ Hm _ _ Hout) as (s3 & Hs3 & Hd3).
  exists s3. split; [done|]. unfold payload. rewrite Ho, Hc, Hfn, Hd3. reflexivity.
Qed.

(** X21: what the upload command sends.  Every transmission of a run,
    by either transport, sends the payload of a path of the command line:
    the output of the reducer on the file at that path when debug
    information is extracted, the content of that file otherwise. *)
Theorem X21_upload_sends_payload (w : World) (fl : flags) (st : State) :
  range_ok w ->
  exists new,
    trace (snd (run_upload w fl st)) = trace st ++ new /\
    forall ev, ev ∈ new -> is_transmit ev = true ->
      exists p h data,
        p ∈ Upload_Paths fl /\ sent ev = Some (h, data) /\ payload w fl p = Some data.
Proof.
  intros Hr. unfold run_upload, wrap, bind, lift_err.
  destruct (w_grpcConn w).
  { exists []. simpl. rewrite app_nil_r. split; [done|]. intros ev Hin. inversion Hin. }
  destruct (upload_collect_local w fl st) as (new1 & E1 & F1).
  assert (Hloc : forall ev, ev ∈ new1 -> is_transmit ev = true -> False).
  { intros ev Hin Htx. rewrite Forall_forall in F1. specialize (F1 ev Hin).
    unfold local in F1. destruct ev; simpl in *; discriminate. }
  destruct (upload_collect w fl st) as [[uploads|e] st1] eqn:Ec; simpl in *.
  - destruct (upload_loop_sends w fl uploads st1) as (new2 & E2 & H2).
    { eapply upload_collect_ready; eauto. }
    { eapply upload_collect_carries; eauto. }
    exists (new1 ++ new2). rewrite E2, E1, app_assoc. split; [done|].
    intros ev Hin Htx. apply elem_of_app in Hin as [Hin|Hin]; [destruct (Hloc ev Hin Htx)|].
    destruct (H2 ev Hin Htx) as (u & data & Hu & Hsent & Hp).
    exists (path u), (reader u), data. split; [|done].
    rewrite <- (upload_collect_paths _ _ _ _ _ Ec). apply list_elem_of_fmap. eauto.
  - exists new1. split; [done|]. intros ev Hin Htx. destruct (Hloc ev Hin Htx).
Qed.

Lemma X21_upload_sends_payload_witness :
  let w := ex_world UPLOAD_STRATEGY_SIGNED_URL 200 in
  let fl := ex_flags false ["a"; "b"] in
  exists new,
    trace (snd (run_upload w fl init_state)) = trace init_state ++ new /\
    forall ev, ev ∈ new -> is_transmit ev = true ->
      exists p h data,
        p ∈ Upload_Paths fl /\ sent ev = Some (h, data) /\ payload w fl p = Some data.
Proof.
  intros w fl.
  apply (X21_upload_sends_payload w fl init_state).
  intros m. reflexivity.
Defined.
